(** * Printing of types: cmd/fillstruct/typestring.go

    A shallow embedding of [typeString], [writeType], [writeTuple] and
    [writeSignature], and the properties of the rendered text.

    The type graph of go/types is a heap of nodes addressed by pointers; a
    [types.Type] interface value is either nil or a pointer to a node.  The
    renderer compares such values by identity ([t == typ]), so the embedding
    keeps the heap and the addresses explicit: a graph may contain cycles and
    may contain two distinct nodes with the same contents.

    - Every value of [types.Type] other than nil points to a node.  The one
      nil pointer wrapped in an interface value that the code can make
      itself, the result of [t.Embedded(i)] for an embedded type that is not
      a defined type, is handled where it is made ([Embedded]).  The tuples
      of a signature may be nil pointers, as the code tests for them.
    - The tuples of a signature and the signature of a method are kept
      inside the signature and the method: the code reads them and never
      compares them with anything.
    - The buffer is a string that is passed to a call and handed back by it;
      a call ends in an [outcome].
    - [visited] is a list of types here and a Go slice in the code; the
      second renderer of this file keeps the backing arrays of the slices,
      and is shown to return the same.
    - The recursion goes through the graph, so [writeType] takes fuel;
      [typeString] gives it more than any graph needs.
    - What [writeType] does on a node is also written out as a list of
      steps ([program]), which [writeType] is shown to run; the calls a run
      comes to, with their paths and buffers, are read off these lists. *)

From stdpp Require Import ssreflect base gmap list strings pretty.
From Stdlib Require Import ZArith Ascii.

#[local] Set Warnings "-rewrite-rw,-clear-no-such-hyp".

Local Open Scope Z_scope.
Local Open Scope nat_scope.

(** ** The type model (package go/types, as far as the renderer reads it) *)

Module types.

(** An address of a node of the type graph. *)
Definition addr := nat.

(** A value of the interface [types.Type]: [None] is the nil interface,
    [Some a] the pointer to the node stored at [a]. *)
Definition Type_ := option addr.

(** [types.BasicKind], in the order of its declaration. *)
Inductive BasicKind :=
| Invalid
| Bool | Int | Int8 | Int16 | Int32 | Int64
| Uint | Uint8 | Uint16 | Uint32 | Uint64 | Uintptr
| Float32 | Float64 | Complex64 | Complex128
| String | UnsafePointer
| UntypedBool | UntypedInt | UntypedRune | UntypedFloat | UntypedComplex
| UntypedString | UntypedNil.

(** [types.ChanDir]: its three constants.  The [default: panic("unreachable")]
    arm of the switch over [t.Dir()] has no value to fire on. *)
Inductive ChanDir := SendRecv | SendOnly | RecvOnly.

(** [*types.Package]: compared by pointer, read through [Name()]. *)
Record Package := { pkg_addr : nat; pkg_name : string }.

(** [*types.Var] as an element of a tuple: [Name()] and [Type()]. *)
Record Var := { var_name : string; var_type : Type_ }.

(** A field of a struct: [Name()], [Anonymous()], [Type()], and the tag
    that [Struct.Tag(i)] returns for it (the empty string when absent). *)
Record Field :=
  { field_name : string; field_anonymous : bool;
    field_type : Type_; field_tag : string }.

(** [*types.Tuple] as the renderer reads it: [writeTuple] only uses [Len()]
    and [At(i)], never the identity of the tuple. *)
Definition Tuple := list Var.

(** [*types.Signature]: [Params()], [Variadic()], [Results()].  Both tuples
    may be nil pointers. *)
Record Signature :=
  { sig_params : option Tuple; sig_variadic : bool;
    sig_results : option Tuple }.

(** [*types.Func] as a method of an interface: [Name()] and its type, which
    is a signature. *)
Record Func := { func_name : string; func_type : Signature }.

(** The nodes of the graph: the dynamic types the switch of [writeType]
    distinguishes, and [External] for any other implementation of
    [types.Type] (its Go type name, its [String()] and [Underlying()]).

    An interface is read through [NumMethods()] and [Method(i)], and
    through [NumEmbeddeds()] and [Embedded(i)].  [methods] is the list
    [Method(0)], [Method(1)], ...: in go/types these are all the methods of
    the interface, those that come from its embedded interfaces included,
    although the comment in the code speaks of the explicit ones.
    [embeddeds] is the list of the embedded types, whatever they are;
    [Embedded(i)] narrows them to defined types.  The alias nodes that
    go/types has from Go 1.22 on, which [Embedded(i)] looks through, are not
    among the nodes. *)
Inductive Node :=
| Basic (kind : BasicKind) (name : string)
| Array (len : Z) (elem : Type_)
| Slice (elem : Type_)
| Struct (fields : list Field)
| Pointer (elem : Type_)
| TupleT (vars : Tuple)
| SignatureT (sig : Signature)
| Interface (methods : list Func) (embeddeds : list Type_)
| Map (key elem : Type_)
| Chan (dir : ChanDir) (elem : Type_)
| Named (obj_pkg : option Package) (obj_name : string) (underlying : Type_)
| External (go_type : string) (str : string) (underlying : Type_).

#[global] Instance BasicKind_eq_dec : EqDecision BasicKind.
Proof. solve_decision. Defined.

#[global] Instance ChanDir_eq_dec : EqDecision ChanDir.
Proof. solve_decision. Defined.

(** Tuple.Len() accepts a nil receiver. *)
Definition Tuple_Len (t : option Tuple) : nat :=
  match t with Some vs => length vs | None => 0 end.

End types.

(** The heap of type nodes. *)
Abbreviation Heap := (gmap types.addr types.Node).

(** ** Results of a call *)

(** A call returns with the buffer as it left it and its [error] value,
    panics, or, in the embedding only, runs out of fuel.  [Dangling] is the
    answer on a pointer that the heap does not hold, which no Go value is. *)
Inductive outcome :=
| Returned (buf : string) (err : option string)
| Panicked (msg : string)
| Dangling
| OutOfFuel.

Definition bind (r : outcome) (k : string → option string → outcome) : outcome :=
  match r with
  | Returned buf err => k buf err
  | _ => r
  end.

Notation "'call' ( b , e ) ← r ; k" := (bind r (λ b e, k))
  (at level 10, b name, e name, r at level 100, k at level 200,
   format "'[v' 'call'  ( b ,  e )  ←  r ; '/' k ']'").

(** [if err != nil { return err }] after a call that left the buffer [buf]. *)
Definition check (buf : string) (err : option string)
    (k : string → outcome) : outcome :=
  match err with
  | Some e => Returned buf (Some e)
  | None => k buf
  end.

(** [prepend s r]: the outcome [r] of a call on the empty buffer, seen from a
    call on the buffer [s]. *)
Definition prepend (s : string) (r : outcome) : outcome :=
  match r with
  | Returned buf err => Returned (s +:+ buf) err
  | _ => r
  end.

(** ** The renderer *)

(** [t == typ] on interface values. *)
Definition same_type (t typ : types.Type_) : bool := bool_decide (t = typ).

(** Modelled from the spec: the helper [isImported(pkg, t)], which is not
    part of typestring.go.  The spec has the name qualified when the owning
    scope of the type differs from the viewing scope, scopes being compared
    by identity and not by their display identifier.  The second argument
    here is the owner [t.Obj().Pkg()] of the named type. *)
Definition isImported (pkg owner : option types.Package) : bool :=
  negb (bool_decide (types.pkg_addr <$> owner = types.pkg_addr <$> pkg)).

(** [fmt.Fprintf(buf, "%T", typ)]: the dynamic type of the interface value. *)
Definition go_type_of (n : types.Node) : string :=
  match n with
  | types.Basic _ _ => "*types.Basic"
  | types.Array _ _ => "*types.Array"
  | types.Slice _ => "*types.Slice"
  | types.Struct _ => "*types.Struct"
  | types.Pointer _ => "*types.Pointer"
  | types.TupleT _ => "*types.Tuple"
  | types.SignatureT _ => "*types.Signature"
  | types.Interface _ _ => "*types.Interface"
  | types.Map _ _ => "*types.Map"
  | types.Chan _ _ => "*types.Chan"
  | types.Named _ _ _ => "*types.Named"
  | types.External ty _ _ => ty
  end.

Section Renderer.

(** [strconv.Quote], which the verb [%q] applies to a struct tag. *)
Variable quote : string → string.

Variable heap : Heap.

(** The signature of [writeType] once the fuel is fixed. *)
Definition writer :=
  string → option types.Package → types.Type_ → list types.Type_ → outcome.

(** [fmt.Fprintf(buf, "○%T", typ)]: what is written for a type that is on
    the path; the verb prints the nil interface as [<nil>]. *)
Definition cycle_marker (typ : types.Type_) : option string :=
  match typ with
  | None => Some "○<nil>"
  | Some a => (λ n, "○" +:+ go_type_of n) <$> heap !! a
  end.

(** Dereferencing a pointer to a node. *)
Definition load (a : types.addr) (k : types.Node → outcome) : outcome :=
  match heap !! a with
  | Some n => k n
  | None => Dangling
  end.

(** [Underlying()] of a node that is reached through [self]: a named type
    and an external implementation answer with their own field, every other
    type of go/types is its own underlying type. *)
Definition Underlying (n : types.Node) (self : types.Type_) : types.Type_ :=
  match n with
  | types.Named _ _ u => u
  | types.External _ _ u => u
  | _ => self
  end.

Definition string_type_expected : string :=
  "internal error: string type expected".

Definition nil_dereference : string :=
  "runtime error: invalid memory address or nil pointer dereference".

(** The last parameter of a variadic tuple: the body of the test of line
    220, with the call of line 235 that the slice arm falls through to.
    [continue] is the rest of the loop, run on the buffer the iteration
    leaves. *)
Definition writeVariadic (rec : writer) (buf : string)
    (pkg : option types.Package) (typ : types.Type_)
    (visited : list types.Type_) (continue : string → outcome) : outcome :=
  match typ with
  | None => Panicked nil_dereference
  | Some a =>
      load a (λ n,
        match n with
        | types.Slice elem =>
            call (buf, _) ← rec (buf +:+ "...") pkg elem visited;
            continue buf
        | _ =>
            match Underlying n typ with
            | None => Panicked string_type_expected
            | Some u =>
                load u (λ t,
                  match t with
                  | types.Basic kind _ =>
                      if bool_decide (kind = types.String) then
                        call (buf, _) ← rec buf pkg typ visited;
                        continue (buf +:+ "...")
                      else Panicked string_type_expected
                  | _ => Panicked string_type_expected
                  end)
            end
        end)
  end.

(** The loop of [writeTuple] from index [i] on, [vars] being the elements
    [tup.At(i)], [tup.At(i+1)], ... and [len] the value of [tup.Len()]. *)
Fixpoint writeTuple_loop (rec : writer) (pkg : option types.Package)
    (len : nat) (variadic : bool) (visited : list types.Type_)
    (vars : list types.Var) (i : nat) (buf : string) : outcome :=
  match vars with
  | [] => Returned buf None
  | v :: rest =>
      let buf := if bool_decide (0 < i) then buf +:+ ", " else buf in
      let buf :=
        if bool_decide (types.var_name v ≠ "")
        then buf +:+ types.var_name v +:+ " " else buf in
      let typ := types.var_type v in
      let continue := writeTuple_loop rec pkg len variadic visited rest (S i) in
      if variadic && bool_decide (i = len - 1) then
        writeVariadic rec buf pkg typ visited continue
      else
        call (buf, _) ← rec buf pkg typ visited;
        continue buf
  end.

Definition writeTuple (rec : writer) (buf : string)
    (pkg : option types.Package) (tup : option types.Tuple)
    (variadic : bool) (visited : list types.Type_) : outcome :=
  let buf := buf +:+ "(" in
  call (buf, _) ←
    match tup with
    | Some vars =>
        writeTuple_loop rec pkg (length vars) variadic visited vars 0 buf
    | None => Returned buf None
    end;
  Returned (buf +:+ ")") None.

Definition writeSignature (rec : writer) (buf : string)
    (pkg : option types.Package) (sig : types.Signature)
    (visited : list types.Type_) : outcome :=
  call (buf, _) ←
    writeTuple rec buf pkg (types.sig_params sig) (types.sig_variadic sig)
      visited;
  let n := types.Tuple_Len (types.sig_results sig) in
  if bool_decide (n = 0) then Returned buf None
  else
    let buf := buf +:+ " " in
    match types.sig_results sig with
    | Some [v] =>
        if bool_decide (types.var_name v = "")
        then rec buf pkg (types.var_type v) visited
        else writeTuple rec buf pkg (types.sig_results sig) false visited
    | _ => writeTuple rec buf pkg (types.sig_results sig) false visited
    end.

(** The loop over the fields of a struct (lines 90-105). *)
Fixpoint writeFields (rec : writer) (pkg : option types.Package)
    (visited : list types.Type_) (fields : list types.Field) (i : nat)
    (buf : string) : outcome :=
  match fields with
  | [] => Returned buf None
  | f :: rest =>
      let buf := if bool_decide (0 < i) then buf +:+ "; " else buf in
      let buf :=
        if negb (types.field_anonymous f)
        then buf +:+ types.field_name f +:+ " " else buf in
      call (buf, err) ← rec buf pkg (types.field_type f) visited;
      check buf err (λ buf,
        let buf :=
          if bool_decide (types.field_tag f ≠ "")
          then buf +:+ " " +:+ quote (types.field_tag f) else buf in
        writeFields rec pkg visited rest (S i) buf)
  end.

(** The loop over the methods of an interface (lines 134-143): [methods] is
    what [t.Method(i)] returns for the indices below [t.NumMethods()]. *)
Fixpoint writeMethods (rec : writer) (pkg : option types.Package)
    (visited : list types.Type_) (methods : list types.Func) (i : nat)
    (buf : string) : outcome :=
  match methods with
  | [] => Returned buf None
  | m :: rest =>
      let buf := if bool_decide (0 < i) then buf +:+ "; " else buf in
      let buf := buf +:+ types.func_name m in
      call (buf, err) ← writeSignature rec buf pkg (types.func_type m) visited;
      check buf err (writeMethods rec pkg visited rest (S i))
  end.

(** [t.Embedded(i)], for the embedded type [e]: a [*types.Named], which is
    [e] when [e] is a defined type and the nil pointer when it is not.  The
    code hands the result to [writeType] as it is.  A nil pointer is not
    found on [visited], since the call on one never gets as far as a call of
    its own and so is never on the path; it comes to the arm of
    [*types.Named], where [t.Obj()] dereferences it, in [isImported] or in
    the arm itself.  [k] is what is done with a defined type. *)
Definition Embedded (e : types.Type_) (k : types.Type_ → outcome) : outcome :=
  match e with
  | None => Panicked nil_dereference
  | Some a =>
      load a (λ n,
        match n with
        | types.Named _ _ _ => k e
        | _ => Panicked nil_dereference
        end)
  end.

(** The loop over the embedded types of an interface (lines 144-151);
    [nmethods] is the value of [t.NumMethods()]. *)
Fixpoint writeEmbeddeds (rec : writer) (pkg : option types.Package)
    (visited : list types.Type_) (nmethods : nat)
    (embeddeds : list types.Type_) (i : nat) (buf : string) : outcome :=
  match embeddeds with
  | [] => Returned buf None
  | e :: rest =>
      let buf :=
        if bool_decide (0 < i) || bool_decide (0 < nmethods)
        then buf +:+ "; " else buf in
      Embedded e (λ named,
        call (buf, err) ← rec buf pkg named visited;
        check buf err (writeEmbeddeds rec pkg visited nmethods rest (S i)))
  end.

(** The arm for [*types.Chan] (lines 163-190). *)
Definition chan_prefix (dir : types.ChanDir) : string :=
  match dir with
  | types.SendRecv => "chan "
  | types.SendOnly => "chan<- "
  | types.RecvOnly => "<-chan "
  end.

Definition chan_parens (dir : types.ChanDir) (elem : types.Type_) : bool :=
  match dir with
  | types.SendRecv =>
      match elem ≫= (heap !!.) with
      | Some (types.Chan types.RecvOnly _) => true
      | _ => false
      end
  | _ => false
  end.

Fixpoint writeType (fuel : nat) (buf : string) (pkg : option types.Package)
    (typ : types.Type_) (visited : list types.Type_) : outcome :=
  match fuel with
  | 0 => OutOfFuel
  | S fuel =>
      if existsb (λ t, same_type t typ) visited then
        match cycle_marker typ with
        | Some s => Returned (buf +:+ s) None
        | None => Dangling
        end
      else
        let visited := visited ++ [typ] in
        let rec := writeType fuel in
        match typ with
        | None => Returned (buf +:+ "nil") None
        | Some a =>
            load a (λ t,
              match t with
              | types.Basic kind name =>
                  if bool_decide (kind = types.Invalid)
                  then Returned buf (Some "TODO")
                  else
                    let buf :=
                      if bool_decide (kind = types.UnsafePointer)
                      then buf +:+ "unsafe." else buf in
                    Returned (buf +:+ name) None
              | types.Array len elem =>
                  rec (buf +:+ "[" +:+ pretty len +:+ "]") pkg elem visited
              | types.Slice elem => rec (buf +:+ "[]") pkg elem visited
              | types.Struct fields =>
                  call (buf, err) ←
                    writeFields rec pkg visited fields 0 (buf +:+ "struct{");
                  check buf err (λ buf, Returned (buf +:+ "}") None)
              | types.Pointer elem => rec (buf +:+ "*") pkg elem visited
              | types.TupleT vars =>
                  writeTuple rec buf pkg (Some vars) false visited
              | types.SignatureT sig =>
                  writeSignature rec (buf +:+ "func") pkg sig visited
              | types.Interface methods embeddeds =>
                  call (buf, err) ←
                    writeMethods rec pkg visited methods 0
                      (buf +:+ "interface{");
                  check buf err (λ buf,
                    call (buf, err) ←
                      writeEmbeddeds rec pkg visited (length methods)
                        embeddeds 0 buf;
                    check buf err (λ buf, Returned (buf +:+ "}") None))
              | types.Map key elem =>
                  call (buf, err) ← rec (buf +:+ "map[") pkg key visited;
                  check buf err (λ buf, rec (buf +:+ "]") pkg elem visited)
              | types.Chan dir elem =>
                  let s := chan_prefix dir in
                  let parens := chan_parens dir elem in
                  let buf := buf +:+ s in
                  let buf := if parens then buf +:+ "(" else buf in
                  call (buf, err) ← rec buf pkg elem visited;
                  check buf err (λ buf,
                    let buf := if parens then buf +:+ ")" else buf in
                    Returned buf None)
              | types.Named owner name _ =>
                  match owner with
                  | Some p =>
                      if isImported pkg owner
                      then Returned (buf +:+ types.pkg_name p +:+ "." +:+ name)
                             None
                      else Returned (buf +:+ name) None
                  | None => Returned (buf +:+ name) None
                  end
              | types.External _ str _ => Returned (buf +:+ str) None
              end)
        end
  end.

(** [typeString]: the fuel is one more than the number of nodes, which is
    enough for every graph ([writeType_finishes] below). *)
Definition typeString (pkg : option types.Package) (typ : types.Type_)
    : outcome :=
  writeType (S (size heap)) "" pkg typ [].

End Renderer.

(** ** Notions used in the statements *)

(** [rec], called on [visited], leaves the buffer it was given in front of
    what it writes. *)
Definition appends (pkg : option types.Package) (visited : list types.Type_)
    (rec : writer) : Prop :=
  ∀ buf typ, rec buf pkg typ visited = prepend buf (rec "" pkg typ visited).

(** The types a node refers to. *)
Definition tuple_refs (tup : option types.Tuple) : list types.Type_ :=
  types.var_type <$> default [] tup.

Definition sig_refs (sig : types.Signature) : list types.Type_ :=
  tuple_refs (types.sig_params sig) ++ tuple_refs (types.sig_results sig).

Definition refs (n : types.Node) : list types.Type_ :=
  match n with
  | types.Basic _ _ => []
  | types.Array _ elem => [elem]
  | types.Slice elem => [elem]
  | types.Struct fields => types.field_type <$> fields
  | types.Pointer elem => [elem]
  | types.TupleT vars => tuple_refs (Some vars)
  | types.SignatureT sig => sig_refs sig
  | types.Interface methods embeddeds =>
      (methods ≫= sig_refs ∘ types.func_type) ++ embeddeds
  | types.Map key elem => [key; elem]
  | types.Chan _ elem => [elem]
  | types.Named _ _ u => [u]
  | types.External _ _ u => [u]
  end.

(** A value of [types.Type] as Go has them: nil or a pointer to a node. *)
Definition known (heap : Heap) (typ : types.Type_) : Prop :=
  match typ with
  | None => True
  | Some a => is_Some (heap !! a)
  end.

#[global] Instance known_dec (heap : Heap) (typ : types.Type_) :
  Decision (known heap typ).
Proof. destruct typ; apply _. Defined.

(** A heap whose nodes refer to nodes of the heap. *)
Definition closed (heap : Heap) : Prop :=
  ∀ a n, heap !! a = Some n → Forall (known heap) (refs n).

(** The types the renderer goes on to from a node: those of [refs] but for
    the underlying type, which it only looks at. *)
Definition children (n : types.Node) : list types.Type_ :=
  match n with
  | types.Named _ _ _ => []
  | types.External _ _ _ => []
  | _ => refs n
  end.

(** The node holds a variadic signature, its own or that of a method. *)
Definition variadic_in (n : types.Node) : bool :=
  match n with
  | types.SignatureT sig => types.sig_variadic sig
  | types.Interface methods _ =>
      existsb (types.sig_variadic ∘ types.func_type) methods
  | _ => false
  end.

(** [e] is a defined type of the heap: [t.Embedded(i)] is not nil for it. *)
Definition defined (heap : Heap) (e : types.Type_) : bool :=
  match e ≫= (heap !!.) with
  | Some (types.Named _ _ _) => true
  | _ => false
  end.

(** The node is an interface that embeds a type that is not a defined
    type. *)
Definition embeds_undefined (heap : Heap) (n : types.Node) : bool :=
  match n with
  | types.Interface _ embeddeds => negb (forallb (defined heap) embeddeds)
  | _ => false
  end.

(** [typ] is reached from [root] by going from a node to its children. *)
Inductive reaches (heap : Heap) (root : types.Type_) : types.Type_ → Prop :=
| reaches_root : reaches heap root root
| reaches_child (a : types.addr) (n : types.Node) (typ : types.Type_) :
    reaches heap root (Some a) → heap !! a = Some n → typ ∈ children n →
    reaches heap root typ.

(** The relation holds of the two panics of [writeTuple]. *)
Definition may_panic (R : outcome → outcome → Prop) : Prop :=
  R (Panicked string_type_expected) (Panicked string_type_expected)
  ∧ R (Panicked nil_dereference) (Panicked nil_dereference).

(** The nodes of the heap that are not on the path [visited]. *)
Definition unvisited (heap : Heap) (visited : list types.Type_)
    : gset types.addr :=
  dom heap ∖ list_to_set (omap id visited).

(** [r2] is the outcome [r1], unless the run of [r1] ran out of fuel. *)
Definition refines (r1 r2 : outcome) : Prop := r1 ≠ OutOfFuel → r2 = r1.

(** What the loops write around the text of a type. *)

(** The name of a tuple element, when it has one (lines 215-218). *)
Definition var_label (v : types.Var) : string :=
  if bool_decide (types.var_name v ≠ "") then types.var_name v +:+ " " else "".

(** The separator before an element that follows the elements [before]. *)
Definition separator {A : Type} (before : list A) (sep : string) : string :=
  match before with [] => "" | _ => sep end.

(** A field whose type renders as [s] (lines 92-104). *)
Definition field_text (quote : string → string) (f : types.Field)
    (s : string) : string :=
  (if types.field_anonymous f then "" else types.field_name f +:+ " ") +:+
  s +:+
  (if bool_decide (types.field_tag f ≠ "")
   then " " +:+ quote (types.field_tag f) else "").

(** Two scopes are the same when they are the same package object, or both
    absent. *)
Definition same_scope (p q : option types.Package) : Prop :=
  types.pkg_addr <$> p = types.pkg_addr <$> q.

#[global] Instance same_scope_dec (p q : option types.Package) :
  Decision (same_scope p q).
Proof. unfold same_scope. apply _. Defined.

(** The underlying type of [typ] is the basic type of kind [String]. *)
Definition is_string_basic (n : types.Node) : bool :=
  match n with
  | types.Basic kind _ => bool_decide (kind = types.String)
  | _ => false
  end.

(** ** A call as a list of steps

    What a call of [writeType] does on a node, once the node is known: the
    writes to the buffer and the calls of [writeType], in the order of the
    code, with the loops over the fields, the tuple elements, the methods
    and the embedded types unrolled.  [writeType_program] shows that a call
    on a node that is not on [visited] runs the steps of the node, its calls
    being given [visited] with the node added.  The list makes it possible
    to speak of the calls a run comes to, and of the buffer each of them is
    given. *)

Inductive step :=
| Write (s : string)
    (** [buf.WriteString(s)], [buf.WriteByte] and [fmt.Fprintf] *)
| Call (checked : bool) (typ : types.Type_)
    (** a call of [writeType] on [typ]; [checked] when its error is returned
        to the caller, by [return writeType(...)] or by
        [if err != nil { return err }], and not when it is dropped *)
| Fail (e : string)
    (** [return errors.New(e)] *)
| Panic (msg : string)
| Missing.
    (** a pointer that the heap has no node for *)

Fixpoint exec (rec : writer) (pkg : option types.Package)
    (visited : list types.Type_) (steps : list step) (buf : string)
    : outcome :=
  match steps with
  | [] => Returned buf None
  | Write s :: rest => exec rec pkg visited rest (buf +:+ s)
  | Call checked typ :: rest =>
      call (buf, err) ← rec buf pkg typ visited;
      if checked then check buf err (exec rec pkg visited rest)
      else exec rec pkg visited rest buf
  | Fail e :: _ => Returned buf (Some e)
  | Panic msg :: _ => Panicked msg
  | Missing :: _ => Dangling
  end.

Definition write_if (c : bool) (s : string) : list step :=
  if c then [Write s] else [].

Section Program.

Variable quote : string → string.
Variable heap : Heap.
Variable pkg : option types.Package.

(** The last element of a variadic tuple (lines 220-235).  A slice is not
    handed to [writeType]: the token is written and the call is made on its
    element. *)
Definition variadic_steps (typ : types.Type_) : list step :=
  match typ with
  | None => [Panic nil_dereference]
  | Some a =>
      match heap !! a with
      | None => [Missing]
      | Some (types.Slice elem) => [Write "..."; Call false elem]
      | Some n =>
          match Underlying n typ with
          | None => [Panic string_type_expected]
          | Some u =>
              match heap !! u with
              | None => [Missing]
              | Some t =>
                  if is_string_basic t then [Call false typ; Write "..."]
                  else [Panic string_type_expected]
              end
          end
      end
  end.

Fixpoint vars_steps (len : nat) (variadic : bool) (vars : list types.Var)
    (i : nat) : list step :=
  match vars with
  | [] => []
  | v :: rest =>
      write_if (bool_decide (0 < i)) ", " ++
      write_if (bool_decide (types.var_name v ≠ ""))
        (types.var_name v +:+ " ") ++
      (if variadic && bool_decide (i = len - 1)
       then variadic_steps (types.var_type v)
       else [Call false (types.var_type v)]) ++
      vars_steps len variadic rest (S i)
  end.

Definition tuple_steps (tup : option types.Tuple) (variadic : bool)
    : list step :=
  Write "(" ::
  match tup with
  | Some vars => vars_steps (length vars) variadic vars 0
  | None => []
  end ++ [Write ")"].

Definition signature_steps (sig : types.Signature) : list step :=
  tuple_steps (types.sig_params sig) (types.sig_variadic sig) ++
  if bool_decide (types.Tuple_Len (types.sig_results sig) = 0) then []
  else
    Write " " ::
    match types.sig_results sig with
    | Some [v] =>
        if bool_decide (types.var_name v = "")
        then [Call true (types.var_type v)]
        else tuple_steps (types.sig_results sig) false
    | _ => tuple_steps (types.sig_results sig) false
    end.

Fixpoint fields_steps (fields : list types.Field) (i : nat) : list step :=
  match fields with
  | [] => []
  | f :: rest =>
      write_if (bool_decide (0 < i)) "; " ++
      write_if (negb (types.field_anonymous f)) (types.field_name f +:+ " ") ++
      [Call true (types.field_type f)] ++
      write_if (bool_decide (types.field_tag f ≠ ""))
        (" " +:+ quote (types.field_tag f)) ++
      fields_steps rest (S i)
  end.

Fixpoint methods_steps (methods : list types.Func) (i : nat) : list step :=
  match methods with
  | [] => []
  | m :: rest =>
      write_if (bool_decide (0 < i)) "; " ++
      [Write (types.func_name m)] ++
      signature_steps (types.func_type m) ++
      methods_steps rest (S i)
  end.

(** An embedded type that is not a defined type ends the run: the call is
    made on a nil pointer ([Embedded]). *)
Definition embedded_steps (e : types.Type_) : list step :=
  match e with
  | None => [Panic nil_dereference]
  | Some a =>
      match heap !! a with
      | None => [Missing]
      | Some (types.Named _ _ _) => [Call true e]
      | Some _ => [Panic nil_dereference]
      end
  end.

Fixpoint embeddeds_steps (nmethods : nat) (embeddeds : list types.Type_)
    (i : nat) : list step :=
  match embeddeds with
  | [] => []
  | e :: rest =>
      write_if (bool_decide (0 < i) || bool_decide (0 < nmethods)) "; " ++
      embedded_steps e ++
      embeddeds_steps nmethods rest (S i)
  end.

(** The steps of the arm of [writeType] for the node [n]. *)
Definition program (n : types.Node) : list step :=
  match n with
  | types.Basic kind name =>
      if bool_decide (kind = types.Invalid) then [Fail "TODO"]
      else
        write_if (bool_decide (kind = types.UnsafePointer)) "unsafe." ++
        [Write name]
  | types.Array len elem =>
      [Write ("[" +:+ pretty len +:+ "]"); Call true elem]
  | types.Slice elem => [Write "[]"; Call true elem]
  | types.Struct fields =>
      Write "struct{" :: fields_steps fields 0 ++ [Write "}"]
  | types.Pointer elem => [Write "*"; Call true elem]
  | types.TupleT vars => tuple_steps (Some vars) false
  | types.SignatureT sig => Write "func" :: signature_steps sig
  | types.Interface methods embeddeds =>
      Write "interface{" ::
      methods_steps methods 0 ++
      embeddeds_steps (length methods) embeddeds 0 ++ [Write "}"]
  | types.Map key elem =>
      [Write "map["; Call true key; Write "]"; Call true elem]
  | types.Chan dir elem =>
      Write (chan_prefix dir) ::
      write_if (chan_parens heap dir elem) "(" ++
      [Call true elem] ++
      write_if (chan_parens heap dir elem) ")"
  | types.Named owner name _ =>
      match owner with
      | Some p =>
          if isImported pkg owner
          then [Write (types.pkg_name p +:+ "." +:+ name)]
          else [Write name]
      | None => [Write name]
      end
  | types.External _ str _ => [Write str]
  end.

End Program.

(** ** The calls of a run

    [comes_to quote heap pkg fuel buf typ visited handed fuel' buf' typ'
    visited']: the run of the call of [writeType] on [buf], [typ] and
    [visited] comes to the call on [buf'], [typ'] and [visited'].  The call
    on a node that is not on [visited] comes to each call of its steps that
    the steps before it lead to, which they do when they run to their end.  So
    [visited'] is the path from the first call down to the call on [typ'],
    and [buf'] what has been written when that call is made.  [handed] says
    that every call on the way is one whose error the caller returns. *)
Inductive comes_to (quote : string → string) (heap : Heap)
    (pkg : option types.Package) :
    nat → string → types.Type_ → list types.Type_ → bool →
    nat → string → types.Type_ → list types.Type_ → Prop :=
| comes_here fuel buf typ visited :
    comes_to quote heap pkg fuel buf typ visited true fuel buf typ visited
| comes_below fuel buf a n visited before checked c after buf' handed
    fuel' b t vis :
    Some a ∉ visited →
    heap !! a = Some n →
    program quote heap pkg n = before ++ Call checked c :: after →
    exec (writeType quote heap fuel) pkg (visited ++ [Some a]) before buf =
      Returned buf' None →
    comes_to quote heap pkg fuel buf' c (visited ++ [Some a]) handed
      fuel' b t vis →
    comes_to quote heap pkg (S fuel) buf (Some a) visited (checked && handed)
      fuel' b t vis.

(** The step returns an error of its own. *)
Definition fails (st : step) : bool :=
  match st with Fail _ => true | _ => false end.

(** The types of a path are nodes of the heap. *)
Definition on_heap (heap : Heap) (visited : list types.Type_) : Prop :=
  Forall (λ t, ∃ a, t = Some a ∧ is_Some (heap !! a)) visited.

(** ** The renderer with [visited] as a Go slice

    In the code [visited] is a slice: a pointer to a backing array, a length
    and the capacity of the array.  [append] writes into the backing array
    when the capacity allows, so the callees of a call share its array and
    overwrite the slots past its length; when the array is full [append]
    moves the slice to a new array.  The renderer below keeps the memory of
    the backing arrays and threads it through every call.  [writeType] above
    passes the list of the visible elements instead; [writeType_sl_agrees]
    shows that both return the same. *)

(** The memory of the backing arrays. *)
Abbreviation Store := (gmap nat (list types.Type_)).

(** A slice header; its capacity is the length of the array it points to. *)
Record Slice := { sl_ptr : nat; sl_len : nat }.

(** The array behind a slice; the nil slice has none. *)
Definition backing (σ : Store) (sl : Slice) : list types.Type_ :=
  default [] (σ !! sl_ptr sl).

(** The elements [for _, t := range visited] goes through. *)
Definition visible (σ : Store) (sl : Slice) : list types.Type_ :=
  take (sl_len sl) (backing σ sl).

(** [make([]types.Type, 0, 8)] in an empty memory. *)
Definition make_visited : Store * Slice :=
  ({[ 0 := replicate 8 None ]}, {| sl_ptr := 0; sl_len := 0 |}).

Definition bind_sl (x : Store * outcome)
    (k : Store → string → option string → Store * outcome)
    : Store * outcome :=
  match x with
  | (σ, Returned buf err) => k σ buf err
  | _ => x
  end.

Definition check_sl (σ : Store) (buf : string) (err : option string)
    (k : Store → string → Store * outcome) : Store * outcome :=
  match err with
  | Some e => (σ, Returned buf (Some e))
  | None => k σ buf
  end.

(** The signature of [writeType_sl] once the fuel is fixed. *)
Definition writer_sl :=
  Store → string → option types.Package → types.Type_ → Slice →
  Store * outcome.

Section Slices.

Variable quote : string → string.
Variable heap : Heap.

(** The capacity [append] gives the new array of a slice that is full. *)
Variable grow : nat → nat.

(** [append(visited, typ)]. *)
Definition append_sl (σ : Store) (sl : Slice) (typ : types.Type_)
    : Store * Slice :=
  let arr := backing σ sl in
  if bool_decide (sl_len sl < length arr) then
    (<[sl_ptr sl := <[sl_len sl := typ]> arr]> σ,
     {| sl_ptr := sl_ptr sl; sl_len := S (sl_len sl) |})
  else
    let p := fresh (dom σ) in
    (<[p := take (sl_len sl) arr ++
            typ :: replicate (grow (length arr) - S (sl_len sl)) None]> σ,
     {| sl_ptr := p; sl_len := S (sl_len sl) |}).

Definition writeVariadic_sl (rec : writer_sl) (σ : Store) (buf : string)
    (pkg : option types.Package) (typ : types.Type_) (visited : Slice)
    (continue : Store → string → Store * outcome) : Store * outcome :=
  match typ with
  | None => (σ, Panicked nil_dereference)
  | Some a =>
      match heap !! a with
      | None => (σ, Dangling)
      | Some (types.Slice elem) =>
          bind_sl (rec σ (buf +:+ "...") pkg elem visited)
            (λ σ buf _, continue σ buf)
      | Some n =>
          match Underlying n typ with
          | None => (σ, Panicked string_type_expected)
          | Some u =>
              match heap !! u with
              | None => (σ, Dangling)
              | Some (types.Basic kind _) =>
                  if bool_decide (kind = types.String) then
                    bind_sl (rec σ buf pkg typ visited)
                      (λ σ buf _, continue σ (buf +:+ "..."))
                  else (σ, Panicked string_type_expected)
              | Some _ => (σ, Panicked string_type_expected)
              end
          end
      end
  end.

Fixpoint writeTuple_loop_sl (rec : writer_sl) (pkg : option types.Package)
    (len : nat) (variadic : bool) (visited : Slice)
    (vars : list types.Var) (i : nat) (σ : Store) (buf : string)
    : Store * outcome :=
  match vars with
  | [] => (σ, Returned buf None)
  | v :: rest =>
      let buf := if bool_decide (0 < i) then buf +:+ ", " else buf in
      let buf :=
        if bool_decide (types.var_name v ≠ "")
        then buf +:+ types.var_name v +:+ " " else buf in
      let typ := types.var_type v in
      let continue :=
        writeTuple_loop_sl rec pkg len variadic visited rest (S i) in
      if variadic && bool_decide (i = len - 1) then
        writeVariadic_sl rec σ buf pkg typ visited continue
      else
        bind_sl (rec σ buf pkg typ visited) (λ σ buf _, continue σ buf)
  end.

Definition writeTuple_sl (rec : writer_sl) (σ : Store) (buf : string)
    (pkg : option types.Package) (tup : option types.Tuple)
    (variadic : bool) (visited : Slice) : Store * outcome :=
  let buf := buf +:+ "(" in
  bind_sl
    match tup with
    | Some vars =>
        writeTuple_loop_sl rec pkg (length vars) variadic visited vars 0 σ buf
    | None => (σ, Returned buf None)
    end
    (λ σ buf _, (σ, Returned (buf +:+ ")") None)).

Definition writeSignature_sl (rec : writer_sl) (σ : Store) (buf : string)
    (pkg : option types.Package) (sig : types.Signature) (visited : Slice)
    : Store * outcome :=
  bind_sl
    (writeTuple_sl rec σ buf pkg (types.sig_params sig)
       (types.sig_variadic sig) visited)
    (λ σ buf _,
       let n := types.Tuple_Len (types.sig_results sig) in
       if bool_decide (n = 0) then (σ, Returned buf None)
       else
         let buf := buf +:+ " " in
         match types.sig_results sig with
         | Some [v] =>
             if bool_decide (types.var_name v = "")
             then rec σ buf pkg (types.var_type v) visited
             else writeTuple_sl rec σ buf pkg (types.sig_results sig) false
                    visited
         | _ =>
             writeTuple_sl rec σ buf pkg (types.sig_results sig) false visited
         end).

Fixpoint writeFields_sl (rec : writer_sl) (pkg : option types.Package)
    (visited : Slice) (fields : list types.Field) (i : nat) (σ : Store)
    (buf : string) : Store * outcome :=
  match fields with
  | [] => (σ, Returned buf None)
  | f :: rest =>
      let buf := if bool_decide (0 < i) then buf +:+ "; " else buf in
      let buf :=
        if negb (types.field_anonymous f)
        then buf +:+ types.field_name f +:+ " " else buf in
      bind_sl (rec σ buf pkg (types.field_type f) visited) (λ σ buf err,
        check_sl σ buf err (λ σ buf,
          let buf :=
            if bool_decide (types.field_tag f ≠ "")
            then buf +:+ " " +:+ quote (types.field_tag f) else buf in
          writeFields_sl rec pkg visited rest (S i) σ buf))
  end.

Fixpoint writeMethods_sl (rec : writer_sl) (pkg : option types.Package)
    (visited : Slice) (methods : list types.Func) (i : nat) (σ : Store)
    (buf : string) : Store * outcome :=
  match methods with
  | [] => (σ, Returned buf None)
  | m :: rest =>
      let buf := if bool_decide (0 < i) then buf +:+ "; " else buf in
      let buf := buf +:+ types.func_name m in
      bind_sl (writeSignature_sl rec σ buf pkg (types.func_type m) visited)
        (λ σ buf err,
           check_sl σ buf err (writeMethods_sl rec pkg visited rest (S i)))
  end.

(** The call on the nil pointer that [t.Embedded(i)] returns for a type that
    is not a defined type appends it to [visited] before it panics; nothing
    reads the memory after a panic, and it is left as it was here. *)
Fixpoint writeEmbeddeds_sl (rec : writer_sl) (pkg : option types.Package)
    (visited : Slice) (nmethods : nat) (embeddeds : list types.Type_)
    (i : nat) (σ : Store) (buf : string) : Store * outcome :=
  match embeddeds with
  | [] => (σ, Returned buf None)
  | e :: rest =>
      let buf :=
        if bool_decide (0 < i) || bool_decide (0 < nmethods)
        then buf +:+ "; " else buf in
      match e with
      | None => (σ, Panicked nil_dereference)
      | Some a =>
          match heap !! a with
          | None => (σ, Dangling)
          | Some (types.Named _ _ _) =>
              bind_sl (rec σ buf pkg e visited) (λ σ buf err,
                check_sl σ buf err
                  (writeEmbeddeds_sl rec pkg visited nmethods rest (S i)))
          | Some _ => (σ, Panicked nil_dereference)
          end
      end
  end.

Fixpoint writeType_sl (fuel : nat) (σ : Store) (buf : string)
    (pkg : option types.Package) (typ : types.Type_) (visited : Slice)
    : Store * outcome :=
  match fuel with
  | 0 => (σ, OutOfFuel)
  | S fuel =>
      if existsb (λ t, same_type t typ) (visible σ visited) then
        match cycle_marker heap typ with
        | Some s => (σ, Returned (buf +:+ s) None)
        | None => (σ, Dangling)
        end
      else
        let '(σ, visited) := append_sl σ visited typ in
        let rec := writeType_sl fuel in
        match typ with
        | None => (σ, Returned (buf +:+ "nil") None)
        | Some a =>
            match heap !! a with
            | None => (σ, Dangling)
            | Some (types.Basic kind name) =>
                if bool_decide (kind = types.Invalid)
                then (σ, Returned buf (Some "TODO"))
                else
                  let buf :=
                    if bool_decide (kind = types.UnsafePointer)
                    then buf +:+ "unsafe." else buf in
                  (σ, Returned (buf +:+ name) None)
            | Some (types.Array len elem) =>
                rec σ (buf +:+ "[" +:+ pretty len +:+ "]") pkg elem visited
            | Some (types.Slice elem) =>
                rec σ (buf +:+ "[]") pkg elem visited
            | Some (types.Struct fields) =>
                bind_sl
                  (writeFields_sl rec pkg visited fields 0 σ
                     (buf +:+ "struct{"))
                  (λ σ buf err,
                     check_sl σ buf err (λ σ buf,
                       (σ, Returned (buf +:+ "}") None)))
            | Some (types.Pointer elem) =>
                rec σ (buf +:+ "*") pkg elem visited
            | Some (types.TupleT vars) =>
                writeTuple_sl rec σ buf pkg (Some vars) false visited
            | Some (types.SignatureT sig) =>
                writeSignature_sl rec σ (buf +:+ "func") pkg sig visited
            | Some (types.Interface methods embeddeds) =>
                bind_sl
                  (writeMethods_sl rec pkg visited methods 0 σ
                     (buf +:+ "interface{"))
                  (λ σ buf err,
                     check_sl σ buf err (λ σ buf,
                       bind_sl
                         (writeEmbeddeds_sl rec pkg visited (length methods)
                            embeddeds 0 σ buf)
                         (λ σ buf err,
                            check_sl σ buf err (λ σ buf,
                              (σ, Returned (buf +:+ "}") None)))))
            | Some (types.Map key elem) =>
                bind_sl (rec σ (buf +:+ "map[") pkg key visited)
                  (λ σ buf err,
                     check_sl σ buf err (λ σ buf,
                       rec σ (buf +:+ "]") pkg elem visited))
            | Some (types.Chan dir elem) =>
                let s := chan_prefix dir in
                let parens := chan_parens heap dir elem in
                let buf := buf +:+ s in
                let buf := if parens then buf +:+ "(" else buf in
                bind_sl (rec σ buf pkg elem visited) (λ σ buf err,
                  check_sl σ buf err (λ σ buf,
                    let buf := if parens then buf +:+ ")" else buf in
                    (σ, Returned buf None)))
            | Some (types.Named owner name _) =>
                match owner with
                | Some p =>
                    if isImported pkg owner
                    then (σ, Returned
                               (buf +:+ types.pkg_name p +:+ "." +:+ name)
                               None)
                    else (σ, Returned (buf +:+ name) None)
                | None => (σ, Returned (buf +:+ name) None)
                end
            | Some (types.External _ str _) =>
                (σ, Returned (buf +:+ str) None)
            end
        end
  end.

(** [typeString] as the code runs it: a new array of capacity 8 for
    [visited], and what the call returns. *)
Definition typeString_sl (pkg : option types.Package) (typ : types.Type_)
    : outcome :=
  let '(σ, visited) := make_visited in
  (writeType_sl (S (size heap)) σ "" pkg typ visited).2.

End Slices.

(** The slice points to an array that holds its elements. *)
Definition slice_ok (σ : Store) (sl : Slice) : Prop :=
  sl_len sl ≤ length (backing σ sl).

(** What a call may do to the memory [σ] it is given, when its [visited]
    is [sl]: every array stays, with its length; the array of [sl] keeps its
    visible elements and every other array all of its elements. *)
Definition preserves (sl : Slice) (σ σ' : Store) : Prop :=
  ∀ p arr, σ !! p = Some arr →
    ∃ arr', σ' !! p = Some arr' ∧ length arr' = length arr
            ∧ if bool_decide (p = sl_ptr sl)
              then take (sl_len sl) arr' = take (sl_len sl) arr
              else arr' = arr.

(** The call [x] on the memory [σ] returns what the list renderer returns
    and respects the slice [sl]. *)
Definition agrees (sl : Slice) (σ : Store) (x : Store * outcome)
    (r : outcome) : Prop :=
  x.2 = r ∧ preserves sl σ x.1.

(** ** Sample graphs *)

Module strconv.

Local Open Scope N_scope.

Definition dquote : string := String (ascii_of_nat 34) "".

(** [lowerhex[n]]. *)
Definition hex_digit (n : N) : string :=
  String.substring (N.to_nat n) 1 "0123456789abcdef".

(** The [digits] hexadecimal digits of [r], the highest first. *)
Fixpoint hex_digits (digits : nat) (r : N) : string :=
  match digits with
  | O => ""
  | S d =>
      hex_digit (N.land (N.shiftr r (4 * N.of_nat d)) 15) +:+ hex_digits d r
  end.

(** [strconv.IsPrint]: the test on Latin-1 that its code spells out, and
    above Latin-1 the tables of package strconv, which are a parameter
    here. *)
Definition IsPrint (table : N → bool) (r : N) : bool :=
  if bool_decide (r ≤ 255) then
    bool_decide (32 ≤ r ≤ 126)
    || (bool_decide (161 ≤ r ≤ 255) && bool_decide (r ≠ 173))
  else table r.

(** A byte below 128, as [appendEscapedRune] writes it between double
    quotes. *)
Definition quote_byte (c : ascii) : string :=
  let n := N_of_ascii c in
  if bool_decide (n = 34) then "\" +:+ dquote
  else if bool_decide (n = 92) then "\\"
  else if bool_decide (32 ≤ n ≤ 126) then String c ""
  else if bool_decide (n = 7) then "\a"
  else if bool_decide (n = 8) then "\b"
  else if bool_decide (n = 12) then "\f"
  else if bool_decide (n = 10) then "\n"
  else if bool_decide (n = 13) then "\r"
  else if bool_decide (n = 9) then "\t"
  else if bool_decide (n = 11) then "\v"
  else "\x" +:+ hex_digits 2 n.

(** The low six bits of the byte of [s] at index [i], when that byte is
    between [lo] and [hi]. *)
Definition continuation (lo hi : N) (i : nat) (s : string) : option N :=
  match String.get i s with
  | Some c =>
      let n := N_of_ascii c in
      if bool_decide (lo ≤ n ≤ hi) then Some (n mod 64) else None
  | None => None
  end.

(** [utf8.DecodeRuneInString] on a string whose first byte [s0] is 128 or
    more and whose other bytes are [rest]: the rune and its width, and
    [None] where the code answers [(RuneError, 1)]. *)
Definition DecodeRune (s0 : N) (rest : string) : option (N * nat) :=
  if bool_decide (194 ≤ s0 ≤ 223) then
    c1 ← continuation 128 191 0 rest;
    Some ((s0 mod 32) * 64 + c1, 2%nat)
  else if bool_decide (224 ≤ s0 ≤ 239) then
    c1 ← continuation (if bool_decide (s0 = 224) then 160 else 128)
           (if bool_decide (s0 = 237) then 159 else 191) 0 rest;
    c2 ← continuation 128 191 1 rest;
    Some ((s0 mod 16) * 4096 + c1 * 64 + c2, 3%nat)
  else if bool_decide (240 ≤ s0 ≤ 244) then
    c1 ← continuation (if bool_decide (s0 = 240) then 144 else 128)
           (if bool_decide (s0 = 244) then 143 else 191) 0 rest;
    c2 ← continuation 128 191 1 rest;
    c3 ← continuation 128 191 2 rest;
    Some ((s0 mod 8) * 262144 + c1 * 4096 + c2 * 64 + c3, 4%nat)
  else None.

(** The loop of [appendQuotedWith]; [skip] counts the bytes of [s] that
    belong to the rune before.  A rune that is printed is written with the
    bytes that were read for it: only shortest encodings are decoded. *)
Fixpoint quote_bytes (table : N → bool) (skip : nat) (s : string) : string :=
  match s with
  | EmptyString => ""
  | String c rest =>
      match skip with
      | S skip => quote_bytes table skip rest
      | O =>
          let n := N_of_ascii c in
          if bool_decide (n < 128)
          then quote_byte c +:+ quote_bytes table 0 rest
          else
            match DecodeRune n rest with
            | None => "\x" +:+ hex_digits 2 n +:+ quote_bytes table 0 rest
            | Some (r, width) =>
                (if IsPrint table r
                 then String c (String.substring 0 (width - 1) rest)
                 else if bool_decide (r < 65536)
                      then "\u" +:+ hex_digits 4 r
                      else "\U" +:+ hex_digits 8 r) +:+
                quote_bytes table (width - 1) rest
            end
      end
  end.

(** [strconv.Quote], which is what the verb [%q] writes for a string. *)
Definition Quote (table : N → bool) (s : string) : string :=
  dquote +:+ quote_bytes table 0 s +:+ dquote.

(** Every byte of the string is below 128. *)
Fixpoint is_ascii (s : string) : bool :=
  match s with
  | EmptyString => true
  | String c rest => bool_decide (N_of_ascii c < 128) && is_ascii rest
  end.

End strconv.

Module sample.

Definition pkg_main : types.Package :=
  {| types.pkg_addr := 1; types.pkg_name := "main" |}.
Definition pkg_io : types.Package :=
  {| types.pkg_addr := 2; types.pkg_name := "io" |}.
(** A second package that is also called [io]. *)
Definition pkg_io' : types.Package :=
  {| types.pkg_addr := 3; types.pkg_name := "io" |}.

Definition var (name : string) (a : types.addr) : types.Var :=
  {| types.var_name := name; types.var_type := Some a |}.

Definition field (name : string) (a : types.addr) (tag : string)
    : types.Field :=
  {| types.field_name := name; types.field_anonymous := false;
     types.field_type := Some a; types.field_tag := tag |}.

Definition signature (params : list types.Var) (variadic : bool)
    (results : list types.Var) : types.Node :=
  types.SignatureT
    {| types.sig_params := Some params; types.sig_variadic := variadic;
       types.sig_results := Some results |}.

Definition heap : Heap :=
  list_to_map
    [ (0, types.Basic types.Int "int");
      (1, types.Basic types.String "string");
      (2, types.Basic types.Bool "bool");
      (3, types.Basic types.Invalid "invalid type");
      (4, types.Named None "error" None);
      (5, types.Array 3 (Some 0));
      (6, types.Slice (Some 2));
      (7, types.Map (Some 1) (Some 6));
      (8, types.Chan types.RecvOnly (Some 0));
      (9, types.Chan types.SendRecv (Some 8));
      (10, types.Slice (Some 1));
      (11, signature [var "a" 0; var "b" 10] true [var "" 2; var "" 4]);
      (12, signature [var "" 0] false [var "" 2]);
      (13, types.Struct [field "X" 0 "json:x"]);
      (14, types.Pointer (Some 15));
      (15, types.Struct [field "next" 14 ""]);
      (16, signature [var "" 3] false []);
      (17, types.Pointer (Some 3));
      (18, signature [var "s" 1] true []);
      (19, signature [var "n" 0] true []);
      (20, types.Struct [field "X" 0 ""; field "Y" 3 ""]);
      (21, types.Named (Some pkg_io) "Reader" (Some 22));
      (22, types.Interface [] []);
      (23, types.Slice (Some 24));
      (24, types.Pointer (Some 25));
      (25, types.Struct [field "X" 0 ""]);
      (26, signature [var "b" 10] true []);
      (27, types.Struct [field "a" 24 ""; field "b" 24 ""]);
      (28, types.Chan types.SendRecv (Some 0)) ].

(** The verb [%q] on the tags of the sample graphs.  No tag in them holds a
    byte from 128 on, so the tables of [strconv.IsPrint] are never looked
    at ([Quote_ascii]); they are taken to hold every rune. *)
Definition quote : string → string := strconv.Quote (λ _, true).

Definition render (pkg : option types.Package) (a : types.addr) : outcome :=
  typeString quote heap pkg (Some a).

End sample.

(** A second graph, with interfaces and a signature whose only result is the
    invalid type.  The last interface embeds an interface type that has no
    name. *)
Module sample2.

Definition method (name : string) (params results : list types.Var)
    : types.Func :=
  {| types.func_name := name;
     types.func_type :=
       {| types.sig_params := Some params; types.sig_variadic := false;
          types.sig_results := Some results |} |}.

Definition heap : Heap :=
  list_to_map
    [ (0, types.Basic types.Int "int");
      (1, types.Basic types.String "string");
      (2, types.Basic types.Invalid "invalid type");
      (3, types.Named (Some sample.pkg_io) "Reader" None);
      (4, types.Interface
            [method "Len" [] [sample.var "" 0];
             method "Put" [sample.var "s" 1] []]
            [Some 3]);
      (5, sample.signature [sample.var "x" 0] false [sample.var "" 2]);
      (6, types.Interface [] [Some 3]);
      (7, types.Chan types.SendRecv (Some 8));
      (8, types.Chan types.RecvOnly (Some 2));
      (9, types.Map (Some 2) (Some 0));
      (10, types.Pointer (Some 11));
      (11, types.Interface [] [Some 3; Some 6]) ].

End sample2.

(** A third graph: a slice of functions whose variadic parameter is of the
    slice type itself. *)
Module cyclic.

Definition heap : Heap :=
  list_to_map
    [ (0, types.Slice (Some 1));
      (1, sample.signature [sample.var "x" 0] true []) ].

End cyclic.

(** * Properties *)

(** ** The buffer is only appended to *)

Lemma append_assoc (s1 s2 s3 : string) :
  (s1 +:+ s2) +:+ s3 = s1 +:+ s2 +:+ s3.
Proof.
  induction s1 as [|c s1 IH]; first done.
  change (String c ((s1 +:+ s2) +:+ s3) = String c (s1 +:+ s2 +:+ s3)).
  by rewrite IH.
Qed.

Lemma append_nil_r (s : string) : s +:+ "" = s.
Proof.
  induction s as [|c s IH]; first done.
  change (String c (s +:+ "") = String c s). by rewrite IH.
Qed.

Lemma append_nil_l (s : string) : "" +:+ s = s.
Proof. done. Qed.

Lemma append_eq_nil (s1 s2 : string) : s1 +:+ s2 = "" → s1 = "" ∧ s2 = "".
Proof. destruct s1; [done | discriminate]. Qed.

Lemma prepend_nil (r : outcome) : prepend "" r = r.
Proof. by destruct r. Qed.

Lemma prepend_prepend (a b : string) (r : outcome) :
  prepend a (prepend b r) = prepend (a +:+ b) r.
Proof. destruct r; simpl; by rewrite ?append_assoc. Qed.

Lemma prepend_bind (b : string) (r : outcome)
    (k k' : string → option string → outcome) :
  (∀ s e, k (b +:+ s) e = prepend b (k' s e)) →
  bind (prepend b r) k = prepend b (bind r k').
Proof. intros Hk. destruct r; simpl; auto. Qed.

Lemma prepend_check (b s : string) (e : option string)
    (k k' : string → outcome) :
  k (b +:+ s) = prepend b (k' s) →
  check (b +:+ s) e k = prepend b (check s e k').
Proof. intros Hk. destruct e; simpl; auto. Qed.

(** Case analysis on the conditional writes of a loop body. *)
Ltac split_writes :=
  repeat match goal with
    | |- context [if negb ?c then _ else _] => destruct c; simpl negb
    | |- context [if bool_decide ?P then _ +:+ _ else _] =>
        destruct (bool_decide P)
    | |- context [if ?a || ?b then _ +:+ _ else _] => destruct (a || b)
    end;
  rewrite ?append_assoc.

Section Appending.

Variable quote : string → string.
Variable heap : Heap.
Variable pkg : option types.Package.
Variable visited : list types.Type_.

Variable rec : writer.
Hypothesis rec_appends : appends pkg visited rec.

Lemma rec_appends_to (b s : string) (typ : types.Type_) :
  rec (b +:+ s) pkg typ visited = prepend b (rec s pkg typ visited).
Proof.
  rewrite (rec_appends (b +:+ s)) (rec_appends s).
  by rewrite prepend_prepend.
Qed.

Lemma writeVariadic_appends (b s : string) (typ : types.Type_)
    (k k' : string → outcome) :
  (∀ s, k (b +:+ s) = prepend b (k' s)) →
  writeVariadic heap rec (b +:+ s) pkg typ visited k =
  prepend b (writeVariadic heap rec s pkg typ visited k').
Proof.
  intros Hk. unfold writeVariadic, load.
  destruct typ as [a|]; last done.
  destruct (heap !! a) as [n|]; last done.
  assert (Hfallback :
    match Underlying n (Some a) with
    | Some u =>
        match heap !! u with
        | Some (types.Basic kind _) =>
            if bool_decide (kind = types.String)
            then call (buf, _) ← rec (b +:+ s) pkg (Some a) visited;
                 k (buf +:+ "...")
            else Panicked string_type_expected
        | Some _ => Panicked string_type_expected
        | None => Dangling
        end
    | None => Panicked string_type_expected
    end =
    prepend b
      match Underlying n (Some a) with
      | Some u =>
          match heap !! u with
          | Some (types.Basic kind _) =>
              if bool_decide (kind = types.String)
              then call (buf, _) ← rec s pkg (Some a) visited;
                   k' (buf +:+ "...")
              else Panicked string_type_expected
          | Some _ => Panicked string_type_expected
          | None => Dangling
          end
      | None => Panicked string_type_expected
      end).
  { destruct (Underlying n (Some a)) as [u|]; last done.
    destruct (heap !! u) as [[]|]; try done.
    case_bool_decide; last done.
    rewrite rec_appends_to. apply prepend_bind.
    intros s' _. by rewrite -Hk append_assoc. }
  destruct n; try exact Hfallback.
  rewrite append_assoc rec_appends_to. apply prepend_bind.
  intros s' _. apply Hk.
Qed.

Lemma writeTuple_loop_appends (len : nat) (variadic : bool)
    (vars : list types.Var) (i : nat) (b s : string) :
  writeTuple_loop heap rec pkg len variadic visited vars i (b +:+ s) =
  prepend b (writeTuple_loop heap rec pkg len variadic visited vars i s).
Proof.
  revert i s. induction vars as [|v rest IH]; intros i s; first done.
  simpl. destruct (variadic && bool_decide (i = len - 1)).
  - split_writes; apply writeVariadic_appends; intros s''; apply IH.
  - split_writes; rewrite rec_appends_to; apply prepend_bind;
      intros s'' _; apply IH.
Qed.

Lemma writeTuple_appends (tup : option types.Tuple) (variadic : bool)
    (b s : string) :
  writeTuple heap rec (b +:+ s) pkg tup variadic visited =
  prepend b (writeTuple heap rec s pkg tup variadic visited).
Proof.
  unfold writeTuple. rewrite append_assoc.
  destruct tup as [vars|]; simpl.
  - rewrite writeTuple_loop_appends. apply prepend_bind.
    intros s' _. simpl. by rewrite append_assoc.
  - by rewrite !append_assoc.
Qed.

Lemma writeSignature_appends (sig : types.Signature) (b s : string) :
  writeSignature heap rec (b +:+ s) pkg sig visited =
  prepend b (writeSignature heap rec s pkg sig visited).
Proof.
  unfold writeSignature. rewrite writeTuple_appends.
  apply prepend_bind. intros s' _.
  case_bool_decide; first done.
  rewrite append_assoc.
  destruct (types.sig_results sig) as [[|v [|v' vs]]|];
    rewrite ?writeTuple_appends //.
  case_bool_decide; by rewrite ?rec_appends_to ?writeTuple_appends.
Qed.

Lemma writeFields_appends (fields : list types.Field) (i : nat)
    (b s : string) :
  writeFields quote rec pkg visited fields i (b +:+ s) =
  prepend b (writeFields quote rec pkg visited fields i s).
Proof.
  revert i s. induction fields as [|f rest IH]; intros i s; first done.
  simpl. split_writes; rewrite rec_appends_to; apply prepend_bind;
    intros s' e; apply prepend_check; split_writes; apply IH.
Qed.

Lemma writeMethods_appends (methods : list types.Func) (i : nat)
    (b s : string) :
  writeMethods heap rec pkg visited methods i (b +:+ s) =
  prepend b (writeMethods heap rec pkg visited methods i s).
Proof.
  revert i s. induction methods as [|m rest IH]; intros i s; first done.
  simpl. split_writes; rewrite writeSignature_appends; apply prepend_bind;
    intros s' e; apply prepend_check, IH.
Qed.

Lemma writeEmbeddeds_appends (nmethods : nat) (embeddeds : list types.Type_)
    (i : nat) (b s : string) :
  writeEmbeddeds heap rec pkg visited nmethods embeddeds i (b +:+ s) =
  prepend b (writeEmbeddeds heap rec pkg visited nmethods embeddeds i s).
Proof.
  revert i s. induction embeddeds as [|t rest IH]; intros i s; first done.
  simpl. unfold Embedded, load.
  destruct t as [a|]; last done.
  destruct (heap !! a) as [[]|]; try done.
  split_writes; rewrite rec_appends_to; apply prepend_bind;
    intros s' e; apply prepend_check, IH.
Qed.

End Appending.

Section Rendering.

Variable quote : string → string.
Variable heap : Heap.

Lemma writeType_appends (fuel : nat) (pkg : option types.Package)
    (visited : list types.Type_) :
  appends pkg visited (writeType quote heap fuel).
Proof.
  revert pkg visited.
  induction fuel as [|fuel IH]; intros pkg visited buf typ; first done.
  simpl. destruct (existsb _ visited).
  { destruct (cycle_marker heap typ); done. }
  destruct typ as [a|]; last done.
  unfold load. destruct (heap !! a) as [n|]; last done.
  set (visited' := visited ++ [Some a]).
  pose proof (IH pkg visited') as Hrec.
  destruct n.
  - repeat case_bool_decide; simpl; by rewrite ?append_assoc ?append_nil_r.
  - apply (rec_appends_to _ _ _ Hrec).
  - apply (rec_appends_to _ _ _ Hrec).
  - rewrite (writeFields_appends _ _ _ _ Hrec).
    apply prepend_bind. intros s e. apply prepend_check.
    simpl. by rewrite ?append_assoc ?append_nil_r.
  - apply (rec_appends_to _ _ _ Hrec).
  - rewrite -(append_nil_r buf) (writeTuple_appends _ _ _ _ Hrec).
    by rewrite append_nil_r.
  - apply (writeSignature_appends _ _ _ _ Hrec).
  - rewrite (writeMethods_appends _ _ _ _ Hrec).
    apply prepend_bind. intros s e. apply prepend_check.
    rewrite (writeEmbeddeds_appends _ _ _ _ Hrec).
    apply prepend_bind. intros s' e'. apply prepend_check.
    simpl. by rewrite ?append_assoc ?append_nil_r.
  - rewrite (rec_appends_to _ _ _ Hrec).
    apply prepend_bind. intros s e. apply prepend_check.
    rewrite append_assoc. apply (rec_appends_to _ _ _ Hrec).
  - destruct (chan_parens heap dir elem); rewrite ?append_assoc;
      rewrite (rec_appends_to _ _ _ Hrec); apply prepend_bind;
      intros s e; apply prepend_check; simpl; by rewrite ?append_assoc ?append_nil_r.
  - destruct obj_pkg; last done.
    destruct (isImported _ _); simpl; by rewrite ?append_assoc ?append_nil_r.
  - done.
Qed.

(** What a call writes does not depend on the buffer it is given. *)
Lemma writeType_prepend (fuel : nat) (buf : string)
    (pkg : option types.Package) (typ : types.Type_)
    (visited : list types.Type_) :
  writeType quote heap fuel buf pkg typ visited =
  prepend buf (writeType quote heap fuel "" pkg typ visited).
Proof. apply writeType_appends. Qed.

End Rendering.

(** ** Relating two runs

    The loops and [writeType] itself call [rec] in the same places whatever
    [rec] is, so a relation between the outcomes of two writers that [bind]
    respects carries over to everything built from them.  The relation has
    to hold of [Dangling] only where a lookup can fail, [ok] being a property
    of the types a call is given that passes on to the types a node refers
    to, of an error only where one is made or handed on, and of a panic
    only under a variadic signature or in an interface that embeds a type
    that is not a defined type.  The termination proof, the
    independence of the fuel, the absence of [Dangling] on a closed heap and
    the origin of the errors and of the panics are instances. *)

(** A relation that holds of every return passes through [check]. *)
Lemma check_from_bind (R : outcome → outcome → Prop) :
  (∀ r1 r2 k1 k2,
     R r1 r2 → (∀ b e, R (k1 b e) (k2 b e)) → R (bind r1 k1) (bind r2 k2)) →
  (∀ b e, R (Returned b e) (Returned b e)) →
  ∀ r1 r2 k1 k2,
    R r1 r2 → (∀ b, R (k1 b) (k2 b)) →
    R (bind r1 (λ b e, check b e k1)) (bind r2 (λ b e, check b e k2)).
Proof.
  intros Hbind Hret r1 r2 k1 k2 Hr Hk. apply Hbind; first done.
  intros b [e|]; simpl; auto.
Qed.

Section Related.

Variable R : outcome → outcome → Prop.
Hypothesis R_bind : ∀ r1 r2 k1 k2,
  R r1 r2 → (∀ b e, R (k1 b e) (k2 b e)) → R (bind r1 k1) (bind r2 k2).
Hypothesis R_check : ∀ r1 r2 k1 k2,
  R r1 r2 → (∀ b, R (k1 b) (k2 b)) →
  R (bind r1 (λ b e, check b e k1)) (bind r2 (λ b e, check b e k2)).
Hypothesis R_returned : ∀ b, R (Returned b None) (Returned b None).

Variable quote : string → string.
Variable heap : Heap.

Variable ok : types.Type_ → Prop.
Hypothesis ok_children : ∀ a n,
  ok (Some a) → heap !! a = Some n → Forall ok (children n).
Hypothesis R_dangling : ∀ a,
  ok (Some a) → heap !! a = None → R Dangling Dangling.
Hypothesis R_dangling_underlying : ∀ a n u,
  ok (Some a) → heap !! a = Some n → Underlying n (Some a) = Some u →
  heap !! u = None → R Dangling Dangling.

Variable pkg : option types.Package.
Variable visited : list types.Type_.
Variables rec1 rec2 : writer.
Hypothesis R_rec : ∀ buf typ,
  ok typ → R (rec1 buf pkg typ visited) (rec2 buf pkg typ visited).

Lemma writeVariadic_related (buf : string) (typ : types.Type_)
    (k1 k2 : string → outcome) :
  may_panic R →
  ok typ →
  (∀ b, R (k1 b) (k2 b)) →
  R (writeVariadic heap rec1 buf pkg typ visited k1)
    (writeVariadic heap rec2 buf pkg typ visited k2).
Proof.
  intros [R_expected R_nil] Hok Hk. unfold writeVariadic, load.
  destruct typ as [a|]; last by auto.
  destruct (heap !! a) as [n|] eqn:Hn; last by eauto.
  pose proof (ok_children a n Hok Hn) as Hrefs.
  assert (Hfallback :
    R match Underlying n (Some a) with
      | Some u =>
          match heap !! u with
          | Some (types.Basic kind _) =>
              if bool_decide (kind = types.String)
              then call (buf, _) ← rec1 buf pkg (Some a) visited;
                   k1 (buf +:+ "...")
              else Panicked string_type_expected
          | Some _ => Panicked string_type_expected
          | None => Dangling
          end
      | None => Panicked string_type_expected
      end
      match Underlying n (Some a) with
      | Some u =>
          match heap !! u with
          | Some (types.Basic kind _) =>
              if bool_decide (kind = types.String)
              then call (buf, _) ← rec2 buf pkg (Some a) visited;
                   k2 (buf +:+ "...")
              else Panicked string_type_expected
          | Some _ => Panicked string_type_expected
          | None => Dangling
          end
      | None => Panicked string_type_expected
      end).
  { destruct (Underlying n (Some a)) as [u|] eqn:Hu; last by auto.
    destruct (heap !! u) as [[]|] eqn:Hlook; try by eauto.
    case_bool_decide; auto. }
  destruct n; try exact Hfallback.
  apply R_bind; last by auto.
  apply R_rec. by apply Forall_inv in Hrefs.
Qed.

Lemma writeTuple_loop_related (len : nat) (variadic : bool)
    (vars : list types.Var) (i : nat) (buf : string) :
  (variadic = true → may_panic R) →
  Forall ok (types.var_type <$> vars) →
  R (writeTuple_loop heap rec1 pkg len variadic visited vars i buf)
    (writeTuple_loop heap rec2 pkg len variadic visited vars i buf).
Proof.
  revert i buf.
  induction vars as [|v rest IH]; intros i buf Hpanic Hvars; simpl;
    first by auto.
  apply Forall_cons in Hvars as [Hv Hrest].
  destruct (variadic && bool_decide (i = len - 1)) eqn:Hlast.
  - apply andb_true_iff in Hlast as [-> _].
    apply writeVariadic_related; auto.
  - auto.
Qed.

Lemma writeTuple_related (buf : string) (tup : option types.Tuple)
    (variadic : bool) :
  (variadic = true → may_panic R) →
  Forall ok (tuple_refs tup) →
  R (writeTuple heap rec1 buf pkg tup variadic visited)
    (writeTuple heap rec2 buf pkg tup variadic visited).
Proof.
  intros Hpanic Htup. unfold writeTuple. apply R_bind; last by auto.
  destruct tup; [by apply writeTuple_loop_related | auto].
Qed.

Lemma writeSignature_related (buf : string) (sig : types.Signature) :
  (types.sig_variadic sig = true → may_panic R) →
  Forall ok (sig_refs sig) →
  R (writeSignature heap rec1 buf pkg sig visited)
    (writeSignature heap rec2 buf pkg sig visited).
Proof.
  intros Hpanic [Hparams Hresults]%Forall_app. unfold writeSignature.
  apply R_bind; first by apply writeTuple_related.
  intros b _. case_bool_decide; first by auto.
  destruct (types.sig_results sig) as [[|v [|v' vs]]|] eqn:Hres;
    try by apply writeTuple_related.
  case_bool_decide; last by apply writeTuple_related.
  apply R_rec. by apply Forall_inv in Hresults.
Qed.

Lemma writeFields_related (fields : list types.Field) (i : nat)
    (buf : string) :
  Forall ok (types.field_type <$> fields) →
  R (writeFields quote rec1 pkg visited fields i buf)
    (writeFields quote rec2 pkg visited fields i buf).
Proof.
  revert i buf.
  induction fields as [|f rest IH]; intros i buf Hfields; simpl;
    first by auto.
  apply Forall_cons in Hfields as [Hf Hrest].
  apply R_check; auto.
Qed.

Lemma writeMethods_related (methods : list types.Func) (i : nat)
    (buf : string) :
  (existsb (types.sig_variadic ∘ types.func_type) methods = true →
   may_panic R) →
  Forall ok (methods ≫= sig_refs ∘ types.func_type) →
  R (writeMethods heap rec1 pkg visited methods i buf)
    (writeMethods heap rec2 pkg visited methods i buf).
Proof.
  revert i buf.
  induction methods as [|m rest IH]; intros i buf Hpanic Hmethods; simpl;
    first by auto.
  rewrite bind_cons in Hmethods. apply Forall_app in Hmethods as [Hm Hrest].
  simpl in Hpanic.
  apply R_check.
  - apply writeSignature_related; last done.
    intros Hm'. apply Hpanic. simpl. by rewrite Hm'.
  - intros b. apply IH; last done.
    intros Hrest'. apply Hpanic. rewrite Hrest'. apply orb_true_r.
Qed.

Lemma writeEmbeddeds_related (nmethods : nat)
    (embeddeds : list types.Type_) (i : nat) (buf : string) :
  (forallb (defined heap) embeddeds = false → may_panic R) →
  Forall ok embeddeds →
  R (writeEmbeddeds heap rec1 pkg visited nmethods embeddeds i buf)
    (writeEmbeddeds heap rec2 pkg visited nmethods embeddeds i buf).
Proof.
  revert i buf.
  induction embeddeds as [|t rest IH]; intros i buf Hpanic Hembeddeds; simpl;
    first by auto.
  apply Forall_cons in Hembeddeds as [Ht Hrest].
  simpl in Hpanic. unfold Embedded, load, defined in *.
  destruct t as [a|]; simpl in Hpanic; first last.
  { by apply Hpanic. }
  destruct (heap !! a) as [n|] eqn:Hn; simpl in Hpanic; last by eauto.
  destruct n; try (by apply Hpanic).
  apply R_check; auto.
Qed.

End Related.

Section Step.

Variable R : outcome → outcome → Prop.
Hypothesis R_bind : ∀ r1 r2 k1 k2,
  R r1 r2 → (∀ b e, R (k1 b e) (k2 b e)) → R (bind r1 k1) (bind r2 k2).
Hypothesis R_check : ∀ r1 r2 k1 k2,
  R r1 r2 → (∀ b, R (k1 b) (k2 b)) →
  R (bind r1 (λ b e, check b e k1)) (bind r2 (λ b e, check b e k2)).
Hypothesis R_returned : ∀ b, R (Returned b None) (Returned b None).

Variable quote : string → string.
Variable heap : Heap.

Variable ok : types.Type_ → Prop.
Hypothesis ok_children : ∀ a n,
  ok (Some a) → heap !! a = Some n → Forall ok (children n).
Hypothesis R_dangling : ∀ a,
  ok (Some a) → heap !! a = None → R Dangling Dangling.
Hypothesis R_dangling_underlying : ∀ a n u,
  ok (Some a) → heap !! a = Some n → Underlying n (Some a) = Some u →
  heap !! u = None → R Dangling Dangling.
Hypothesis R_panicked : ∀ a n,
  ok (Some a) → heap !! a = Some n →
  variadic_in n || embeds_undefined heap n = true → may_panic R.
Hypothesis R_invalid : ∀ a name b,
  ok (Some a) → heap !! a = Some (types.Basic types.Invalid name) →
  R (Returned b (Some "TODO")) (Returned b (Some "TODO")).

(** One unfolding of [writeType]: the recursive calls are only made for a
    node of the heap that is not on [visited], and on [visited ++ [typ]]. *)
Lemma writeType_related (fuel1 fuel2 : nat) (buf : string)
    (pkg : option types.Package) (typ : types.Type_)
    (visited : list types.Type_) :
  ok typ →
  (typ ∉ visited → is_Some (typ ≫= (heap !!.)) →
   ∀ buf' typ', ok typ' →
     R (writeType quote heap fuel1 buf' pkg typ' (visited ++ [typ]))
       (writeType quote heap fuel2 buf' pkg typ' (visited ++ [typ]))) →
  R (writeType quote heap (S fuel1) buf pkg typ visited)
    (writeType quote heap (S fuel2) buf pkg typ visited).
Proof.
  intros Hok Hrec. simpl.
  destruct (existsb _ visited) eqn:Hseen.
  { destruct typ as [a|]; simpl; last by auto.
    destruct (heap !! a) eqn:Hn; simpl; eauto. }
  assert (typ ∉ visited) as Hfresh.
  { intros Hin. apply not_true_iff_false in Hseen. apply Hseen.
    apply existsb_exists. exists typ. split.
    - by apply list_elem_of_In.
    - by apply bool_decide_eq_true. }
  destruct typ as [a|]; last by auto.
  unfold load. destruct (heap !! a) as [n|] eqn:Hn; last by eauto.
  pose proof (ok_children a n Hok Hn) as Hrefs.
  pose proof (R_panicked a n Hok Hn) as Hpanic.
  assert (∀ buf' typ', ok typ' →
     R (writeType quote heap fuel1 buf' pkg typ' (visited ++ [Some a]))
       (writeType quote heap fuel2 buf' pkg typ' (visited ++ [Some a])))
    as Hrec'.
  { apply Hrec; first done. simpl. by rewrite Hn. }
  destruct n; simpl in Hrefs, Hpanic.
  - repeat case_bool_decide; subst; eauto.
  - apply Hrec'. by apply Forall_inv in Hrefs.
  - apply Hrec'. by apply Forall_inv in Hrefs.
  - apply R_check; [by eapply writeFields_related | auto].
  - apply Hrec'. by apply Forall_inv in Hrefs.
  - eapply writeTuple_related; eauto.
  - eapply writeSignature_related; eauto.
    intros Hvariadic. apply Hpanic. by rewrite Hvariadic.
  - apply Forall_app in Hrefs as [Hmethods Hembeddeds].
    apply R_check.
    { eapply writeMethods_related; eauto.
      intros Hvariadic. apply Hpanic. by rewrite Hvariadic. }
    intros b'. apply R_check; last by auto.
    eapply writeEmbeddeds_related; eauto.
    intros Hundefined. apply Hpanic. rewrite Hundefined. apply orb_true_r.
  - apply Forall_cons in Hrefs as [Hkey Helem%Forall_inv].
    apply R_check; auto.
  - apply R_check; last by auto.
    apply Hrec'. by apply Forall_inv in Hrefs.
  - destruct obj_pkg; last by auto. destruct (isImported _ _); auto.
  - auto.
Qed.

End Step.

(** ** Termination and the fuel *)

Lemma bind_finishes (r : outcome) (k : string → option string → outcome) :
  r ≠ OutOfFuel → (∀ b e, k b e ≠ OutOfFuel) → bind r k ≠ OutOfFuel.
Proof. intros Hr Hk. destruct r; simpl; auto. Qed.

Lemma bind_refines (r1 r2 : outcome)
    (k1 k2 : string → option string → outcome) :
  refines r1 r2 → (∀ b e, refines (k1 b e) (k2 b e)) →
  refines (bind r1 k1) (bind r2 k2).
Proof.
  unfold refines. intros Hr Hk H.
  destruct r1; simpl in *; try done; rewrite Hr //=. auto.
Qed.

Lemma unvisited_push (heap : Heap) (visited : list types.Type_)
    (a : types.addr) :
  Some a ∉ visited → is_Some (heap !! a) →
  size (unvisited heap (visited ++ [Some a])) < size (unvisited heap visited).
Proof.
  intros Hfresh Hin. apply subset_size. unfold unvisited.
  assert (a ∉ (list_to_set (omap id visited) : gset types.addr)) as Ha.
  { rewrite elem_of_list_to_set list_elem_of_omap.
    intros (x & Hx & Hid). simpl in Hid. by subst x. }
  apply elem_of_dom in Hin.
  rewrite omap_app list_to_set_app_L /=.
  set_solver.
Qed.

Lemma children_refs (P : types.Type_ → Prop) (n : types.Node) :
  Forall P (refs n) → Forall P (children n).
Proof. destruct n; simpl; auto. Qed.

Lemma underlying_refs (n : types.Node) (a u : types.addr) :
  Underlying n (Some a) = Some u → u = a ∨ Some u ∈ refs n.
Proof.
  destruct n; simpl; intros Hu; try (left; congruence);
    right; subst; apply list_elem_of_here.
Qed.

Section Fuel.

Variable quote : string → string.
Variable heap : Heap.

(** A call with more fuel than there are unvisited nodes returns or panics. *)
Lemma writeType_finishes (fuel : nat) (buf : string)
    (pkg : option types.Package) (typ : types.Type_)
    (visited : list types.Type_) :
  size (unvisited heap visited) < fuel →
  writeType quote heap fuel buf pkg typ visited ≠ OutOfFuel.
Proof.
  revert buf typ visited.
  induction fuel as [|fuel IH]; intros buf typ visited Hfuel.
  { lia. }
  apply (writeType_related (λ r _, r ≠ OutOfFuel))
    with (fuel2 := fuel) (ok := λ _, True);
    [intros; by apply bind_finishes
    | apply check_from_bind; [intros; by apply bind_finishes | done]
    | done | intros; by apply Forall_true | done | done
    | by intros | done | done |].
  intros Hfresh Hnode buf' typ' _.
  destruct typ as [a|]; last by destruct Hnode.
  apply IH.
  exact (Nat.lt_le_trans _ _ _ (unvisited_push heap visited a Hfresh Hnode)
           (proj1 (Nat.lt_succ_r _ _) Hfuel)).
Qed.

Lemma writeType_fuel_S (fuel : nat) (buf : string)
    (pkg : option types.Package) (typ : types.Type_)
    (visited : list types.Type_) :
  refines (writeType quote heap fuel buf pkg typ visited)
    (writeType quote heap (S fuel) buf pkg typ visited).
Proof.
  revert buf typ visited.
  induction fuel as [|fuel IH]; intros buf typ visited; first by intros [].
  apply (writeType_related refines) with (ok := λ _, True);
    [apply bind_refines
    | apply check_from_bind; [apply bind_refines | by intros]
    | by intros | intros; by apply Forall_true | by intros | by intros
    | by intros | by intros | done |].
  intros _ _ buf' typ' _. apply IH.
Qed.

Lemma writeType_fuel_le (fuel fuel' : nat) (buf : string)
    (pkg : option types.Package) (typ : types.Type_)
    (visited : list types.Type_) :
  fuel ≤ fuel' →
  refines (writeType quote heap fuel buf pkg typ visited)
    (writeType quote heap fuel' buf pkg typ visited).
Proof.
  induction 1 as [|fuel' _ IH]; first done.
  intros Hfin. rewrite -(IH Hfin). apply writeType_fuel_S. by rewrite (IH Hfin).
Qed.

(** Any two amounts of fuel above the number of unvisited nodes give the
    same outcome. *)
Lemma writeType_fuel_irrelevant (fuel fuel' : nat) (buf : string)
    (pkg : option types.Package) (typ : types.Type_)
    (visited : list types.Type_) :
  size (unvisited heap visited) < fuel →
  size (unvisited heap visited) < fuel' →
  writeType quote heap fuel buf pkg typ visited =
  writeType quote heap fuel' buf pkg typ visited.
Proof.
  intros Hfuel Hfuel'.
  destruct (Nat.le_ge_cases fuel fuel') as [Hle|Hle].
  - symmetry. apply (writeType_fuel_le _ _ _ _ _ _ Hle).
    by apply writeType_finishes.
  - apply (writeType_fuel_le _ _ _ _ _ _ Hle). by apply writeType_finishes.
Qed.

Lemma bind_not_dangling (r : outcome)
    (k : string → option string → outcome) :
  r ≠ Dangling → (∀ b e, k b e ≠ Dangling) → bind r k ≠ Dangling.
Proof. intros Hr Hk. destruct r; simpl; auto. Qed.

(** On a closed heap no call meets a pointer without a node. *)
Lemma writeType_known (fuel : nat) (buf : string)
    (pkg : option types.Package) (typ : types.Type_)
    (visited : list types.Type_) :
  closed heap → known heap typ →
  writeType quote heap fuel buf pkg typ visited ≠ Dangling.
Proof.
  intros Hclosed. revert buf typ visited.
  induction fuel as [|fuel IH]; intros buf typ visited Hknown; first done.
  apply (writeType_related (λ r _, r ≠ Dangling))
    with (fuel2 := fuel) (ok := known heap);
    [intros; by apply bind_not_dangling
    | apply check_from_bind; [intros; by apply bind_not_dangling | done]
    | done | | | | by intros | done | done |].
  - intros a n _ Hn. apply children_refs. by eapply Hclosed.
  - intros a [n Hn] Hnone. congruence.
  - intros a n u _ Hn Hu Hnone.
    destruct (underlying_refs n a u Hu) as [->|Hin]; first congruence.
    pose proof (Hclosed a n Hn) as Hrefs.
    rewrite Forall_forall in Hrefs. destruct (Hrefs _ Hin) as [n' Hn'].
    congruence.
  - intros _ _ buf' typ' Hknown'. by apply IH.
Qed.

Lemma unvisited_nil : size (unvisited heap []) = size heap.
Proof.
  replace (unvisited heap []) with (dom heap : gset types.addr).
  - apply size_dom.
  - unfold unvisited. set_solver.
Qed.

End Fuel.

(** ** The renderer on sample graphs *)

Example render_array : sample.render None 5 = Returned "[3]int" None.
Proof. vm_compute. reflexivity. Qed.

Example render_map : sample.render None 7 = Returned "map[string][]bool" None.
Proof. vm_compute. reflexivity. Qed.

Example render_chan :
  sample.render None 9 = Returned "chan (<-chan int)" None.
Proof. vm_compute. reflexivity. Qed.

Example render_variadic :
  sample.render None 11 =
  Returned "func(a int, b ...string) (bool, error)" None.
Proof. vm_compute. reflexivity. Qed.

Example render_single_result :
  sample.render None 12 = Returned "func(int) bool" None.
Proof. vm_compute. reflexivity. Qed.

Example render_tag :
  sample.render None 13 =
  Returned ("struct{X int " +:+ strconv.dquote +:+ "json:x" +:+
            strconv.dquote +:+ "}") None.
Proof. vm_compute. reflexivity. Qed.

Example render_nested :
  sample.render None 23 = Returned "[]*struct{X int}" None.
Proof. vm_compute. reflexivity. Qed.

(** A node that is shared but not on the path is rendered in full each
    time; only the path counts. *)
Example render_shared :
  sample.render None 27 =
  Returned "struct{a *struct{X int}; b *struct{X int}}" None.
Proof. vm_compute. reflexivity. Qed.

Example render_cycle :
  sample.render None 14 = Returned "*struct{next ○*types.Pointer}" None.
Proof. vm_compute. reflexivity. Qed.

Example render_qualified :
  sample.render (Some sample.pkg_main) 21 = Returned "io.Reader" None
  ∧ sample.render (Some sample.pkg_io) 21 = Returned "Reader" None
  ∧ sample.render (Some sample.pkg_io') 21 = Returned "io.Reader" None
  ∧ sample.render (Some sample.pkg_main) 4 = Returned "error" None.
Proof. vm_compute. done. Qed.

(** ** Quoted tags *)

Example quote_escapes (table : N → bool) :
  strconv.Quote table ("a\" +:+ strconv.dquote) =
  strconv.dquote +:+ "a\\\" +:+ strconv.dquote +:+ strconv.dquote.
Proof. vm_compute. reflexivity. Qed.

(** A byte that is not UTF-8, a printable rune of Latin-1, and the control
    character U+0085. *)
Example quote_bytes_above_ascii (table : N → bool) :
  strconv.Quote table (String (ascii_of_nat 255) "") =
    strconv.dquote +:+ "\xff" +:+ strconv.dquote
  ∧ strconv.Quote table "é" = strconv.dquote +:+ "é" +:+ strconv.dquote
  ∧ strconv.Quote table
      (String (ascii_of_nat 194) (String (ascii_of_nat 133) "")) =
    strconv.dquote +:+ "\u0085" +:+ strconv.dquote.
Proof. vm_compute. done. Qed.

(** On a string of bytes below 128 the tables are not consulted. *)
Lemma Quote_ascii (table1 table2 : N → bool) (s : string) :
  strconv.is_ascii s = true → strconv.Quote table1 s = strconv.Quote table2 s.
Proof.
  intros Hs. unfold strconv.Quote. f_equal. f_equal.
  induction s as [|c s IH]; first done.
  simpl in *. apply andb_true_iff in Hs as [Hc Hs].
  rewrite Hc. f_equal. by apply IH.
Qed.

(** ** The end of a run *)

Section Finishes.

Variable quote : string → string.
Variable heap : Heap.

(** [typeString] returns or panics on every graph. *)
Lemma typeString_finishes (pkg : option types.Package) (typ : types.Type_) :
  typeString quote heap pkg typ ≠ OutOfFuel.
Proof.
  apply writeType_finishes. rewrite unvisited_nil. apply Nat.lt_succ_diag_r.
Qed.

End Finishes.

(** ** Tuples and the variadic parameter *)

Lemma bind_bind (r : outcome) (k1 k2 : string → option string → outcome) :
  bind (bind r k1) k2 = bind r (λ b e, bind (k1 b e) k2).
Proof. by destruct r. Qed.

Lemma bind_ext (r : outcome) (k1 k2 : string → option string → outcome) :
  (∀ b e, k1 b e = k2 b e) → bind r k1 = bind r k2.
Proof. intros Hk. destruct r; simpl; auto. Qed.

Section Tuples.

Variable heap : Heap.
Variable rec : writer.
Variable pkg : option types.Package.
Variable visited : list types.Type_.

Lemma writeVariadic_bind (buf : string) (typ : types.Type_)
    (k : string → outcome) (k' : string → option string → outcome) :
  writeVariadic heap rec buf pkg typ visited (λ b, bind (k b) k') =
  bind (writeVariadic heap rec buf pkg typ visited k) k'.
Proof.
  unfold writeVariadic, load.
  destruct typ as [a|]; last done.
  destruct (heap !! a) as [n|]; last done.
  assert (Hfallback :
    match Underlying n (Some a) with
    | Some u =>
        match heap !! u with
        | Some (types.Basic kind _) =>
            if bool_decide (kind = types.String)
            then call (buf, _) ← rec buf pkg (Some a) visited;
                 bind (k (buf +:+ "...")) k'
            else Panicked string_type_expected
        | Some _ => Panicked string_type_expected
        | None => Dangling
        end
    | None => Panicked string_type_expected
    end =
    bind
      match Underlying n (Some a) with
      | Some u =>
          match heap !! u with
          | Some (types.Basic kind _) =>
              if bool_decide (kind = types.String)
              then call (buf, _) ← rec buf pkg (Some a) visited;
                   k (buf +:+ "...")
              else Panicked string_type_expected
          | Some _ => Panicked string_type_expected
          | None => Dangling
          end
      | None => Panicked string_type_expected
      end k').
  { destruct (Underlying n (Some a)) as [u|]; last done.
    destruct (heap !! u) as [[]|]; try done.
    case_bool_decide; last done. by rewrite bind_bind. }
  destruct n; try exact Hfallback. by rewrite bind_bind.
Qed.

(** The loop over [before ++ rest] is the loop over [before] followed by
    the loop over [rest] from the next index on. *)
Lemma writeTuple_loop_app (len : nat) (variadic : bool)
    (before rest : list types.Var) (i : nat) (buf : string) :
  writeTuple_loop heap rec pkg len variadic visited (before ++ rest) i buf =
  call (b, _) ← writeTuple_loop heap rec pkg len variadic visited before i buf;
  writeTuple_loop heap rec pkg len variadic visited rest (i + length before) b.
Proof.
  revert i buf. induction before as [|v before IH]; intros i buf; simpl.
  { by rewrite Nat.add_0_r. }
  replace (i + S (length before)) with (S i + length before) by lia.
  destruct (variadic && bool_decide (i = len - 1)).
  - rewrite -writeVariadic_bind.
    apply (writeVariadic_related eq) with (ok := λ _, True); try done.
    + intros r1 r2 k1 k2 -> Hk. by apply bind_ext.
    + intros. by apply Forall_true.
  - rewrite bind_bind. apply bind_ext. intros b _. apply IH.
Qed.

End Tuples.

Section Variadic.

Variable quote : string → string.
Variable heap : Heap.
Variable fuel : nat.
Variable pkg : option types.Package.
Variable visited : list types.Type_.

Local Abbreviation rec := (writeType quote heap fuel).

(** A variadic tuple whose elements before the last render as [s0]: what
    is left is the last element and the closing parenthesis. *)
Lemma writeTuple_variadic_last (buf : string) (before : list types.Var)
    (v : types.Var) (s0 : string) :
  writeTuple_loop heap rec pkg (length (before ++ [v])) true visited
    before 0 "" = Returned s0 None →
  writeTuple heap rec buf pkg (Some (before ++ [v])) true visited =
  call (b, _) ←
    writeVariadic heap rec
      (buf +:+ "(" +:+ s0 +:+ separator before ", " +:+ var_label v)
      pkg (types.var_type v) visited (λ b, Returned b None);
  Returned (b +:+ ")") None.
Proof.
  intros Hbefore. unfold writeTuple.
  rewrite writeTuple_loop_app bind_bind.
  rewrite -(append_nil_r (buf +:+ "(")).
  rewrite (writeTuple_loop_appends heap pkg visited rec
             (writeType_appends quote heap fuel pkg visited)).
  rewrite Hbefore /=.
  rewrite bool_decide_eq_true_2; last (rewrite length_app /=; lia).
  f_equal. f_equal. unfold var_label.
  destruct before; simpl; repeat case_bool_decide; try lia;
    by rewrite ?append_assoc ?append_nil_r.
Qed.

(** C2, as the code has it: in a variadic tuple, a last element whose type
    is a slice is rendered as the token [...] followed by the element type of
    the slice; the brackets of the slice are not written. *)
Theorem variadic_slice_parameter (buf : string) (before : list types.Var)
    (v : types.Var) (a : types.addr) (elem : types.Type_)
    (s0 s : string) (e : option string) :
  types.var_type v = Some a →
  heap !! a = Some (types.Slice elem) →
  writeTuple_loop heap rec pkg (length (before ++ [v])) true visited
    before 0 "" = Returned s0 None →
  rec "" pkg elem visited = Returned s e →
  writeTuple heap rec buf pkg (Some (before ++ [v])) true visited =
  Returned
    (buf +:+ "(" +:+ s0 +:+ separator before ", " +:+ var_label v +:+
     "..." +:+ s +:+ ")") None.
Proof.
  intros Hv Ha Hbefore Helem.
  rewrite (writeTuple_variadic_last _ _ _ _ Hbefore).
  rewrite Hv /writeVariadic /load Ha.
  rewrite writeType_prepend Helem /=.
  by rewrite ?append_assoc.
Qed.

(** C3: in a variadic tuple, a last element whose type is a node other than
    a slice is rendered as the type itself followed by [...] when its
    underlying type is the basic type of kind [String], and makes the call
    panic, with no buffer left to read, when its underlying type is another
    node. *)
Theorem variadic_string_parameter (buf : string) (before : list types.Var)
    (v : types.Var) (a u : types.addr) (n t : types.Node) (s0 : string) :
  types.var_type v = Some a →
  heap !! a = Some n →
  (∀ elem, n ≠ types.Slice elem) →
  Underlying n (Some a) = Some u →
  heap !! u = Some t →
  writeTuple_loop heap rec pkg (length (before ++ [v])) true visited
    before 0 "" = Returned s0 None →
  (is_string_basic t = true →
   ∀ s e, rec "" pkg (Some a) visited = Returned s e →
     writeTuple heap rec buf pkg (Some (before ++ [v])) true visited =
     Returned
       (buf +:+ "(" +:+ s0 +:+ separator before ", " +:+ var_label v +:+
        s +:+ "..." +:+ ")") None)
  ∧ (is_string_basic t = false →
     writeTuple heap rec buf pkg (Some (before ++ [v])) true visited =
     Panicked string_type_expected).
Proof.
  intros Hv Ha Hslice Hu Ht Hbefore.
  rewrite (writeTuple_variadic_last _ _ _ _ Hbefore).
  rewrite Hv /writeVariadic /load Ha.
  assert (Hfallback :
    ∀ b, match Underlying n (Some a) with
    | Some u =>
        match heap !! u with
        | Some (types.Basic kind _) =>
            if bool_decide (kind = types.String)
            then call (buf, _) ← rec b pkg (Some a) visited;
                 Returned (buf +:+ "...") None
            else Panicked string_type_expected
        | Some _ => Panicked string_type_expected
        | None => Dangling
        end
    | None => Panicked string_type_expected
    end =
    if is_string_basic t
    then call (buf, _) ← rec b pkg (Some a) visited;
         Returned (buf +:+ "...") None
    else Panicked string_type_expected).
  { intros b. rewrite Hu Ht. by destruct t. }
  destruct n; try (by edestruct Hslice); rewrite Hfallback;
    (split; intros Hstr; rewrite Hstr; last done);
    intros s e Hrec;
    rewrite writeType_prepend Hrec /=; by rewrite ?append_assoc.
Qed.

End Variadic.

Lemma variadic_slice_parameter_witness :
  types.var_type (sample.var "b" 10) = Some 10
  ∧ sample.heap !! 10 = Some (types.Slice (Some 1))
  ∧ writeTuple_loop sample.heap (writeType sample.quote sample.heap 2) None
      2 true [] [sample.var "a" 0] 0 "" = Returned "a int" None
  ∧ writeType sample.quote sample.heap 2 "" None (Some 1) [] =
    Returned "string" None
  ∧ writeTuple sample.heap (writeType sample.quote sample.heap 2) "func" None
      (Some [sample.var "a" 0; sample.var "b" 10]) true [] =
    Returned "func(a int, b ...string)" None.
Proof.
  assert (types.var_type (sample.var "b" 10) = Some 10) as Hv
    by reflexivity.
  assert (sample.heap !! 10 = Some (types.Slice (Some 1))) as Ha
    by (vm_compute; reflexivity).
  assert (writeTuple_loop sample.heap (writeType sample.quote sample.heap 2)
            None 2 true [] [sample.var "a" 0] 0 "" = Returned "a int" None)
    as Hbefore by (vm_compute; reflexivity).
  assert (writeType sample.quote sample.heap 2 "" None (Some 1) [] =
          Returned "string" None) as Helem by (vm_compute; reflexivity).
  split; [exact Hv | split; [exact Ha | split; [exact Hbefore |]]].
  split; [exact Helem |].
  exact (variadic_slice_parameter sample.quote sample.heap 2 None [] "func"
           [sample.var "a" 0] (sample.var "b" 10) 10 (Some 1) "a int"
           "string" None Hv Ha Hbefore Helem).
Defined.

(** C2, as the claim words it, fails: the element type does not come before
    the token [...] but after it. *)
Lemma variadic_slice_parameter_counterexample :
  sample.heap !! 10 = Some (types.Slice (Some 1))
  ∧ writeType sample.quote sample.heap 2 "" None (Some 1) [] =
    Returned "string" None
  ∧ writeTuple sample.heap (writeType sample.quote sample.heap 2) "" None
      (Some [sample.var "b" 10]) true [] = Returned "(b ...string)" None
  ∧ writeTuple sample.heap (writeType sample.quote sample.heap 2) "" None
      (Some [sample.var "b" 10]) true [] ≠ Returned "(b string...)" None
  ∧ sample.render None 26 = Returned "func(b ...string)" None
  ∧ sample.render None 26 ≠ Returned "func(b string...)" None.
Proof. vm_compute. repeat split; done. Qed.

Lemma variadic_string_parameter_witness :
  types.var_type (sample.var "s" 1) = Some 1
  ∧ sample.heap !! 1 = Some (types.Basic types.String "string")
  ∧ (∀ elem, types.Basic types.String "string" ≠ types.Slice elem)
  ∧ Underlying (types.Basic types.String "string") (Some 1) = Some 1
  ∧ writeTuple_loop sample.heap (writeType sample.quote sample.heap 2) None
      1 true [] [] 0 "" = Returned "" None
  ∧ writeTuple sample.heap (writeType sample.quote sample.heap 2) "func" None
      (Some [sample.var "s" 1]) true [] = Returned "func(s string...)" None.
Proof.
  assert (types.var_type (sample.var "s" 1) = Some 1) as Hv by reflexivity.
  assert (sample.heap !! 1 = Some (types.Basic types.String "string")) as Ha
    by (vm_compute; reflexivity).
  assert (∀ elem, types.Basic types.String "string" ≠ types.Slice elem)
    as Hslice by (intros elem; discriminate).
  assert (Underlying (types.Basic types.String "string") (Some 1) = Some 1)
    as Hu by reflexivity.
  assert (writeTuple_loop sample.heap (writeType sample.quote sample.heap 2)
            None 1 true [] [] 0 "" = Returned "" None)
    as Hbefore by reflexivity.
  split; [exact Hv | split; [exact Ha | split; [exact Hslice |]]].
  split; [exact Hu | split; [exact Hbefore |]].
  exact (proj1
           (variadic_string_parameter sample.quote sample.heap 2 None []
              "func" [] (sample.var "s" 1) 1 1 _ _ "" Hv Ha Hslice Hu Ha
              Hbefore)
           eq_refl "string" None ltac:(vm_compute; reflexivity)).
Defined.

Example render_variadic_string :
  sample.render None 18 = Returned "func(s string...)" None.
Proof. vm_compute. reflexivity. Qed.

Example render_variadic_int :
  sample.render None 19 = Panicked string_type_expected.
Proof. vm_compute. reflexivity. Qed.

(** ** One arm at a time *)

Lemma not_seen (typ : types.Type_) (visited : list types.Type_) :
  typ ∉ visited → existsb (λ t, same_type t typ) visited = false.
Proof.
  intros Hfresh. apply not_true_iff_false. intros Hseen. apply Hfresh.
  apply existsb_exists in Hseen as (t & Hin & Ht).
  apply bool_decide_eq_true in Ht as ->. by apply list_elem_of_In.
Qed.

Section Arms.

Variable quote : string → string.
Variable heap : Heap.
Variable fuel : nat.
Variable pkg : option types.Package.

Local Abbreviation rec := (writeType quote heap fuel).

(** C5: a named type is rendered as the name of its owner, a dot and its
    name when it has an owner that is not the viewing scope, and as its name
    alone when its owner is the viewing scope or it has none.  The underlying
    type plays no part, and the fuel of a single call is enough. *)
Theorem named_type_text (buf : string) (a : types.addr)
    (owner : option types.Package) (name : string) (u : types.Type_)
    (visited : list types.Type_) :
  heap !! a = Some (types.Named owner name u) →
  Some a ∉ visited →
  writeType quote heap (S fuel) buf pkg (Some a) visited =
  Returned
    (buf +:+
     match owner with
     | Some p =>
         if decide (same_scope owner pkg) then name
         else types.pkg_name p +:+ "." +:+ name
     | None => name
     end) None.
Proof.
  intros Ha Hfresh. simpl. rewrite (not_seen _ _ Hfresh) /load Ha.
  destruct owner as [p|]; last done.
  unfold isImported, same_scope.
  case_bool_decide; by case_decide.
Qed.

(** The element of a bidirectional channel is put in parentheses exactly
    when it is a receive-only channel. *)
Lemma chan_parens_spec (dir : types.ChanDir) (elem : types.Type_) :
  chan_parens heap dir elem = true ↔
  dir = types.SendRecv
  ∧ ∃ c t, elem = Some c ∧ heap !! c = Some (types.Chan types.RecvOnly t).
Proof.
  unfold chan_parens. split.
  - destruct dir; try done. destruct elem as [c|]; last done. simpl.
    destruct (heap !! c) as [[]|] eqn:Hc; try done.
    destruct dir; try done. eauto.
  - intros (-> & c & t & -> & Hc). simpl. by rewrite Hc.
Qed.

(** C7: a channel whose element renders as [s] is rendered as the prefix of
    its direction followed by [s], and [s] stands in parentheses exactly when
    the channel is bidirectional and its element a receive-only channel. *)
Theorem channel_text (buf : string) (a : types.addr) (dir : types.ChanDir)
    (elem : types.Type_) (visited : list types.Type_) (s : string) :
  heap !! a = Some (types.Chan dir elem) →
  Some a ∉ visited →
  rec "" pkg elem (visited ++ [Some a]) = Returned s None →
  writeType quote heap (S fuel) buf pkg (Some a) visited =
    Returned
      (buf +:+
       match dir with
       | types.SendRecv => "chan "
       | types.SendOnly => "chan<- "
       | types.RecvOnly => "<-chan "
       end +:+
       (if chan_parens heap dir elem then "(" +:+ s +:+ ")" else s)) None
  ∧ (chan_parens heap dir elem = true ↔
     dir = types.SendRecv
     ∧ ∃ c t, elem = Some c ∧ heap !! c = Some (types.Chan types.RecvOnly t)).
Proof.
  intros Ha Hfresh Helem. split; last apply chan_parens_spec.
  simpl. rewrite (not_seen _ _ Hfresh) /load Ha.
  rewrite writeType_prepend Helem.
  destruct (chan_parens heap dir elem), dir; simpl;
    by rewrite ?append_assoc.
Qed.

End Arms.

(** C4, where the code departs from it: a signature whose parameter is the
    invalid basic type.  The call on the parameter returns the error, and
    [writeTuple] drops it: [typeString] returns a string and nil. *)
Theorem invalid_parameter_unreported :
  sample.heap !! 16 = Some (sample.signature [sample.var "" 3] false [])
  ∧ sample.heap !! 3 = Some (types.Basic types.Invalid "invalid type")
  ∧ writeType sample.quote sample.heap 1 "func(" None (Some 3) [Some 16] =
    Returned "func(" (Some "TODO")
  ∧ sample.render None 16 = Returned "func()" None
  ∧ sample.render None 17 = Returned "*" (Some "TODO").
Proof. vm_compute. done. Qed.

Section Composite.

Variable quote : string → string.
Variable heap : Heap.
Variable fuel : nat.
Variable pkg : option types.Package.

Local Abbreviation rec := (writeType quote heap fuel).

(** [writeTuple] never returns an error, and what it writes stands between
    parentheses. *)
Lemma writeTuple_shape (buf : string) (tup : option types.Tuple)
    (variadic : bool) (visited : list types.Type_) (s : string)
    (e : option string) :
  writeTuple heap rec buf pkg tup variadic visited = Returned s e →
  e = None ∧ ∃ inner, s = buf +:+ "(" +:+ inner +:+ ")".
Proof.
  unfold writeTuple. destruct tup as [vars|]; simpl.
  - rewrite -(append_nil_r (buf +:+ "(")).
    rewrite (writeTuple_loop_appends heap pkg visited rec
               (writeType_appends quote heap fuel pkg visited)).
    destruct (writeTuple_loop _ _ _ _ _ _ _ _ _) as [inner e'| | |];
      simpl; try done.
    intros [= <- <-]. split; first done.
    exists inner. by rewrite ?append_assoc.
  - intros [= <- <-]. split; first done.
    exists "". by rewrite ?append_assoc.
Qed.

(** C6: a signature is rendered as [func] and the tuple of its parameters;
    without results nothing follows; with a single result that has no name,
    a space and the type of the result follow; in every other case a space
    and the tuple of the results, which stands between parentheses. *)
Theorem signature_text (buf : string) (a : types.addr)
    (sig : types.Signature) (visited : list types.Type_) (ps : string)
    (e0 : option string) :
  heap !! a = Some (types.SignatureT sig) →
  Some a ∉ visited →
  writeTuple heap rec "" pkg (types.sig_params sig) (types.sig_variadic sig)
    (visited ++ [Some a]) = Returned ps e0 →
  (types.Tuple_Len (types.sig_results sig) = 0 →
   writeType quote heap (S fuel) buf pkg (Some a) visited =
   Returned (buf +:+ "func" +:+ ps) None)
  ∧ (∀ v s e,
       types.sig_results sig = Some [v] → types.var_name v = "" →
       rec "" pkg (types.var_type v) (visited ++ [Some a]) = Returned s e →
       writeType quote heap (S fuel) buf pkg (Some a) visited =
       Returned (buf +:+ "func" +:+ ps +:+ " " +:+ s) e)
  ∧ (∀ s e,
       types.Tuple_Len (types.sig_results sig) ≠ 0 →
       (∀ v, types.sig_results sig = Some [v] → types.var_name v ≠ "") →
       writeTuple heap rec "" pkg (types.sig_results sig) false
         (visited ++ [Some a]) = Returned s e →
       (∃ inner, s = "(" +:+ inner +:+ ")")
       ∧ writeType quote heap (S fuel) buf pkg (Some a) visited =
         Returned (buf +:+ "func" +:+ ps +:+ " " +:+ s) None).
Proof.
  intros Ha Hfresh Hparams.
  assert (Hrec := writeType_appends quote heap fuel pkg (visited ++ [Some a])).
  assert (writeType quote heap (S fuel) buf pkg (Some a) visited =
          writeSignature heap rec (buf +:+ "func") pkg sig
            (visited ++ [Some a])) as ->.
  { simpl. by rewrite (not_seen _ _ Hfresh) /load Ha. }
  unfold writeSignature.
  assert (writeTuple heap rec (buf +:+ "func") pkg (types.sig_params sig)
            (types.sig_variadic sig) (visited ++ [Some a]) =
          Returned ((buf +:+ "func") +:+ ps) e0) as ->.
  { rewrite -{1}(append_nil_r (buf +:+ "func")).
    by rewrite (writeTuple_appends _ _ _ _ Hrec) Hparams. }
  simpl bind. split; [|split].
  - intros Hlen. rewrite bool_decide_eq_true_2 //. by rewrite ?append_assoc.
  - intros v s e Hres Hname Hv. rewrite Hres /=.
    rewrite bool_decide_eq_true_2 // writeType_prepend Hv /=.
    by rewrite ?append_assoc.
  - intros s e Hlen Hnamed Hres.
    destruct (writeTuple_shape _ _ _ _ _ _ Hres) as (-> & inner & ->).
    split; first by exists inner.
    rewrite bool_decide_eq_false_2 //.
    assert (writeTuple heap rec (((buf +:+ "func") +:+ ps) +:+ " ") pkg
              (types.sig_results sig) false (visited ++ [Some a]) =
            Returned (buf +:+ "func" +:+ ps +:+ " " +:+ "(" +:+ inner +:+ ")")
              None) as Htuple.
    { rewrite -(append_nil_r (_ +:+ " ")).
      rewrite (writeTuple_appends _ _ _ _ Hrec) Hres /=.
      by rewrite ?append_assoc. }
    destruct (types.sig_results sig) as [[|v [|v' vs]]|]; try done.
    rewrite bool_decide_eq_false_2 //. by apply Hnamed.
Qed.

(** The loop over the fields, each of which renders without error. *)
Lemma writeFields_text (visited : list types.Type_)
    (fields : list types.Field) (texts : list string) (i : nat)
    (buf : string) :
  Forall2 (λ f s, rec "" pkg (types.field_type f) visited = Returned s None)
    fields texts →
  writeFields quote rec pkg visited fields i buf =
  Returned
    (buf +:+ (if bool_decide (0 < i) then separator fields "; " else "") +:+
     String.concat "; " (zip_with (field_text quote) fields texts)) None.
Proof.
  intros Hfields. revert i buf.
  induction Hfields as [|f s fields texts Hf Hrest IH]; intros i buf.
  { simpl. case_bool_decide; by rewrite ?append_nil_r. }
  simpl writeFields.
  assert (∀ b, rec b pkg (types.field_type f) visited =
                 Returned (b +:+ s) None) as Hf'.
  { intros b. by rewrite writeType_prepend Hf. }
  assert (zip_with (field_text quote) (f :: fields) (s :: texts) =
          field_text quote f s :: zip_with (field_text quote) fields texts)
    as -> by done.
  assert (String.concat "; "
            (field_text quote f s :: zip_with (field_text quote) fields texts) =
          field_text quote f s +:+ separator fields "; " +:+
          String.concat "; " (zip_with (field_text quote) fields texts))
    as ->.
  { destruct Hrest; simpl; by rewrite ?append_nil_r. }
  unfold field_text.
  destruct (types.field_anonymous f); simpl negb; cbv iota;
    rewrite Hf' /= IH; repeat case_bool_decide; try lia; simpl;
    by rewrite ?append_assoc ?append_nil_r ?append_nil_l.
Qed.

(** C8: a struct whose field types render as [texts] is rendered as
    [struct{], its fields separated by a semicolon and a space, and [}];
    a field is its name and a space unless it is embedded, the text of its
    type, and, when its tag is not empty, a space and the quoted tag. *)
Theorem struct_text (buf : string) (a : types.addr)
    (fields : list types.Field) (texts : list string)
    (visited : list types.Type_) :
  heap !! a = Some (types.Struct fields) →
  Some a ∉ visited →
  Forall2
    (λ f s, rec "" pkg (types.field_type f) (visited ++ [Some a]) =
            Returned s None) fields texts →
  writeType quote heap (S fuel) buf pkg (Some a) visited =
  Returned
    (buf +:+ "struct{" +:+
     String.concat "; "
       (zip_with
          (λ f s,
             (if types.field_anonymous f then ""
              else types.field_name f +:+ " ") +:+
             s +:+
             (if bool_decide (types.field_tag f ≠ "")
              then " " +:+ quote (types.field_tag f) else ""))
          fields texts) +:+
     "}") None.
Proof.
  intros Ha Hfresh Hfields.
  simpl. rewrite (not_seen _ _ Hfresh) /load Ha.
  rewrite (writeFields_text _ _ _ _ _ Hfields) /=.
  by rewrite ?append_assoc.
Qed.

End Composite.

Lemma named_type_text_witness :
  sample.heap !! 21 =
    Some (types.Named (Some sample.pkg_io) "Reader" (Some 22))
  ∧ (Some 21 ∉ ([] : list types.Type_))
  ∧ writeType sample.quote sample.heap 1 "" (Some sample.pkg_main) (Some 21)
      [] = Returned "io.Reader" None.
Proof.
  assert (sample.heap !! 21 =
            Some (types.Named (Some sample.pkg_io) "Reader" (Some 22)))
    as Ha by (vm_compute; reflexivity).
  assert (Some 21 ∉ ([] : list types.Type_)) as Hfresh
    by apply not_elem_of_nil.
  split; [exact Ha | split; [exact Hfresh |]].
  exact (named_type_text sample.quote sample.heap 0 (Some sample.pkg_main)
           "" 21 _ _ _ [] Ha Hfresh).
Defined.

Lemma channel_text_witness :
  sample.heap !! 9 = Some (types.Chan types.SendRecv (Some 8))
  ∧ (Some 9 ∉ ([] : list types.Type_))
  ∧ writeType sample.quote sample.heap 2 "" None (Some 8) ([] ++ [Some 9]) =
    Returned "<-chan int" None
  ∧ writeType sample.quote sample.heap 3 "" None (Some 9) [] =
    Returned "chan (<-chan int)" None.
Proof.
  assert (sample.heap !! 9 = Some (types.Chan types.SendRecv (Some 8)))
    as Ha by (vm_compute; reflexivity).
  assert (Some 9 ∉ ([] : list types.Type_)) as Hfresh
    by apply not_elem_of_nil.
  assert (writeType sample.quote sample.heap 2 "" None (Some 8)
            ([] ++ [Some 9]) = Returned "<-chan int" None) as Helem
    by (vm_compute; reflexivity).
  split; [exact Ha | split; [exact Hfresh | split; [exact Helem |]]].
  exact (proj1 (channel_text sample.quote sample.heap 2 None "" 9 _ _ []
                  "<-chan int" Ha Hfresh Helem)).
Defined.

Lemma signature_text_witness :
  sample.heap !! 11 =
    Some (sample.signature [sample.var "a" 0; sample.var "b" 10] true
            [sample.var "" 2; sample.var "" 4])
  ∧ (Some 11 ∉ ([] : list types.Type_))
  ∧ writeTuple sample.heap (writeType sample.quote sample.heap 2) "" None
      (Some [sample.var "a" 0; sample.var "b" 10]) true ([] ++ [Some 11]) =
    Returned "(a int, b ...string)" None
  ∧ writeTuple sample.heap (writeType sample.quote sample.heap 2) "" None
      (Some [sample.var "" 2; sample.var "" 4]) false ([] ++ [Some 11]) =
    Returned "(bool, error)" None
  ∧ writeType sample.quote sample.heap 3 "" None (Some 11) [] =
    Returned "func(a int, b ...string) (bool, error)" None.
Proof.
  assert (sample.heap !! 11 =
            Some (sample.signature [sample.var "a" 0; sample.var "b" 10] true
                    [sample.var "" 2; sample.var "" 4]))
    as Ha by (vm_compute; reflexivity).
  assert (Some 11 ∉ ([] : list types.Type_)) as Hfresh
    by apply not_elem_of_nil.
  assert (writeTuple sample.heap (writeType sample.quote sample.heap 2) ""
            None (Some [sample.var "a" 0; sample.var "b" 10]) true
            ([] ++ [Some 11]) = Returned "(a int, b ...string)" None)
    as Hparams by (vm_compute; reflexivity).
  assert (writeTuple sample.heap (writeType sample.quote sample.heap 2) ""
            None (Some [sample.var "" 2; sample.var "" 4]) false
            ([] ++ [Some 11]) = Returned "(bool, error)" None)
    as Hresults by (vm_compute; reflexivity).
  split; [exact Ha | split; [exact Hfresh | split; [exact Hparams |]]].
  split; [exact Hresults |].
  refine (proj2
            (proj2 (proj2 (signature_text sample.quote sample.heap 2 None ""
                             11 _ [] _ _ Ha Hfresh Hparams))
               "(bool, error)" None _ _ Hresults)).
  - simpl. lia.
  - intros v Hv. discriminate Hv.
Defined.

Lemma struct_text_witness :
  sample.heap !! 13 = Some (types.Struct [sample.field "X" 0 "json:x"])
  ∧ (Some 13 ∉ ([] : list types.Type_))
  ∧ Forall2
      (λ f s,
         writeType sample.quote sample.heap 2 "" None (types.field_type f)
           ([] ++ [Some 13]) = Returned s None)
      [sample.field "X" 0 "json:x"] ["int"]
  ∧ writeType sample.quote sample.heap 3 "" None (Some 13) [] =
    Returned
      ("struct{X int " +:+ strconv.dquote +:+ "json:x" +:+ strconv.dquote +:+
       "}") None.
Proof.
  assert (sample.heap !! 13 =
            Some (types.Struct [sample.field "X" 0 "json:x"]))
    as Ha by (vm_compute; reflexivity).
  assert (Some 13 ∉ ([] : list types.Type_)) as Hfresh
    by apply not_elem_of_nil.
  assert (Forall2
            (λ f s,
               writeType sample.quote sample.heap 2 "" None
                 (types.field_type f) ([] ++ [Some 13]) = Returned s None)
            [sample.field "X" 0 "json:x"] ["int"]) as Hfields.
  { constructor; [vm_compute; reflexivity | constructor]. }
  split; [exact Ha | split; [exact Hfresh | split; [exact Hfields |]]].
  exact (struct_text sample.quote sample.heap 2 None "" 13 _ _ [] Ha Hfresh
           Hfields).
Defined.

(** ** The output that comes with an error *)

Lemma prepend_nonempty (c : ascii) (b : string) (r : outcome) (s : string)
    (e : option string) :
  prepend (String c b) r = Returned s e → s ≠ "".
Proof. destruct r; simpl; try done. by intros [= <- _]. Qed.

Section ErrorOutput.

Variable quote : string → string.
Variable heap : Heap.
Variable pkg : option types.Package.

(** A call hands back the buffer it was given, with what it wrote added. *)
Lemma writeType_extends (fuel : nat) (buf : string) (typ : types.Type_)
    (visited : list types.Type_) (s : string) (e : option string) :
  writeType quote heap fuel buf pkg typ visited = Returned s e →
  ∃ s', s = buf +:+ s'.
Proof.
  rewrite writeType_prepend.
  destruct (writeType _ _ _ _ _ _ _) as [s' e'| | |]; simpl; try done.
  intros [= <- _]. by exists s'.
Qed.

(** An error from a node other than the invalid basic type comes with text
    in the buffer. *)
Lemma error_below_root (fuel : nat) (a : types.addr) (n : types.Node)
    (visited : list types.Type_) (s e : string) :
  heap !! a = Some n →
  Some a ∉ visited →
  (∀ name, n ≠ types.Basic types.Invalid name) →
  writeType quote heap (S fuel) "" pkg (Some a) visited =
    Returned s (Some e) →
  s ≠ "".
Proof.
  intros Ha Hfresh Hvalid. simpl. rewrite (not_seen _ _ Hfresh) /load Ha.
  set (visited' := visited ++ [Some a]).
  assert (Hrec := writeType_appends quote heap fuel pkg visited').
  destruct n.
  - case_bool_decide; last done. subst. by edestruct Hvalid.
  - rewrite writeType_prepend. apply prepend_nonempty.
  - rewrite writeType_prepend. apply prepend_nonempty.
  - rewrite (writeFields_appends _ _ _ _ Hrec _ _ "struct{" "").
    destruct (writeFields _ _ _ _ _ _ _) as [s' [e'|]| | |]; simpl; try done.
    by intros [= <- _].
  - rewrite writeType_prepend. apply prepend_nonempty.
  - intros Htuple. by apply writeTuple_shape in Htuple as [? _].
  - rewrite (writeSignature_appends _ _ _ _ Hrec _ "func" "").
    apply prepend_nonempty.
  - rewrite (writeMethods_appends _ _ _ _ Hrec _ _ "interface{" "").
    destruct (writeMethods _ _ _ _ _ _ _) as [s' [e'|]| | |]; simpl; try done.
    { by intros [= <- _]. }
    rewrite (writeEmbeddeds_appends _ _ _ _ Hrec _ _ _ "interface{" s').
    destruct (writeEmbeddeds _ _ _ _ _ _ _) as [s'' [e''|]| | |];
      simpl; try done.
    by intros [= <- _].
  - rewrite writeType_prepend.
    destruct (writeType _ _ _ _ _ _ _) as [s' [e'|]| | |]; simpl; try done.
    { by intros [= <- _]. }
    rewrite writeType_prepend. apply prepend_nonempty.
  - destruct dir, (chan_parens heap _ elem); rewrite writeType_prepend;
      (destruct (writeType _ _ _ _ _ _ _) as [s' [e'|]| | |];
       simpl; try done); by intros [= <- _].
  - by destruct obj_pkg as [p|]; [destruct (isImported _ _)|].
  - done.
Qed.

End ErrorOutput.

(** ** The slice of visited types *)

Lemma preserves_refl (sl : Slice) (σ : Store) : preserves sl σ σ.
Proof. intros p arr Hp. exists arr. by case_bool_decide. Qed.

Lemma preserves_trans (sl : Slice) (σ1 σ2 σ3 : Store) :
  preserves sl σ1 σ2 → preserves sl σ2 σ3 → preserves sl σ1 σ3.
Proof.
  intros H12 H23 p arr Hp.
  destruct (H12 p arr Hp) as (arr2 & Hp2 & Hlen2 & Hkeep2).
  destruct (H23 p arr2 Hp2) as (arr3 & Hp3 & Hlen3 & Hkeep3).
  exists arr3. split; first done. split; first congruence.
  case_bool_decide; congruence.
Qed.

Lemma preserves_visible (sl : Slice) (σ σ' : Store) :
  preserves sl σ σ' → slice_ok σ sl →
  visible σ' sl = visible σ sl ∧ slice_ok σ' sl.
Proof.
  unfold slice_ok, visible, backing. intros Hkeep Hok.
  destruct (σ !! sl_ptr sl) as [arr|] eqn:Hp.
  - destruct (Hkeep _ _ Hp) as (arr' & -> & Hlen & Htake).
    rewrite bool_decide_eq_true_2 // in Htake. simpl in *.
    split; [done | lia].
  - simpl in Hok. assert (sl_len sl = 0) as -> by lia.
    split; [done | lia].
Qed.

Section Append.

Variable grow : nat → nat.

(** [append] adds [typ] to the visible elements, and what respects the new
    slice respects the old one. *)
Lemma append_sl_spec (σ σ1 : Store) (sl sl1 : Slice) (typ : types.Type_) :
  slice_ok σ sl →
  append_sl grow σ sl typ = (σ1, sl1) →
  visible σ1 sl1 = visible σ sl ++ [typ]
  ∧ slice_ok σ1 sl1
  ∧ ∀ σ2, preserves sl1 σ1 σ2 → preserves sl σ σ2.
Proof.
  unfold slice_ok, visible, append_sl. intros Hok.
  assert (backing σ sl = [] ∨ σ !! sl_ptr sl = Some (backing σ sl)) as Hp.
  { unfold backing. destruct (σ !! sl_ptr sl); auto. }
  set (arr := backing σ sl) in *. clearbody arr.
  case_bool_decide as Hcap; intros [= <- <-];
    rewrite /backing /= lookup_insert_eq /=.
  - destruct Hp as [Hp|Hp].
    { exfalso. rewrite Hp /= in Hcap. lia. }
    split; [|split].
    + rewrite (take_S_r _ _ typ); last by apply list_lookup_insert_eq.
      by rewrite take_insert_ge.
    + rewrite length_insert. lia.
    + intros σ2 Hkeep p arr0 Hparr.
      destruct (decide (p = sl_ptr sl)) as [->|Hne].
      * destruct (Hkeep (sl_ptr sl) (<[sl_len sl:=typ]> arr))
          as (arr2 & Hp2 & Hlen2 & Htake2); first by rewrite lookup_insert_eq.
        rewrite bool_decide_eq_true_2 //= in Htake2.
        exists arr2. split; first done.
        assert (arr0 = arr) as -> by congruence.
        rewrite length_insert in Hlen2. split; first done.
        rewrite bool_decide_eq_true_2 //.
        apply (f_equal (take (sl_len sl))) in Htake2.
        rewrite !take_take in Htake2.
        replace (sl_len sl `min` S (sl_len sl)) with (sl_len sl) in Htake2
          by lia.
        by rewrite Htake2 take_insert_ge.
      * destruct (Hkeep p arr0) as (arr2 & Hp2 & Hlen2 & Heq2);
          first by rewrite lookup_insert_ne.
        rewrite bool_decide_eq_false_2 //= in Heq2. subst arr2.
        exists arr0. split; first done. split; first done.
        by case_bool_decide.
  - assert (length (take (sl_len sl) arr) = sl_len sl) as Hlen.
    { rewrite length_take. lia. }
    split; [|split].
    + rewrite take_app_ge; last lia.
      rewrite Hlen. by replace (S (sl_len sl) - sl_len sl) with 1 by lia.
    + rewrite length_app Hlen /=. lia.
    + intros σ2 Hkeep p arr0 Hparr.
      assert (p ≠ fresh (dom σ)) as Hne.
      { intros ->. apply (is_fresh (dom σ)). apply elem_of_dom. eauto. }
      destruct (Hkeep p arr0) as (arr2 & Hp2 & Hlen2 & Heq2);
        first by rewrite lookup_insert_ne.
      rewrite bool_decide_eq_false_2 //= in Heq2. subst arr2.
      exists arr0. split; first done. split; first done.
      by case_bool_decide.
Qed.

End Append.

Lemma agrees_ret (sl : Slice) (σ : Store) (r : outcome) :
  agrees sl σ (σ, r) r.
Proof. split; [done | apply preserves_refl]. Qed.

Section Agreement.

Variable quote : string → string.
Variable heap : Heap.
Variable pkg : option types.Package.

(** The slice and the list all calls of a loop are given, and the memory
    [σ0] the loop starts from. *)
Variable sl : Slice.
Variable vis : list types.Type_.
Variable σ0 : Store.

Lemma agrees_bind (σ : Store) (x : Store * outcome) (r : outcome)
    (k_sl : Store → string → option string → Store * outcome)
    (k : string → option string → outcome) :
  preserves sl σ0 σ →
  agrees sl σ x r →
  (∀ σ' b e, preserves sl σ0 σ' → agrees sl σ' (k_sl σ' b e) (k b e)) →
  agrees sl σ (bind_sl x k_sl) (bind r k).
Proof.
  intros Hσ [<- Hkeep] Hk. destruct x as [σ1 [b e| | |]]; simpl in *;
    try by split.
  destruct (Hk σ1 b e) as [Hres Hkeep']; first by eapply preserves_trans.
  split; first done. by eapply preserves_trans.
Qed.

Lemma agrees_check (σ : Store) (b : string) (e : option string)
    (k_sl : Store → string → Store * outcome) (k : string → outcome) :
  preserves sl σ0 σ →
  (∀ σ' b, preserves sl σ0 σ' → agrees sl σ' (k_sl σ' b) (k b)) →
  agrees sl σ (check_sl σ b e k_sl) (check b e k).
Proof. intros Hσ Hk. destruct e; simpl; [apply agrees_ret | by apply Hk]. Qed.

Variable rec_sl : writer_sl.
Variable rec : writer.
Hypothesis rec_agrees : ∀ σ buf typ,
  preserves sl σ0 σ →
  agrees sl σ (rec_sl σ buf pkg typ sl) (rec buf pkg typ vis).

Lemma writeVariadic_sl_agrees (σ : Store) (buf : string)
    (typ : types.Type_) (k_sl : Store → string → Store * outcome)
    (k : string → outcome) :
  preserves sl σ0 σ →
  (∀ σ' b, preserves sl σ0 σ' → agrees sl σ' (k_sl σ' b) (k b)) →
  agrees sl σ (writeVariadic_sl heap rec_sl σ buf pkg typ sl k_sl)
    (writeVariadic heap rec buf pkg typ vis k).
Proof.
  intros Hσ Hk. unfold writeVariadic_sl, writeVariadic, load.
  destruct typ as [a|]; last apply agrees_ret.
  destruct (heap !! a) as [n|]; last apply agrees_ret.
  assert (Hfallback :
    agrees sl σ
      match Underlying n (Some a) with
      | Some u =>
          match heap !! u with
          | Some (types.Basic kind _) =>
              if bool_decide (kind = types.String)
              then bind_sl (rec_sl σ buf pkg (Some a) sl)
                     (λ σ buf _, k_sl σ (buf +:+ "..."))
              else (σ, Panicked string_type_expected)
          | Some _ => (σ, Panicked string_type_expected)
          | None => (σ, Dangling)
          end
      | None => (σ, Panicked string_type_expected)
      end
      match Underlying n (Some a) with
      | Some u =>
          match heap !! u with
          | Some (types.Basic kind _) =>
              if bool_decide (kind = types.String)
              then call (buf, _) ← rec buf pkg (Some a) vis;
                   k (buf +:+ "...")
              else Panicked string_type_expected
          | Some _ => Panicked string_type_expected
          | None => Dangling
          end
      | None => Panicked string_type_expected
      end).
  { destruct (Underlying n (Some a)) as [u|]; last apply agrees_ret.
    destruct (heap !! u) as [[]|]; try apply agrees_ret.
    case_bool_decide; last apply agrees_ret.
    apply agrees_bind; auto. }
  destruct n; try exact Hfallback.
  apply agrees_bind; auto.
Qed.

Lemma writeTuple_loop_sl_agrees (len : nat) (variadic : bool)
    (vars : list types.Var) (i : nat) (σ : Store) (buf : string) :
  preserves sl σ0 σ →
  agrees sl σ
    (writeTuple_loop_sl heap rec_sl pkg len variadic sl vars i σ buf)
    (writeTuple_loop heap rec pkg len variadic vis vars i buf).
Proof.
  revert i σ buf.
  induction vars as [|v rest IH]; intros i σ buf Hσ; simpl;
    first apply agrees_ret.
  destruct (variadic && bool_decide (i = len - 1)).
  - apply writeVariadic_sl_agrees; auto.
  - apply agrees_bind; auto.
Qed.

Lemma writeTuple_sl_agrees (σ : Store) (buf : string)
    (tup : option types.Tuple) (variadic : bool) :
  preserves sl σ0 σ →
  agrees sl σ (writeTuple_sl heap rec_sl σ buf pkg tup variadic sl)
    (writeTuple heap rec buf pkg tup variadic vis).
Proof.
  intros Hσ. unfold writeTuple_sl, writeTuple.
  apply agrees_bind; first done.
  - destruct tup; [by apply writeTuple_loop_sl_agrees | apply agrees_ret].
  - intros σ' b _ _. apply agrees_ret.
Qed.

Lemma writeSignature_sl_agrees (σ : Store) (buf : string)
    (sig : types.Signature) :
  preserves sl σ0 σ →
  agrees sl σ (writeSignature_sl heap rec_sl σ buf pkg sig sl)
    (writeSignature heap rec buf pkg sig vis).
Proof.
  intros Hσ. unfold writeSignature_sl, writeSignature.
  apply agrees_bind; [done | by apply writeTuple_sl_agrees |].
  intros σ' b _ Hσ'. case_bool_decide; first apply agrees_ret.
  destruct (types.sig_results sig) as [[|v [|v' vs]]|];
    try by apply writeTuple_sl_agrees.
  case_bool_decide; [by apply rec_agrees | by apply writeTuple_sl_agrees].
Qed.

Lemma writeFields_sl_agrees (fields : list types.Field) (i : nat)
    (σ : Store) (buf : string) :
  preserves sl σ0 σ →
  agrees sl σ (writeFields_sl quote rec_sl pkg sl fields i σ buf)
    (writeFields quote rec pkg vis fields i buf).
Proof.
  revert i σ buf.
  induction fields as [|f rest IH]; intros i σ buf Hσ; simpl;
    first apply agrees_ret.
  apply agrees_bind; auto.
  intros σ' b e Hσ'. apply agrees_check; auto.
Qed.

Lemma writeMethods_sl_agrees (methods : list types.Func) (i : nat)
    (σ : Store) (buf : string) :
  preserves sl σ0 σ →
  agrees sl σ (writeMethods_sl heap rec_sl pkg sl methods i σ buf)
    (writeMethods heap rec pkg vis methods i buf).
Proof.
  revert i σ buf.
  induction methods as [|m rest IH]; intros i σ buf Hσ; simpl;
    first apply agrees_ret.
  apply agrees_bind; [done | by apply writeSignature_sl_agrees |].
  intros σ' b e Hσ'. apply agrees_check; auto.
Qed.

Lemma writeEmbeddeds_sl_agrees (nmethods : nat)
    (embeddeds : list types.Type_) (i : nat) (σ : Store) (buf : string) :
  preserves sl σ0 σ →
  agrees sl σ
    (writeEmbeddeds_sl heap rec_sl pkg sl nmethods embeddeds i σ buf)
    (writeEmbeddeds heap rec pkg vis nmethods embeddeds i buf).
Proof.
  revert i σ buf.
  induction embeddeds as [|t rest IH]; intros i σ buf Hσ; simpl;
    first apply agrees_ret.
  unfold Embedded, load.
  destruct t as [a|]; last apply agrees_ret.
  destruct (heap !! a) as [[]|]; try apply agrees_ret.
  apply agrees_bind; auto.
  intros σ' b e Hσ'. apply agrees_check; auto.
Qed.

End Agreement.

Section SliceRenderer.

Variable quote : string → string.
Variable heap : Heap.
Variable grow : nat → nat.
Variable pkg : option types.Package.

(** The renderer on slices returns what the renderer on lists returns on
    the visible elements of the slice, and leaves those elements in place. *)
Lemma writeType_sl_agrees (fuel : nat) (σ : Store) (buf : string)
    (typ : types.Type_) (sl : Slice) :
  slice_ok σ sl →
  agrees sl σ (writeType_sl quote heap grow fuel σ buf pkg typ sl)
    (writeType quote heap fuel buf pkg typ (visible σ sl)).
Proof.
  revert σ buf typ sl.
  induction fuel as [|fuel IH]; intros σ buf typ sl Hok;
    first apply agrees_ret.
  simpl. destruct (existsb _ (visible σ sl)).
  { destruct (cycle_marker heap typ); apply agrees_ret. }
  destruct (append_sl grow σ sl typ) as [σ1 sl1] eqn:Happend.
  destruct (append_sl_spec grow _ _ _ _ _ Hok Happend)
    as (Hvis & Hok1 & Hback).
  rewrite -Hvis.
  assert (∀ x r, agrees sl1 σ1 x r → agrees sl σ x r) as Hless.
  { intros x r [Hres Hkeep]. split; [done | by apply Hback]. }
  apply Hless.
  assert (∀ σ' buf' typ',
            preserves sl1 σ1 σ' →
            agrees sl1 σ'
              (writeType_sl quote heap grow fuel σ' buf' pkg typ' sl1)
              (writeType quote heap fuel buf' pkg typ' (visible σ1 sl1)))
    as Hrec.
  { intros σ' buf' typ' Hσ'.
    destruct (preserves_visible _ _ _ Hσ' Hok1) as [<- Hok'].
    by apply IH. }
  pose proof (preserves_refl sl1 σ1) as Hrefl.
  destruct typ as [a|]; last apply agrees_ret.
  unfold load. destruct (heap !! a) as [n|]; last apply agrees_ret.
  destruct n; try by apply Hrec.
  - repeat case_bool_decide; apply agrees_ret.
  - eapply agrees_bind; [done | by eapply writeFields_sl_agrees |].
    intros σ' b e Hσ'. eapply agrees_check; [done |].
    intros. apply agrees_ret.
  - by eapply writeTuple_sl_agrees.
  - by eapply writeSignature_sl_agrees.
  - eapply agrees_bind; [done | by eapply writeMethods_sl_agrees |].
    intros σ' b e Hσ'. eapply agrees_check; [done |].
    intros σ'' b' Hσ''.
    eapply agrees_bind; [done | by eapply writeEmbeddeds_sl_agrees |].
    intros σ3 b3 e3 Hσ3. eapply agrees_check; [done |].
    intros. apply agrees_ret.
  - eapply agrees_bind; [done | by apply Hrec |].
    intros σ' b e Hσ'. eapply agrees_check; [done |].
    intros. by apply Hrec.
  - eapply agrees_bind; [done | by apply Hrec |].
    intros σ' b e Hσ'. eapply agrees_check; [done |].
    intros. apply agrees_ret.
  - destruct obj_pkg; last apply agrees_ret.
    destruct (isImported _ _); apply agrees_ret.
  - apply agrees_ret.
Qed.

End SliceRenderer.

Section Determinism.

Variable quote : string → string.
Variable heap : Heap.
Variable pkg : option types.Package.
Variable typ : types.Type_.

Lemma writeType_sl_empty (grow : nat → nat) (fuel : nat) (σ : Store)
    (sl : Slice) :
  sl_len sl = 0 → size heap < fuel →
  (writeType_sl quote heap grow fuel σ "" pkg typ sl).2 =
  typeString quote heap pkg typ.
Proof.
  intros Hlen Hfuel.
  assert (slice_ok σ sl) as Hok by (unfold slice_ok; lia).
  destruct (writeType_sl_agrees quote heap grow pkg fuel σ "" typ sl Hok)
    as [-> _].
  assert (visible σ sl = []) as -> by (unfold visible; by rewrite Hlen).
  apply writeType_fuel_irrelevant; rewrite unvisited_nil; lia.
Qed.

(** C9: two calls of the renderer on the same graph, scope and root return
    the same outcome, whatever the memory of [visited] arrays each of them
    finds, whatever capacities [append] chooses and whatever fuel above the
    number of nodes the run is given; the outcome is that of [typeString],
    which the code obtains with a new array, and it is a return or a panic
    of the code, never the end of the fuel.  The graph is only read. *)
Theorem typeString_deterministic (grow1 grow2 : nat → nat)
    (fuel1 fuel2 : nat) (σ1 σ2 : Store) (sl1 sl2 : Slice) :
  sl_len sl1 = 0 → sl_len sl2 = 0 →
  size heap < fuel1 → size heap < fuel2 →
  (writeType_sl quote heap grow1 fuel1 σ1 "" pkg typ sl1).2 =
  (writeType_sl quote heap grow2 fuel2 σ2 "" pkg typ sl2).2
  ∧ typeString_sl quote heap grow1 pkg typ = typeString quote heap pkg typ
  ∧ typeString quote heap pkg typ ≠ OutOfFuel.
Proof.
  intros Hlen1 Hlen2 Hfuel1 Hfuel2. split; [|split].
  - by rewrite !writeType_sl_empty.
  - exact (writeType_sl_empty grow1 (S (size heap)) make_visited.1
             make_visited.2 eq_refl (Nat.lt_succ_diag_r _)).
  - apply typeString_finishes.
Qed.

End Determinism.

Lemma typeString_deterministic_witness :
  sl_len {| sl_ptr := 0; sl_len := 0 |} = 0
  ∧ sl_len {| sl_ptr := 5; sl_len := 0 |} = 0
  ∧ size sample.heap < 30
  ∧ size sample.heap < 40
  ∧ (writeType_sl sample.quote sample.heap (λ c, 2 * c) 30 ∅ "" None
       (Some 27) {| sl_ptr := 0; sl_len := 0 |}).2 =
    (writeType_sl sample.quote sample.heap S 40 {[ 5 := [Some 24] ]} "" None
       (Some 27) {| sl_ptr := 5; sl_len := 0 |}).2
  ∧ typeString_sl sample.quote sample.heap (λ c, 2 * c) None (Some 27) =
    typeString sample.quote sample.heap None (Some 27)
  ∧ typeString sample.quote sample.heap None (Some 27) ≠ OutOfFuel.
Proof.
  assert (size sample.heap < 30) as Hfuel1 by (vm_compute; lia).
  assert (size sample.heap < 40) as Hfuel2 by (vm_compute; lia).
  split; [reflexivity | split; [reflexivity |]].
  split; [exact Hfuel1 | split; [exact Hfuel2 |]].
  exact (typeString_deterministic sample.quote sample.heap None (Some 27)
           (λ c, 2 * c) S 30 40 ∅ {[ 5 := [Some 24] ]}
           {| sl_ptr := 0; sl_len := 0 |} {| sl_ptr := 5; sl_len := 0 |}
           eq_refl eq_refl Hfuel1 Hfuel2).
Defined.

Example render_shared_sl :
  typeString_sl sample.quote sample.heap (λ c, 2 * c) None (Some 27) =
  Returned "struct{a *struct{X int}; b *struct{X int}}" None.
Proof. vm_compute. reflexivity. Qed.

(** ** Closed heaps *)

Lemma closed_map_Forall (heap : Heap) :
  map_Forall (λ _ n, Forall (known heap) (refs n)) heap → closed heap.
Proof. intros Hall a n Hn. by apply (Hall a n). Qed.

Example sample_closed : closed sample.heap.
Proof.
  apply closed_map_Forall.
  apply (bool_decide_unpack _). vm_compute. exact I.
Qed.

(** On a closed heap [typeString] returns or panics. *)
Lemma typeString_returns_or_panics (quote : string → string) (heap : Heap)
    (pkg : option types.Package) (typ : types.Type_) :
  closed heap → known heap typ →
  (∃ s e, typeString quote heap pkg typ = Returned s e)
  ∨ (∃ msg, typeString quote heap pkg typ = Panicked msg).
Proof.
  intros Hclosed Hknown.
  pose proof (typeString_finishes quote heap pkg typ) as Hfuel.
  pose proof (writeType_known quote heap (S (size heap)) "" pkg typ []
                Hclosed Hknown) as Hnode.
  unfold typeString in *.
  destruct (writeType _ _ _ _ _ _ _); [left | right | |]; by eauto.
Qed.

(** ** Where errors come from *)

(** An error that a call returns is the one made for the invalid basic
    type, and the heap holds such a node.  The converse fails for a node that
    is only reached through a tuple, whose loop drops the error. *)
Lemma errors_from_invalid (quote : string → string) (heap : Heap)
    (fuel : nat) (buf : string) (pkg : option types.Package)
    (typ : types.Type_) (visited : list types.Type_) (s e : string) :
  writeType quote heap fuel buf pkg typ visited = Returned s (Some e) →
  e = "TODO" ∧ ∃ a name, heap !! a = Some (types.Basic types.Invalid name).
Proof.
  set (P := λ r : outcome, ∀ s e, r = Returned s (Some e) →
    e = "TODO" ∧ ∃ a name, heap !! a = Some (types.Basic types.Invalid name)).
  assert (∀ r k, P r → (∀ b e, P (k b e)) → P (bind r k)) as Hbind.
  { intros r k Hr Hk s' e'. destruct r; simpl; try done. apply Hk. }
  revert buf typ visited s e. change (∀ buf typ visited,
    P (writeType quote heap fuel buf pkg typ visited)).
  induction fuel as [|fuel IH]; intros buf typ visited; first done.
  apply (writeType_related (λ r _, P r)) with (fuel2 := fuel) (ok := λ _, True);
    try done.
  - intros r1 _ k1 _ Hr Hk. by apply Hbind.
  - intros r1 _ k1 _ Hr Hk s' e'.
    destruct r1 as [b1 [e1|]| | |]; simpl; try done.
    + intros [= <- <-]. by eapply Hr.
    + apply Hk.
  - intros. by apply Forall_true.
  - intros a name b _ Hinvalid s' e' [= _ <-]. eauto.
Qed.

(** ** The steps of a call *)

Lemma bind_check_ret (r : outcome) :
  bind r (λ b e, check b e (λ b, Returned b None)) = r.
Proof. by destruct r as [b [e|]| | |]. Qed.

Section Steps.

Variable quote : string → string.
Variable heap : Heap.
Variable pkg : option types.Package.

Section Loops.

Variable rec : writer.
Variable visited : list types.Type_.

Lemma exec_app (l1 l2 : list step) (buf : string) :
  exec rec pkg visited (l1 ++ l2) buf =
  call (b, e) ← exec rec pkg visited l1 buf;
  check b e (exec rec pkg visited l2).
Proof.
  revert buf. induction l1 as [|[s|checked typ|e|msg|] l1 IH]; intros buf;
    simpl; try done.
  rewrite bind_bind. apply bind_ext. intros b [e|]; destruct checked; simpl;
    by rewrite ?IH.
Qed.

Lemma exec_write_if (c : bool) (s : string) (l : list step) (buf : string) :
  exec rec pkg visited (write_if c s ++ l) buf =
  exec rec pkg visited l (if c then buf +:+ s else buf).
Proof. by destruct c. Qed.

Lemma writeVariadic_exec (buf : string) (typ : types.Type_)
    (k : string → outcome) (steps : list step) :
  (∀ b, k b = exec rec pkg visited steps b) →
  writeVariadic heap rec buf pkg typ visited k =
  exec rec pkg visited (variadic_steps heap typ ++ steps) buf.
Proof.
  intros Hk. unfold writeVariadic, variadic_steps, load.
  destruct typ as [a|]; last done.
  destruct (heap !! a) as [n|] eqn:Hn; last done.
  assert (Hfallback :
    match Underlying n (Some a) with
    | Some u =>
        match heap !! u with
        | Some (types.Basic kind _) =>
            if bool_decide (kind = types.String)
            then call (buf, _) ← rec buf pkg (Some a) visited;
                 k (buf +:+ "...")
            else Panicked string_type_expected
        | Some _ => Panicked string_type_expected
        | None => Dangling
        end
    | None => Panicked string_type_expected
    end =
    exec rec pkg visited
      (match Underlying n (Some a) with
       | Some u =>
           match heap !! u with
           | Some t =>
               if is_string_basic t then [Call false (Some a); Write "..."]
               else [Panic string_type_expected]
           | None => [Missing]
           end
       | None => [Panic string_type_expected]
       end ++ steps) buf).
  { destruct (Underlying n (Some a)) as [u|]; last done.
    destruct (heap !! u) as [[]|]; try done. simpl.
    case_bool_decide; last done. simpl.
    apply bind_ext. intros b _. apply Hk. }
  destruct n; try exact Hfallback.
  simpl. apply bind_ext. intros b _. apply Hk.
Qed.

Lemma writeTuple_loop_exec (len : nat) (variadic : bool)
    (vars : list types.Var) (i : nat) (buf : string) (steps : list step) :
  (call (b, _) ← writeTuple_loop heap rec pkg len variadic visited vars i buf;
   exec rec pkg visited steps b) =
  exec rec pkg visited (vars_steps heap len variadic vars i ++ steps) buf.
Proof.
  revert i buf. induction vars as [|v rest IH]; intros i buf; first done.
  simpl. rewrite -!app_assoc !exec_write_if.
  destruct (variadic && bool_decide (i = len - 1)).
  - rewrite -writeVariadic_bind. apply writeVariadic_exec.
    intros b. apply IH.
  - simpl. rewrite bind_bind. apply bind_ext. intros b _. apply IH.
Qed.

Lemma writeTuple_exec (buf : string) (tup : option types.Tuple)
    (variadic : bool) (steps : list step) :
  (call (b, _) ← writeTuple heap rec buf pkg tup variadic visited;
   exec rec pkg visited steps b) =
  exec rec pkg visited (tuple_steps heap tup variadic ++ steps) buf.
Proof.
  unfold writeTuple, tuple_steps. rewrite bind_bind. simpl.
  rewrite -app_assoc. destruct tup as [vars|]; last done.
  rewrite -writeTuple_loop_exec. by apply bind_ext.
Qed.

Lemma writeTuple_checked (buf : string) (tup : option types.Tuple)
    (variadic : bool) (k : string → outcome) :
  (call (b, e) ← writeTuple heap rec buf pkg tup variadic visited;
   check b e k) =
  call (b, _) ← writeTuple heap rec buf pkg tup variadic visited; k b.
Proof.
  unfold writeTuple. rewrite !bind_bind. by apply bind_ext.
Qed.

Lemma writeSignature_exec (buf : string) (sig : types.Signature)
    (steps : list step) :
  (call (b, e) ← writeSignature heap rec buf pkg sig visited;
   check b e (exec rec pkg visited steps)) =
  exec rec pkg visited (signature_steps heap sig ++ steps) buf.
Proof.
  unfold writeSignature, signature_steps.
  rewrite bind_bind -app_assoc -writeTuple_exec.
  apply bind_ext. intros b _.
  case_bool_decide; first done.
  simpl.
  destruct (types.sig_results sig) as [[|v [|v' vs]]|];
    rewrite ?writeTuple_checked ?writeTuple_exec //.
  case_bool_decide; by rewrite ?writeTuple_checked ?writeTuple_exec.
Qed.

Lemma writeFields_exec (fields : list types.Field) (i : nat) (buf : string)
    (steps : list step) :
  (call (b, e) ← writeFields quote rec pkg visited fields i buf;
   check b e (exec rec pkg visited steps)) =
  exec rec pkg visited (fields_steps quote fields i ++ steps) buf.
Proof.
  revert i buf. induction fields as [|f rest IH]; intros i buf; first done.
  simpl. rewrite -!app_assoc !exec_write_if. simpl.
  rewrite bind_bind. apply bind_ext. intros b [e|]; first done.
  simpl. by rewrite -app_assoc exec_write_if IH.
Qed.

Lemma writeMethods_exec (methods : list types.Func) (i : nat) (buf : string)
    (steps : list step) :
  (call (b, e) ← writeMethods heap rec pkg visited methods i buf;
   check b e (exec rec pkg visited steps)) =
  exec rec pkg visited (methods_steps heap methods i ++ steps) buf.
Proof.
  revert i buf. induction methods as [|m rest IH]; intros i buf; first done.
  cbn [writeMethods methods_steps].
  remember (signature_steps heap (types.func_type m)) as sig_steps.
  rewrite -!app_assoc (exec_write_if (bool_decide (0 < i))). cbn [app exec].
  subst sig_steps. rewrite -writeSignature_exec bind_bind.
  apply bind_ext. intros b [e|]; first done. apply IH.
Qed.

Lemma writeEmbeddeds_exec (nmethods : nat) (embeddeds : list types.Type_)
    (i : nat) (buf : string) (steps : list step) :
  (call (b, e) ← writeEmbeddeds heap rec pkg visited nmethods embeddeds i buf;
   check b e (exec rec pkg visited steps)) =
  exec rec pkg visited (embeddeds_steps heap nmethods embeddeds i ++ steps) buf.
Proof.
  revert i buf. induction embeddeds as [|t rest IH]; intros i buf; first done.
  simpl. rewrite -!app_assoc (exec_write_if (_ || _)).
  unfold Embedded, embedded_steps, load.
  destruct t as [a|]; last done.
  destruct (heap !! a) as [[]|]; try done.
  simpl. rewrite bind_bind.
  apply bind_ext. intros b [e|]; first done. apply IH.
Qed.

End Loops.

(** A call on a node that is not on [visited] runs the steps of the node,
    and the calls among them are given [visited] with the node added. *)
Lemma writeType_program (fuel : nat) (buf : string) (a : types.addr)
    (n : types.Node) (visited : list types.Type_) :
  heap !! a = Some n →
  Some a ∉ visited →
  writeType quote heap (S fuel) buf pkg (Some a) visited =
  exec (writeType quote heap fuel) pkg (visited ++ [Some a])
    (program quote heap pkg n) buf.
Proof.
  intros Ha Hfresh. simpl. rewrite (not_seen _ _ Hfresh) /load Ha.
  destruct n; cbn [program].
  - case_bool_decide; first done. by rewrite exec_write_if.
  - simpl. by rewrite bind_check_ret.
  - simpl. by rewrite bind_check_ret.
  - cbn [exec]. by rewrite -writeFields_exec.
  - simpl. by rewrite bind_check_ret.
  - rewrite -(app_nil_r (tuple_steps _ _ _)) -writeTuple_exec.
    rewrite -{1}(bind_check_ret (writeTuple _ _ _ _ _ _ _)).
    by rewrite writeTuple_checked.
  - cbn [exec].
    rewrite -(app_nil_r (signature_steps _ _)) -writeSignature_exec.
    by rewrite bind_check_ret.
  - cbn [exec]. rewrite -writeMethods_exec.
    apply bind_ext. intros b [e|]; first done.
    simpl. by rewrite -writeEmbeddeds_exec.
  - simpl. apply bind_ext. intros b [e|]; first done. simpl.
    by rewrite bind_check_ret.
  - cbn [exec]. rewrite exec_write_if. simpl.
    apply bind_ext. intros b [e|]; first done.
    simpl. by destruct (chan_parens _ _ _).
  - destruct obj_pkg; last done. by destruct (isImported _ _).
  - done.
Qed.

End Steps.

(** ** The calls a run comes to *)

(** The steps only add to the buffer. *)
Lemma exec_extends (rec : writer) (pkg : option types.Package)
    (visited : list types.Type_) (steps : list step) (buf s : string)
    (e : option string) :
  (∀ b typ s e, rec b pkg typ visited = Returned s e → ∃ w, s = b +:+ w) →
  exec rec pkg visited steps buf = Returned s e →
  ∃ w, s = buf +:+ w.
Proof.
  intros Hrec. revert buf.
  induction steps as [|[x|checked typ|e'|msg|] steps IH]; intros buf; simpl;
    try done.
  - intros [= <- _]. exists "". by rewrite append_nil_r.
  - intros (w & ->)%IH. exists (x +:+ w). by rewrite append_assoc.
  - destruct (rec buf pkg typ visited) as [b1 e1| | |] eqn:Hcall; simpl;
      try done.
    destruct (Hrec _ _ _ _ Hcall) as [w1 ->].
    assert (Returned (buf +:+ w1) e1 = Returned s e ∨
            exec rec pkg visited steps (buf +:+ w1) = Returned s e →
            ∃ w, s = buf +:+ w) as Hrest.
    { intros [[= <- _]|(w & ->)%IH]; first by eauto.
      exists (w1 +:+ w). by rewrite append_assoc. }
    destruct checked, e1; simpl; auto.
  - intros [= <- _]. exists "". by rewrite append_nil_r.
Qed.

(** An error comes from a [Fail] or from a call whose error is returned,
    and the steps before it have run to their end. *)
Lemma exec_error (rec : writer) (pkg : option types.Package)
    (visited : list types.Type_) (steps : list step) (buf s e : string) :
  exec rec pkg visited steps buf = Returned s (Some e) →
  (∃ before after,
     steps = before ++ Fail e :: after
     ∧ exec rec pkg visited before buf = Returned s None)
  ∨ (∃ before c after buf',
       steps = before ++ Call true c :: after
       ∧ exec rec pkg visited before buf = Returned buf' None
       ∧ rec buf' pkg c visited = Returned s (Some e)).
Proof.
  revert buf.
  induction steps as [|st steps IH]; intros buf; first done.
  assert (∀ buf1,
    exec rec pkg visited [st] buf = Returned buf1 None →
    exec rec pkg visited steps buf1 = Returned s (Some e) →
    (∃ before after,
       st :: steps = before ++ Fail e :: after
       ∧ exec rec pkg visited before buf = Returned s None)
    ∨ (∃ before c after buf',
         st :: steps = before ++ Call true c :: after
         ∧ exec rec pkg visited before buf = Returned buf' None
         ∧ rec buf' pkg c visited = Returned s (Some e))) as Hnext.
  { intros buf1 Hst Hsteps.
    assert (∀ l, exec rec pkg visited (st :: l) buf =
                 exec rec pkg visited l buf1) as Hcons.
    { intros l. change (st :: l) with ([st] ++ l).
      by rewrite exec_app Hst. }
    destruct (IH _ Hsteps)
      as [(before & after & -> & Hbefore)
         |(before & c & after & buf' & -> & Hbefore & Hcall)].
    - left. exists (st :: before), after. by rewrite Hcons.
    - right. exists (st :: before), c, after, buf'. by rewrite Hcons. }
  destruct st as [x|checked typ|e'|msg|]; simpl; try done.
  - by apply Hnext.
  - destruct (rec buf pkg typ visited) as [b1 e1| | |] eqn:Hcall; simpl;
      try done.
    destruct checked, e1 as [e1|]; simpl.
    + intros [= <- <-]. right. by exists [], typ, steps, buf.
    + apply Hnext. simpl. by rewrite Hcall.
    + apply Hnext. simpl. by rewrite Hcall.
    + apply Hnext. simpl. by rewrite Hcall.
  - intros [= <- <-]. left. by exists [], steps.
Qed.

(** [Fail] is a step of the invalid basic type only. *)

Section NoFail.

Variable quote : string → string.
Variable heap : Heap.

Lemma write_if_no_fail (c : bool) (s : string) :
  forallb (negb ∘ fails) (write_if c s) = true.
Proof. by destruct c. Qed.

Lemma vars_steps_no_fail (len : nat) (variadic : bool)
    (vars : list types.Var) (i : nat) :
  forallb (negb ∘ fails) (vars_steps heap len variadic vars i) = true.
Proof.
  revert i. induction vars as [|v rest IH]; intros i; first done.
  simpl. rewrite !forallb_app !write_if_no_fail IH /= andb_true_r.
  destruct (variadic && _); last done.
  unfold variadic_steps. destruct (types.var_type v) as [a|]; last done.
  destruct (heap !! a) as [n|]; last done.
  assert (forallb (negb ∘ fails)
            match Underlying n (Some a) with
            | Some u =>
                match heap !! u with
                | Some t =>
                    if is_string_basic t
                    then [Call false (Some a); Write "..."]
                    else [Panic string_type_expected]
                | None => [Missing]
                end
            | None => [Panic string_type_expected]
            end = true) as Hfallback.
  { destruct (Underlying n (Some a)) as [u|]; last done.
    destruct (heap !! u) as [t|]; last done. by destruct (is_string_basic t). }
  destruct n; by try exact Hfallback.
Qed.

Lemma no_fail_cons (st : step) (steps : list step) :
  fails st = false → forallb (negb ∘ fails) steps = true →
  forallb (negb ∘ fails) (st :: steps) = true.
Proof. intros Hst Hsteps. simpl. by rewrite Hst. Qed.

Lemma no_fail_app (l1 l2 : list step) :
  forallb (negb ∘ fails) l1 = true → forallb (negb ∘ fails) l2 = true →
  forallb (negb ∘ fails) (l1 ++ l2) = true.
Proof. intros H1 H2. by rewrite forallb_app H1 H2. Qed.

Lemma tuple_steps_no_fail (tup : option types.Tuple) (variadic : bool) :
  forallb (negb ∘ fails) (tuple_steps heap tup variadic) = true.
Proof.
  unfold tuple_steps. apply no_fail_cons; first done.
  rewrite forallb_app /= andb_true_r.
  destruct tup; [apply vars_steps_no_fail | done].
Qed.

Lemma signature_steps_no_fail (sig : types.Signature) :
  forallb (negb ∘ fails) (signature_steps heap sig) = true.
Proof.
  unfold signature_steps. rewrite forallb_app tuple_steps_no_fail.
  case_bool_decide; first done.
  apply no_fail_cons; first done.
  destruct (types.sig_results sig) as [[|v [|v' vs]]|];
    try apply tuple_steps_no_fail.
  case_bool_decide; [done | apply tuple_steps_no_fail].
Qed.

Lemma fields_steps_no_fail (fields : list types.Field) (i : nat) :
  forallb (negb ∘ fails) (fields_steps quote fields i) = true.
Proof.
  revert i. induction fields as [|f rest IH]; intros i; first done.
  simpl. by rewrite !forallb_app !write_if_no_fail /= forallb_app
                    write_if_no_fail IH.
Qed.

Lemma methods_steps_no_fail (methods : list types.Func) (i : nat) :
  forallb (negb ∘ fails) (methods_steps heap methods i) = true.
Proof.
  revert i. induction methods as [|m rest IH]; intros i; first done.
  cbn [methods_steps].
  apply no_fail_app; first apply write_if_no_fail.
  apply (no_fail_app [_]); first done.
  apply no_fail_app; [apply signature_steps_no_fail | apply IH].
Qed.

Lemma embeddeds_steps_no_fail (nmethods : nat)
    (embeddeds : list types.Type_) (i : nat) :
  forallb (negb ∘ fails) (embeddeds_steps heap nmethods embeddeds i) = true.
Proof.
  revert i. induction embeddeds as [|t rest IH]; intros i; first done.
  simpl. rewrite !forallb_app write_if_no_fail IH /= andb_true_r.
  unfold embedded_steps. destruct t as [a|]; last done.
  by destruct (heap !! a) as [[]|].
Qed.

Lemma program_fail (pkg : option types.Package) (n : types.Node)
    (before after : list step) (e : string) :
  program quote heap pkg n = before ++ Fail e :: after →
  before = [] ∧ e = "TODO" ∧ ∃ name, n = types.Basic types.Invalid name.
Proof.
  intros Hsplit.
  assert (forallb (negb ∘ fails) (program quote heap pkg n) = false)
    as Hfails.
  { rewrite Hsplit forallb_app /=. apply andb_false_r. }
  destruct n; cbn [program] in *.
  - case_bool_decide as Hkind.
    + subst kind. destruct before as [|st [|st' before]]; try done.
      injection Hsplit as [= <-]. eauto.
    + by rewrite forallb_app write_if_no_fail in Hfails.
  - done.
  - done.
  - rewrite no_fail_cons // in Hfails.
    apply no_fail_app; [apply fields_steps_no_fail | done].
  - done.
  - by rewrite tuple_steps_no_fail in Hfails.
  - rewrite no_fail_cons // in Hfails. apply signature_steps_no_fail.
  - rewrite no_fail_cons // in Hfails.
    apply no_fail_app; first apply methods_steps_no_fail.
    apply no_fail_app; [apply embeddeds_steps_no_fail | done].
  - done.
  - rewrite no_fail_cons // in Hfails.
    apply no_fail_app; first apply write_if_no_fail.
    apply (no_fail_app [_]); [done | apply write_if_no_fail].
  - destruct obj_pkg; last done. by destruct (isImported _ _).
  - done.
Qed.

End NoFail.

Section Calls.

Variable quote : string → string.
Variable heap : Heap.
Variable pkg : option types.Package.

(** The path of a call that a run comes to holds nodes of the heap only,
    and the call has fuel left. *)
Lemma comes_to_fuel (fuel : nat) (buf : string) (typ : types.Type_)
    (visited : list types.Type_) (handed : bool) (fuel' : nat) (b : string)
    (t : types.Type_) (vis : list types.Type_) :
  comes_to quote heap pkg fuel buf typ visited handed fuel' b t vis →
  on_heap heap visited → size (unvisited heap visited) < fuel →
  on_heap heap vis ∧ size (unvisited heap vis) < fuel'.
Proof.
  induction 1 as [|fuel buf a n visited before checked c after buf' handed
                   fuel' b t vis Hfresh Ha Hprogram Hbefore Hcomes IH];
    first done.
  intros Hvisited Hfuel. apply IH.
  - apply Forall_app. split; first done.
    apply Forall_singleton. by eauto.
  - assert (is_Some (heap !! a)) as Hnode by eauto.
    exact (Nat.lt_le_trans _ _ _ (unvisited_push heap visited a Hfresh Hnode)
             (proj1 (Nat.lt_succ_r _ _) Hfuel)).
Qed.

(** What a call returns starts with what a call it came to returned. *)
Lemma comes_to_prefix (fuel : nat) (buf : string) (typ : types.Type_)
    (visited : list types.Type_) (handed : bool) (fuel' : nat) (b : string)
    (t : types.Type_) (vis : list types.Type_) (s : string)
    (e : option string) :
  comes_to quote heap pkg fuel buf typ visited handed fuel' b t vis →
  writeType quote heap fuel buf pkg typ visited = Returned s e →
  ∃ s' e' rest,
    writeType quote heap fuel' b pkg t vis = Returned s' e'
    ∧ s = s' +:+ rest.
Proof.
  intros Hcomes. revert s e.
  induction Hcomes as [|fuel buf a n visited before checked c after buf'
                        handed fuel' b t vis Hfresh Ha Hprogram Hbefore
                        Hcomes IH]; intros s e Hrun.
  { exists s, e, "". by rewrite append_nil_r. }
  rewrite (writeType_program _ _ _ _ _ _ _ _ Ha Hfresh) in Hrun.
  rewrite Hprogram exec_app Hbefore /= in Hrun.
  destruct (writeType quote heap fuel buf' pkg c (visited ++ [Some a]))
    as [s1 e1| | |] eqn:Hcall; rewrite ?Hcall /= in Hrun; try done.
  destruct (IH _ _ eq_refl) as (s' & e' & rest & Ht & ->).
  assert (∃ w, s = (s' +:+ rest) +:+ w) as [w ->].
  { assert (exec (writeType quote heap fuel) pkg (visited ++ [Some a]) after
              (s' +:+ rest) = Returned s e → ∃ w, s = (s' +:+ rest) +:+ w)
      as Hafter.
    { apply exec_extends. intros b0 typ0 s0 e0.
      apply writeType_extends. }
    destruct checked, e1; simpl in Hrun; auto.
    injection Hrun as [= <- _]. exists "". by rewrite append_nil_r. }
  exists s', e', (rest +:+ w). by rewrite append_assoc.
Qed.

(** The call on an invalid basic type that a run comes to through calls
    whose error is returned makes the run return its buffer and error. *)
Lemma comes_to_error (fuel : nat) (buf : string) (typ : types.Type_)
    (visited : list types.Type_) (handed : bool) (fuel' : nat) (s : string)
    (a : types.addr) (name : string) (vis : list types.Type_) :
  comes_to quote heap pkg fuel buf typ visited handed (S fuel') s (Some a)
    vis →
  handed = true →
  Some a ∉ vis →
  heap !! a = Some (types.Basic types.Invalid name) →
  writeType quote heap fuel buf pkg typ visited = Returned s (Some "TODO").
Proof.
  intros Hcomes.
  remember (S fuel') as f eqn:Hf. remember (Some a) as t eqn:Ht.
  revert Hf Ht.
  induction Hcomes as [|fuel buf a0 n visited before checked c after buf'
                        handed f b t vis Hfresh Ha Hprogram Hbefore
                        Hcomes IH]; intros -> -> Hhanded Hnew Hinvalid.
  { by rewrite (writeType_program _ _ _ _ _ _ _ _ Hinvalid Hnew). }
  apply andb_true_iff in Hhanded as [-> ->].
  rewrite (writeType_program _ _ _ _ _ _ _ _ Ha Hfresh).
  rewrite Hprogram exec_app Hbefore /=.
  by rewrite IH.
Qed.

(** An error that a call returns was made by a call on an invalid basic
    type that the run came to through calls whose error is returned, and
    the buffer is the one that call was given. *)
Lemma error_comes_from (fuel : nat) (buf : string) (typ : types.Type_)
    (visited : list types.Type_) (s e : string) :
  writeType quote heap fuel buf pkg typ visited = Returned s (Some e) →
  e = "TODO"
  ∧ ∃ fuel' a name vis,
      comes_to quote heap pkg fuel buf typ visited true (S fuel') s (Some a)
        vis
      ∧ (Some a ∉ vis)
      ∧ heap !! a = Some (types.Basic types.Invalid name).
Proof.
  revert buf typ visited.
  induction fuel as [|fuel IH]; intros buf typ visited Hrun; first done.
  destruct (decide (typ ∈ visited)) as [Hin|Hfresh].
  { simpl in Hrun.
    assert (existsb (λ t, same_type t typ) visited = true) as Hseen.
    { apply existsb_exists. exists typ. split.
      - by apply list_elem_of_In.
      - by apply bool_decide_eq_true. }
    rewrite Hseen in Hrun. by destruct (cycle_marker heap typ). }
  destruct typ as [a|]; last first.
  { simpl in Hrun. by rewrite (not_seen _ _ Hfresh) in Hrun. }
  destruct (heap !! a) as [n|] eqn:Ha; last first.
  { simpl in Hrun. by rewrite (not_seen _ _ Hfresh) /load Ha in Hrun. }
  rewrite (writeType_program _ _ _ _ _ _ _ _ Ha Hfresh) in Hrun.
  apply exec_error in Hrun
    as [(before & after & Hprogram & Hbefore)
       |(before & c & after & buf' & Hprogram & Hbefore & Hcall)].
  - apply program_fail in Hprogram as (-> & -> & name & ->).
    injection Hbefore as [= <-]. split; first done.
    exists fuel, a, name, visited. split; [constructor | done].
  - destruct (IH _ _ _ Hcall)
      as (-> & fuel' & a' & name & vis & Hcomes & Hnew & Hinvalid).
    split; first done. exists fuel', a', name, vis. split; last done.
    exact (comes_below quote heap pkg _ _ _ _ _ _ true _ _ _ true _ _ _ _
             Hfresh Ha Hprogram Hbefore Hcomes).
Qed.

End Calls.

Section CycleGuard.

Variable quote : string → string.
Variable heap : Heap.

(** C1, with the calls of [writeType] as the ways in which a node is
    reached: on a closed graph [typeString] returns or panics, however the
    graph is made; a call on a node that is not on [visited] runs the steps
    of the node, each call among them being given [visited] with the node
    added, so that a node is on [visited] for everything below it; and a
    call that the run of [typeString] comes to on a type of its path writes
    the marker followed by the dynamic type of the node and returns nil, with
    the fuel of a single call, so without a call of its own, and what
    [typeString] returns goes on from the buffer of that call and the
    marker. *)
Theorem cycle_guard (pkg : option types.Package) (root : types.Type_) :
  closed heap → known heap root →
  ((∃ s e, typeString quote heap pkg root = Returned s e)
   ∨ (∃ msg, typeString quote heap pkg root = Panicked msg))
  ∧ (∀ fuel buf a n visited,
       heap !! a = Some n → Some a ∉ visited →
       writeType quote heap (S fuel) buf pkg (Some a) visited =
       exec (writeType quote heap fuel) pkg (visited ++ [Some a])
         (program quote heap pkg n) buf)
  ∧ (∀ handed fuel buf typ visited,
       comes_to quote heap pkg (S (size heap)) "" root [] handed
         fuel buf typ visited →
       typ ∈ visited →
       ∃ a n,
         typ = Some a ∧ heap !! a = Some n
         ∧ writeType quote heap fuel buf pkg typ visited =
           Returned (buf +:+ "○" +:+ go_type_of n) None
         ∧ writeType quote heap 1 buf pkg typ visited =
           Returned (buf +:+ "○" +:+ go_type_of n) None
         ∧ ∀ s e,
             typeString quote heap pkg root = Returned s e →
             ∃ rest, s = buf +:+ "○" +:+ go_type_of n +:+ rest).
Proof.
  intros Hclosed Hknown. split; [|split].
  - by apply typeString_returns_or_panics.
  - intros fuel buf a n visited. apply writeType_program.
  - intros handed fuel buf typ visited Hcomes Hin.
    destruct (comes_to_fuel _ _ _ _ _ _ _ _ _ _ _ _ Hcomes)
      as [Hpath Hfuel]; [constructor | rewrite unvisited_nil; lia |].
    unfold on_heap in Hpath. rewrite Forall_forall in Hpath.
    destruct (Hpath _ Hin) as (a & -> & n & Ha).
    assert (∀ f, writeType quote heap (S f) buf pkg (Some a) visited =
                 Returned (buf +:+ "○" +:+ go_type_of n) None) as Hmarker.
    { intros f. simpl.
      assert (existsb (λ t, same_type t (Some a)) visited = true) as ->.
      { apply existsb_exists. exists (Some a). split.
        - by apply list_elem_of_In.
        - by apply bool_decide_eq_true. }
      by rewrite Ha. }
    exists a, n. split; first done. split; first done.
    destruct fuel as [|fuel]; first lia.
    split; first apply Hmarker. split; first apply Hmarker.
    intros s e Hrun.
    destruct (comes_to_prefix _ _ _ _ _ _ _ _ _ _ _ _ _ _ Hcomes Hrun)
      as (s' & e' & rest & Hcall & ->).
    rewrite Hmarker in Hcall. injection Hcall as [= <- _].
    exists rest. by rewrite ?append_assoc.
Qed.

End CycleGuard.

Lemma cycle_guard_witness :
  closed sample.heap
  ∧ known sample.heap (Some 14)
  ∧ comes_to sample.quote sample.heap None (S (size sample.heap)) ""
      (Some 14) [] true 28 "*struct{next " (Some 14) [Some 14; Some 15]
  ∧ Some 14 ∈ [Some 14; Some 15]
  ∧ ∃ a n,
      Some 14 = Some a ∧ sample.heap !! a = Some n
      ∧ writeType sample.quote sample.heap 28 "*struct{next " None (Some 14)
          [Some 14; Some 15] =
        Returned ("*struct{next " +:+ "○" +:+ go_type_of n) None
      ∧ writeType sample.quote sample.heap 1 "*struct{next " None (Some 14)
          [Some 14; Some 15] =
        Returned ("*struct{next " +:+ "○" +:+ go_type_of n) None
      ∧ ∀ s e,
          typeString sample.quote sample.heap None (Some 14) = Returned s e →
          ∃ rest, s = "*struct{next " +:+ "○" +:+ go_type_of n +:+ rest.
Proof.
  assert (known sample.heap (Some 14)) as Hknown by (vm_compute; eauto).
  assert (comes_to sample.quote sample.heap None (S (size sample.heap)) ""
            (Some 14) [] true 28 "*struct{next " (Some 14)
            [Some 14; Some 15]) as Hcomes.
  { assert (size sample.heap = 29) as -> by (vm_compute; reflexivity).
    apply (comes_below _ _ _ 29 "" 14 (types.Pointer (Some 15)) []
             [Write "*"] true (Some 15) [] "*" true);
      [apply not_elem_of_nil | by vm_compute | by vm_compute | by vm_compute |].
    apply (comes_below _ _ _ 28 "*" 15
             (types.Struct [sample.field "next" 14 ""]) [Some 14]
             [Write "struct{"; Write "next "] true (Some 14) [Write "}"]
             "*struct{next " true);
      [by intros ?%list_elem_of_singleton | by vm_compute | by vm_compute
      | by vm_compute |].
    constructor. }
  assert (Some 14 ∈ [Some 14; Some 15]) as Hin by constructor.
  split; [exact sample_closed | split; [exact Hknown |]].
  split; [exact Hcomes | split; [exact Hin |]].
  exact (proj2 (proj2 (cycle_guard sample.quote sample.heap None (Some 14)
                         sample_closed Hknown))
           _ _ _ _ _ Hcomes Hin).
Defined.

(** C1 as the claim words it, for every way of reaching a node again, has
    an exception: the slice below is on the path when it is reached as the
    type of the last parameter of the variadic signature, and a call of
    [writeType] on it would write its marker, but the tuple writes the token
    and goes on to the element of the slice without a look at the path. *)
Lemma cycle_guard_counterexample :
  cyclic.heap !! 0 = Some (types.Slice (Some 1))
  ∧ cyclic.heap !! 1 = Some (sample.signature [sample.var "x" 0] true [])
  ∧ writeType sample.quote cyclic.heap 1 "[]func(x " None (Some 0)
      [Some 0; Some 1] = Returned "[]func(x ○*types.Slice" None
  ∧ writeTuple cyclic.heap (writeType sample.quote cyclic.heap 1) "[]func"
      None (Some [sample.var "x" 0]) true [Some 0; Some 1] =
    Returned "[]func(x ...○*types.Signature)" None
  ∧ typeString sample.quote cyclic.heap None (Some 0) =
    Returned "[]func(x ...○*types.Signature)" None
  ∧ typeString sample.quote cyclic.heap None (Some 0) ≠
    Returned "[]func(x ○*types.Slice)" None.
Proof. vm_compute. repeat split; done. Qed.

Section ErrorKept.

Variable quote : string → string.
Variable heap : Heap.
Variable pkg : option types.Package.

(** C10: [typeString] returns an error exactly when its run comes, through
    calls whose error is returned, to a call on an invalid basic type, each
    call on the way being made once the steps before it have run to their
    end; the error is the one made there, and the string is the buffer that
    call was given, which is all that was written up to the failure.  The
    string is empty only when the root itself is the invalid type. *)
Theorem error_keeps_output (root : types.Type_) (s e : string) :
  (typeString quote heap pkg root = Returned s (Some e) ↔
   e = "TODO"
   ∧ ∃ fuel a name visited,
       comes_to quote heap pkg (S (size heap)) "" root [] true
         (S fuel) s (Some a) visited
       ∧ (Some a ∉ visited)
       ∧ heap !! a = Some (types.Basic types.Invalid name))
  ∧ (typeString quote heap pkg root = Returned s (Some e) →
     (s = "" ↔
      ∃ a name, root = Some a
                ∧ heap !! a = Some (types.Basic types.Invalid name))).
Proof.
  split.
  - split; first apply error_comes_from.
    intros (-> & fuel & a & name & visited & Hcomes & Hnew & Hinvalid).
    by eapply comes_to_error.
  - intros Hroot. unfold typeString in Hroot. split.
    + intros ->. destruct root as [a|]; last done.
      destruct (heap !! a) as [n|] eqn:Ha;
        last by (simpl in Hroot; rewrite /load Ha in Hroot).
      assert ((∃ name, n = types.Basic types.Invalid name)
              ∨ ∀ name, n ≠ types.Basic types.Invalid name)
        as [[name ->]|Hvalid].
      { destruct n as [[] name| | | | | | | | | | |]; by eauto. }
      { by eauto. }
      exfalso. eapply (error_below_root _ _ _ _ a n []); eauto.
      apply not_elem_of_nil.
    + intros (a & name & -> & Ha). simpl in Hroot.
      rewrite /load Ha /= in Hroot. by injection Hroot as <- _.
Qed.

End ErrorKept.

Lemma error_keeps_output_witness :
  comes_to sample.quote sample.heap None (S (size sample.heap)) ""
    (Some 20) [] true 29 "struct{X int; Y " (Some 3) [Some 20]
  ∧ (Some 3 ∉ [Some 20])
  ∧ sample.heap !! 3 = Some (types.Basic types.Invalid "invalid type")
  ∧ typeString sample.quote sample.heap None (Some 20) =
    Returned "struct{X int; Y " (Some "TODO").
Proof.
  assert (comes_to sample.quote sample.heap None (S (size sample.heap)) ""
            (Some 20) [] true 29 "struct{X int; Y " (Some 3) [Some 20])
    as Hcomes.
  { assert (size sample.heap = 29) as -> by (vm_compute; reflexivity).
    apply (comes_below _ _ _ 29 "" 20
             (types.Struct [sample.field "X" 0 ""; sample.field "Y" 3 ""])
             []
             [Write "struct{"; Write "X "; Call true (Some 0); Write "; ";
              Write "Y "]
             true (Some 3) [Write "}"] "struct{X int; Y " true);
      [apply not_elem_of_nil | by vm_compute | by vm_compute | by vm_compute |].
    constructor. }
  assert (Some 3 ∉ [Some 20]) as Hnew by (by intros ?%list_elem_of_singleton).
  assert (sample.heap !! 3 = Some (types.Basic types.Invalid "invalid type"))
    as Hinvalid by (vm_compute; reflexivity).
  split; [exact Hcomes | split; [exact Hnew | split; [exact Hinvalid |]]].
  exact (proj2 (proj1 (error_keeps_output sample.quote sample.heap None
                         (Some 20) "struct{X int; Y " "TODO"))
           (conj eq_refl
              (ex_intro _ 28
                 (ex_intro _ 3
                    (ex_intro _ "invalid type"
                       (ex_intro _ [Some 20]
                          (conj Hcomes (conj Hnew Hinvalid)))))))).
Defined.

(** * More of the renderer *)

(** ** The buffer *)

(** X1: [writeType], and [writeTuple] and [writeSignature] when they call
    it, only add to the buffer: a call on the buffer [buf] ends as the same
    call on the empty buffer does, with [buf] in front of what it returns. *)
Theorem buffer_only_appended (quote : string → string) (heap : Heap)
    (fuel : nat) (buf : string) (pkg : option types.Package)
    (visited : list types.Type_) :
  (∀ typ,
     writeType quote heap fuel buf pkg typ visited =
     prepend buf (writeType quote heap fuel "" pkg typ visited))
  ∧ (∀ tup variadic,
       writeTuple heap (writeType quote heap fuel) buf pkg tup variadic
         visited =
       prepend buf
         (writeTuple heap (writeType quote heap fuel) "" pkg tup variadic
            visited))
  ∧ (∀ sig,
       writeSignature heap (writeType quote heap fuel) buf pkg sig visited =
       prepend buf
         (writeSignature heap (writeType quote heap fuel) "" pkg sig visited)).
Proof.
  pose proof (writeType_appends quote heap fuel pkg visited) as Hrec.
  split; [|split].
  - intros typ. apply Hrec.
  - intros tup variadic. rewrite -{1}(append_nil_r buf).
    apply (writeTuple_appends _ _ _ _ Hrec).
  - intros sig. rewrite -{1}(append_nil_r buf).
    apply (writeSignature_appends _ _ _ _ Hrec).
Qed.

(** ** The arms with one element *)

Section ElementArms.

Variable quote : string → string.
Variable heap : Heap.
Variable fuel : nat.
Variable pkg : option types.Package.

Local Abbreviation rec := (writeType quote heap fuel).

(** X2: an array, a slice and a pointer are rendered as the length between
    brackets, as a pair of brackets and as a star, followed by their element,
    and end as the call on the element ends: its error is returned with the
    text so far, its panic is the panic of the whole call. *)
Theorem element_type_text (buf : string) (a : types.addr) (n : types.Node)
    (elem : types.Type_) (before : string) (visited : list types.Type_) :
  heap !! a = Some n →
  Some a ∉ visited →
  (∃ len, n = types.Array len elem ∧ before = "[" +:+ pretty len +:+ "]")
  ∨ (n = types.Slice elem ∧ before = "[]")
  ∨ (n = types.Pointer elem ∧ before = "*") →
  writeType quote heap (S fuel) buf pkg (Some a) visited =
  prepend (buf +:+ before) (rec "" pkg elem (visited ++ [Some a])).
Proof.
  intros Ha Hfresh Hn. simpl. rewrite (not_seen _ _ Hfresh) /load Ha.
  destruct Hn as [(len & -> & ->)|[[-> ->]|[-> ->]]];
    by rewrite writeType_prepend.
Qed.

(** X3: a map is rendered as the word map, its key between brackets and
    its element.  When the key returns an error the call returns it with the
    text up to the key: neither the closing bracket nor the element is
    written. *)
Theorem map_text (buf : string) (a : types.addr) (key elem : types.Type_)
    (visited : list types.Type_) (ks : string) (ek : option string) :
  heap !! a = Some (types.Map key elem) →
  Some a ∉ visited →
  rec "" pkg key (visited ++ [Some a]) = Returned ks ek →
  writeType quote heap (S fuel) buf pkg (Some a) visited =
  match ek with
  | Some e => Returned (buf +:+ "map[" +:+ ks) (Some e)
  | None =>
      prepend (buf +:+ "map[" +:+ ks +:+ "]")
        (rec "" pkg elem (visited ++ [Some a]))
  end.
Proof.
  intros Ha Hfresh Hkey. simpl. rewrite (not_seen _ _ Hfresh) /load Ha.
  rewrite writeType_prepend Hkey /=.
  destruct ek; simpl; first by rewrite ?append_assoc.
  rewrite writeType_prepend. by rewrite ?append_assoc.
Qed.

(** X8: a channel whose element returns an error returns it with the prefix
    and the text of the element; the parenthesis that was opened for a
    receive-only element is not closed. *)
Theorem channel_error_text (buf : string) (a : types.addr)
    (dir : types.ChanDir) (elem : types.Type_) (visited : list types.Type_)
    (s e : string) :
  heap !! a = Some (types.Chan dir elem) →
  Some a ∉ visited →
  rec "" pkg elem (visited ++ [Some a]) = Returned s (Some e) →
  writeType quote heap (S fuel) buf pkg (Some a) visited =
  Returned
    (buf +:+ chan_prefix dir +:+
     (if chan_parens heap dir elem then "(" else "") +:+ s) (Some e).
Proof.
  intros Ha Hfresh Helem. simpl. rewrite (not_seen _ _ Hfresh) /load Ha.
  rewrite writeType_prepend Helem.
  destruct (chan_parens heap dir elem); simpl; by rewrite ?append_assoc.
Qed.

End ElementArms.

Lemma element_type_text_witness :
  sample.heap !! 5 = Some (types.Array 3 (Some 0))
  ∧ (Some 5 ∉ ([] : list types.Type_))
  ∧ ((∃ len, types.Array 3 (Some 0) = types.Array len (Some 0)
             ∧ "[3]" = "[" +:+ pretty len +:+ "]")
     ∨ (types.Array 3 (Some 0) = types.Slice (Some 0) ∧ "[3]" = "[]")
     ∨ (types.Array 3 (Some 0) = types.Pointer (Some 0) ∧ "[3]" = "*"))
  ∧ writeType sample.quote sample.heap 2 "" None (Some 5) [] =
    Returned "[3]int" None.
Proof.
  assert (sample.heap !! 5 = Some (types.Array 3 (Some 0))) as Ha
    by (vm_compute; reflexivity).
  assert (Some 5 ∉ ([] : list types.Type_)) as Hfresh
    by apply not_elem_of_nil.
  assert ((∃ len, types.Array 3 (Some 0) = types.Array len (Some 0)
                  ∧ "[3]" = "[" +:+ pretty len +:+ "]")
          ∨ (types.Array 3 (Some 0) = types.Slice (Some 0) ∧ "[3]" = "[]")
          ∨ (types.Array 3 (Some 0) = types.Pointer (Some 0) ∧ "[3]" = "*"))
    as Hn by (left; exists 3%Z; split; reflexivity).
  split; [exact Ha | split; [exact Hfresh | split; [exact Hn |]]].
  exact (element_type_text sample.quote sample.heap 1 None "" 5 _ (Some 0)
           "[3]" [] Ha Hfresh Hn).
Defined.

Lemma map_text_witness :
  sample2.heap !! 9 = Some (types.Map (Some 2) (Some 0))
  ∧ (Some 9 ∉ ([] : list types.Type_))
  ∧ writeType sample.quote sample2.heap 1 "" None (Some 2) ([] ++ [Some 9]) =
    Returned "" (Some "TODO")
  ∧ writeType sample.quote sample2.heap 2 "" None (Some 9) [] =
    Returned "map[" (Some "TODO").
Proof.
  assert (sample2.heap !! 9 = Some (types.Map (Some 2) (Some 0))) as Ha
    by (vm_compute; reflexivity).
  assert (Some 9 ∉ ([] : list types.Type_)) as Hfresh
    by apply not_elem_of_nil.
  assert (writeType sample.quote sample2.heap 1 "" None (Some 2)
            ([] ++ [Some 9]) = Returned "" (Some "TODO")) as Hkey
    by (vm_compute; reflexivity).
  split; [exact Ha | split; [exact Hfresh | split; [exact Hkey |]]].
  exact (map_text sample.quote sample2.heap 1 None "" 9 _ _ [] "" _ Ha
           Hfresh Hkey).
Defined.

Lemma channel_error_text_witness :
  sample2.heap !! 7 = Some (types.Chan types.SendRecv (Some 8))
  ∧ (Some 7 ∉ ([] : list types.Type_))
  ∧ writeType sample.quote sample2.heap 2 "" None (Some 8) ([] ++ [Some 7]) =
    Returned "<-chan " (Some "TODO")
  ∧ writeType sample.quote sample2.heap 3 "" None (Some 7) [] =
    Returned "chan (<-chan " (Some "TODO").
Proof.
  assert (sample2.heap !! 7 = Some (types.Chan types.SendRecv (Some 8)))
    as Ha by (vm_compute; reflexivity).
  assert (Some 7 ∉ ([] : list types.Type_)) as Hfresh
    by apply not_elem_of_nil.
  assert (writeType sample.quote sample2.heap 2 "" None (Some 8)
            ([] ++ [Some 7]) = Returned "<-chan " (Some "TODO")) as Helem
    by (vm_compute; reflexivity).
  split; [exact Ha | split; [exact Hfresh | split; [exact Helem |]]].
  exact (channel_error_text sample.quote sample2.heap 2 None "" 7 _ _ []
           "<-chan " "TODO" Ha Hfresh Helem).
Defined.

(** ** Tuples *)

Section TupleText.

Variable quote : string → string.
Variable heap : Heap.
Variable fuel : nat.
Variable pkg : option types.Package.
Variable visited : list types.Type_.

Local Abbreviation rec := (writeType quote heap fuel).

(** The loop of a tuple that is not variadic, on elements that return. *)
Lemma writeTuple_loop_text (len : nat) (vars : list types.Var)
    (texts : list string) (i : nat) (buf : string) :
  Forall2 (λ v s, ∃ e, rec "" pkg (types.var_type v) visited = Returned s e)
    vars texts →
  writeTuple_loop heap rec pkg len false visited vars i buf =
  Returned
    (buf +:+ (if bool_decide (0 < i) then separator vars ", " else "") +:+
     String.concat ", " (zip_with (λ v s, var_label v +:+ s) vars texts)) None.
Proof.
  intros Hvars. revert i buf.
  induction Hvars as [|v s vars texts [e Hv] Hrest IH]; intros i buf.
  { simpl. case_bool_decide; by rewrite ?append_nil_r. }
  simpl writeTuple_loop. cbv iota.
  assert (∀ b, rec b pkg (types.var_type v) visited = Returned (b +:+ s) e)
    as Hv'.
  { intros b. by rewrite writeType_prepend Hv. }
  assert (zip_with (λ v s, var_label v +:+ s) (v :: vars) (s :: texts) =
          (var_label v +:+ s) ::
          zip_with (λ v s, var_label v +:+ s) vars texts) as -> by done.
  assert (String.concat ", "
            ((var_label v +:+ s) ::
             zip_with (λ v s, var_label v +:+ s) vars texts) =
          (var_label v +:+ s) +:+ separator vars ", " +:+
          String.concat ", " (zip_with (λ v s, var_label v +:+ s) vars texts))
    as ->.
  { destruct Hrest; simpl; by rewrite ?append_nil_r. }
  unfold var_label.
  rewrite Hv' /= IH; repeat case_bool_decide; try lia; simpl;
    by rewrite ?append_assoc ?append_nil_r ?append_nil_l.
Qed.

(** X5: a tuple that is not variadic is rendered between parentheses, its
    elements separated by a comma and a space, each as its name and a space,
    when it has a name, and its type.  An element that returns an error
    counts with the text it wrote, and the tuple returns nil. *)
Theorem tuple_text (buf : string) (vars : list types.Var)
    (texts : list string) :
  Forall2 (λ v s, ∃ e, rec "" pkg (types.var_type v) visited = Returned s e)
    vars texts →
  writeTuple heap rec buf pkg (Some vars) false visited =
  Returned
    (buf +:+ "(" +:+
     String.concat ", "
       (zip_with
          (λ v s,
             (if bool_decide (types.var_name v ≠ "")
              then types.var_name v +:+ " " else "") +:+ s)
          vars texts) +:+
     ")") None.
Proof.
  intros Hvars. unfold writeTuple.
  rewrite (writeTuple_loop_text _ _ _ _ _ Hvars) /=.
  by rewrite ?append_assoc.
Qed.

End TupleText.

Lemma tuple_text_witness :
  Forall2
    (λ v s, ∃ e,
       writeType sample.quote sample.heap 1 "" None (types.var_type v) [] =
       Returned s e)
    [sample.var "x" 0; sample.var "" 3; sample.var "" 2] ["int"; ""; "bool"]
  ∧ writeTuple sample.heap (writeType sample.quote sample.heap 1) "" None
      (Some [sample.var "x" 0; sample.var "" 3; sample.var "" 2]) false [] =
    Returned "(x int, , bool)" None.
Proof.
  assert (Forall2
            (λ v s, ∃ e,
               writeType sample.quote sample.heap 1 "" None
                 (types.var_type v) [] = Returned s e)
            [sample.var "x" 0; sample.var "" 3; sample.var "" 2]
            ["int"; ""; "bool"]) as Hvars.
  { repeat constructor.
    - exists None. vm_compute. reflexivity.
    - exists (Some "TODO"). vm_compute. reflexivity.
    - exists None. vm_compute. reflexivity. }
  split; [exact Hvars |].
  exact (tuple_text sample.quote sample.heap 1 None [] "" _ _ Hvars).
Defined.

(** X6: the variadic flag only bears on the last element: the loop over
    elements that stop short of the last index runs as in a tuple that is not
    variadic, whatever the writer it calls. *)
Theorem variadic_only_last (heap : Heap) (rec : writer)
    (pkg : option types.Package) (len : nat) (visited : list types.Type_)
    (vars : list types.Var) (i : nat) (buf : string) :
  i + length vars < len →
  writeTuple_loop heap rec pkg len true visited vars i buf =
  writeTuple_loop heap rec pkg len false visited vars i buf.
Proof.
  revert i buf. induction vars as [|v rest IH]; intros i buf Hlen; first done.
  simpl in *. rewrite bool_decide_eq_false_2; last lia.
  simpl. apply bind_ext. intros b _. apply IH. lia.
Qed.

Lemma variadic_only_last_witness :
  0 + length [sample.var "a" 0] < 2
  ∧ writeTuple_loop sample.heap (writeType sample.quote sample.heap 1) None 2
      true [] [sample.var "a" 0] 0 "(" =
    writeTuple_loop sample.heap (writeType sample.quote sample.heap 1) None 2
      false [] [sample.var "a" 0] 0 "(".
Proof.
  assert (0 + length [sample.var "a" 0] < 2) as Hlen by (simpl; lia).
  split; [exact Hlen |].
  exact (variadic_only_last sample.heap
           (writeType sample.quote sample.heap 1) None 2 []
           [sample.var "a" 0] 0 "(" Hlen).
Defined.

(** ** Signatures and errors *)

Lemma writeTuple_nil_error (heap : Heap) (rec : writer) (buf : string)
    (pkg : option types.Package) (tup : option types.Tuple)
    (variadic : bool) (visited : list types.Type_) (s : string)
    (e : option string) :
  writeTuple heap rec buf pkg tup variadic visited = Returned s e → e = None.
Proof.
  unfold writeTuple.
  destruct (match tup with Some _ => _ | None => _ end) as [b e'| | |];
    simpl; try done.
  by intros [= _ <-].
Qed.

(** X9: whatever writer it calls, [writeSignature] returns an error only
    when the signature has a single result without a name and the call on
    the type of that result returned this error: what the calls on the
    parameters and on the other results return is not looked at. *)
Theorem signature_error_origin (heap : Heap) (rec : writer) (buf : string)
    (pkg : option types.Package) (sig : types.Signature)
    (visited : list types.Type_) (s e : string) :
  writeSignature heap rec buf pkg sig visited = Returned s (Some e) →
  ∃ v b,
    types.sig_results sig = Some [v] ∧ types.var_name v = ""
    ∧ rec b pkg (types.var_type v) visited = Returned s (Some e).
Proof.
  unfold writeSignature.
  destruct (writeTuple heap rec buf pkg (types.sig_params sig) _ visited)
    as [b e0| | |]; simpl; try done.
  case_bool_decide; first done.
  destruct (types.sig_results sig) as [[|v [|v' vs]]|];
    try (intros Htuple; by apply writeTuple_nil_error in Htuple).
  case_bool_decide as Hname;
    last (intros Htuple; by apply writeTuple_nil_error in Htuple).
  intros Hv. by exists v, (b +:+ " ").
Qed.

Lemma signature_error_origin_witness :
  writeSignature sample2.heap (writeType sample.quote sample2.heap 1) "func"
    None
    {| types.sig_params := Some [sample.var "x" 0];
       types.sig_variadic := false;
       types.sig_results := Some [sample.var "" 2] |} [Some 5] =
    Returned "func(x int) " (Some "TODO")
  ∧ ∃ v b,
      Some [sample.var "" 2] = Some [v] ∧ types.var_name v = ""
      ∧ writeType sample.quote sample2.heap 1 b None (types.var_type v)
          [Some 5] = Returned "func(x int) " (Some "TODO").
Proof.
  assert (writeSignature sample2.heap (writeType sample.quote sample2.heap 1)
            "func" None
            {| types.sig_params := Some [sample.var "x" 0];
               types.sig_variadic := false;
               types.sig_results := Some [sample.var "" 2] |} [Some 5] =
          Returned "func(x int) " (Some "TODO")) as Hsig
    by (vm_compute; reflexivity).
  split; [exact Hsig |].
  exact (signature_error_origin sample2.heap
           (writeType sample.quote sample2.heap 1) "func" None _ [Some 5]
           "func(x int) " "TODO" Hsig).
Defined.

(** ** Interfaces *)

Lemma concat_cons (sep x : string) (l : list string) :
  String.concat sep (x :: l) = x +:+ separator l sep +:+ String.concat sep l.
Proof. destruct l; simpl; by rewrite ?append_nil_r. Qed.

Lemma concat_app (sep : string) (l1 l2 : list string) :
  String.concat sep (l1 ++ l2) =
  String.concat sep l1 +:+ separator l1 (separator l2 sep) +:+
  String.concat sep l2.
Proof.
  induction l1 as [|x l1 IH]; first done.
  rewrite -app_comm_cons !concat_cons IH.
  destruct l1, l2; simpl; by rewrite ?append_assoc ?append_nil_r.
Qed.

Section InterfaceText.

Variable quote : string → string.
Variable heap : Heap.
Variable fuel : nat.
Variable pkg : option types.Package.
Variable visited : list types.Type_.

Local Abbreviation rec := (writeType quote heap fuel).

Lemma writeMethods_text (methods : list types.Func) (sigs : list string)
    (i : nat) (buf : string) :
  Forall2
    (λ m s, writeSignature heap rec "" pkg (types.func_type m) visited =
            Returned s None) methods sigs →
  writeMethods heap rec pkg visited methods i buf =
  Returned
    (buf +:+ (if bool_decide (0 < i) then separator methods "; " else "") +:+
     String.concat "; "
       (zip_with (λ m s, types.func_name m +:+ s) methods sigs)) None.
Proof.
  intros Hmethods. revert i buf.
  induction Hmethods as [|m s methods sigs Hm Hrest IH]; intros i buf.
  { simpl. case_bool_decide; by rewrite ?append_nil_r. }
  simpl writeMethods. cbv iota.
  assert (∀ b, writeSignature heap rec b pkg (types.func_type m) visited =
               Returned (b +:+ s) None) as Hm'.
  { intros b. rewrite -(append_nil_r b).
    rewrite (writeSignature_appends heap pkg visited rec
               (writeType_appends quote heap fuel pkg visited)) Hm /=.
    by rewrite ?append_nil_r. }
  assert (zip_with (λ m s, types.func_name m +:+ s) (m :: methods)
            (s :: sigs) =
          (types.func_name m +:+ s) ::
          zip_with (λ m s, types.func_name m +:+ s) methods sigs) as ->
    by done.
  rewrite concat_cons Hm' /= IH.
  assert (separator
            (zip_with (λ m s, types.func_name m +:+ s) methods sigs) "; " =
          separator methods "; ") as -> by (by destruct Hrest).
  repeat case_bool_decide; try lia; simpl;
    by rewrite ?append_assoc ?append_nil_r ?append_nil_l.
Qed.

(** The loop over the embedded types, once those of [before] are seen to be
    defined types that render without error. *)
Lemma writeEmbeddeds_before (nmethods : nat) (before rest : list types.Type_)
    (texts : list string) (i : nat) (buf : string) :
  Forall2
    (λ t s, defined heap t = true ∧ rec "" pkg t visited = Returned s None)
    before texts →
  writeEmbeddeds heap rec pkg visited nmethods (before ++ rest) i buf =
  writeEmbeddeds heap rec pkg visited nmethods rest (i + length before)
    (buf +:+
     (if bool_decide (0 < i) || bool_decide (0 < nmethods)
      then separator before "; " else "") +:+
     String.concat "; " texts).
Proof.
  intros Hbefore. revert i buf.
  induction Hbefore as [|t s before texts [Hdefined Ht] Hrest IH];
    intros i buf.
  { simpl. rewrite Nat.add_0_r.
    destruct (_ || _); by rewrite ?append_nil_r. }
  rewrite -app_comm_cons. simpl writeEmbeddeds. cbv iota.
  assert (∀ k, Embedded heap t k = k t) as Hnamed.
  { intros k. unfold defined in Hdefined. unfold Embedded, load.
    destruct t as [a|]; last done. simpl in Hdefined.
    by destruct (heap !! a) as [[]|]. }
  assert (∀ b, rec b pkg t visited = Returned (b +:+ s) None) as Ht'.
  { intros b. by rewrite writeType_prepend Ht. }
  rewrite Hnamed Ht' /= IH.
  rewrite (bool_decide_eq_true_2 (0 < S i)); last lia.
  replace (S i + length before) with (i + S (length before)) by lia.
  f_equal.
  destruct Hrest, (bool_decide (0 < i) || bool_decide (0 < nmethods)); simpl;
    by rewrite ?append_assoc ?append_nil_r ?append_nil_l.
Qed.

End InterfaceText.

Section InterfaceArm.

Variable quote : string → string.
Variable heap : Heap.
Variable fuel : nat.
Variable pkg : option types.Package.

Local Abbreviation rec := (writeType quote heap fuel).

(** X4: an interface whose methods render without error.  When its
    embedded types are defined types, it is rendered as [interface{], one
    list separated by a semicolon and a space, and [}]; the list holds the
    methods, each as its name followed by its signature without the word
    func, and after them the embedded types.  When one of its embedded types
    is a type of another kind, [t.Embedded(i)] is a nil pointer for it and
    the call panics once the embedded types before it are written. *)
Theorem interface_text (buf : string) (a : types.addr)
    (methods : list types.Func) (embeddeds : list types.Type_)
    (sigs : list string) (visited : list types.Type_) :
  heap !! a = Some (types.Interface methods embeddeds) →
  Some a ∉ visited →
  Forall2
    (λ m s,
       writeSignature heap rec "" pkg (types.func_type m)
         (visited ++ [Some a]) = Returned s None) methods sigs →
  (∀ texts,
     Forall2
       (λ t s, defined heap t = true
               ∧ rec "" pkg t (visited ++ [Some a]) = Returned s None)
       embeddeds texts →
     writeType quote heap (S fuel) buf pkg (Some a) visited =
     Returned
       (buf +:+ "interface{" +:+
        String.concat "; "
          (zip_with (λ m s, types.func_name m +:+ s) methods sigs ++ texts) +:+
        "}") None)
  ∧ (∀ before e after texts,
       embeddeds = before ++ e :: after →
       Forall2
         (λ t s, defined heap t = true
                 ∧ rec "" pkg t (visited ++ [Some a]) = Returned s None)
         before texts →
       known heap e → defined heap e = false →
       writeType quote heap (S fuel) buf pkg (Some a) visited =
       Panicked nil_dereference).
Proof.
  intros Ha Hfresh Hmethods.
  assert (∀ before rest texts,
    embeddeds = before ++ rest →
    Forall2
      (λ t s, defined heap t = true
              ∧ rec "" pkg t (visited ++ [Some a]) = Returned s None)
      before texts →
    writeType quote heap (S fuel) buf pkg (Some a) visited =
    call (b, err) ←
      writeEmbeddeds heap rec pkg (visited ++ [Some a]) (length methods) rest
        (0 + length before)
        ((buf +:+ "interface{" +:+
          String.concat "; "
            (zip_with (λ m s, types.func_name m +:+ s) methods sigs)) +:+
         (if bool_decide (0 < 0) || bool_decide (0 < length methods)
          then separator before "; " else "") +:+
         String.concat "; " texts);
    check b err (λ b, Returned (b +:+ "}") None)) as Hloop.
  { intros before rest texts -> Hbefore.
    simpl. rewrite (not_seen _ _ Hfresh) /load Ha.
    rewrite (writeMethods_text _ _ _ _ _ _ _ _ _ Hmethods) /=.
    by rewrite (writeEmbeddeds_before _ _ _ _ _ _ _ _ _ _ _ Hbefore)
         ?append_assoc ?append_nil_l. }
  split.
  - intros texts Hembeddeds.
    rewrite (Hloop embeddeds [] texts (eq_sym (app_nil_r _)) Hembeddeds).
    simpl. rewrite concat_app.
    assert ((if bool_decide (0 < length methods)
             then separator embeddeds "; " else "") =
            separator (zip_with (λ m s, types.func_name m +:+ s) methods sigs)
              (separator texts "; ")) as ->.
    { destruct Hmethods, Hembeddeds; simpl; try done;
        case_bool_decide; simpl in *; by try lia. }
    by rewrite ?append_assoc ?append_nil_r ?append_nil_l.
  - intros before e after texts Hsplit Hbefore Hknown Hdefined.
    rewrite (Hloop before (e :: after) texts Hsplit Hbefore).
    simpl. unfold Embedded, load, defined, known in *.
    destruct e as [c|]; first last.
    { done. }
    simpl in Hdefined. destruct Hknown as [n Hn]. rewrite Hn in Hdefined |- *.
    by destruct n.
Qed.

End InterfaceArm.

Lemma interface_text_witness :
  sample2.heap !! 4 =
    Some (types.Interface
            [sample2.method "Len" [] [sample.var "" 0];
             sample2.method "Put" [sample.var "s" 1] []]
            [Some 3])
  ∧ (Some 4 ∉ ([] : list types.Type_))
  ∧ Forall2
      (λ m s,
         writeSignature sample2.heap (writeType sample.quote sample2.heap 1)
           "" None (types.func_type m) ([] ++ [Some 4]) = Returned s None)
      [sample2.method "Len" [] [sample.var "" 0];
       sample2.method "Put" [sample.var "s" 1] []]
      ["() int"; "(s string)"]
  ∧ Forall2
      (λ t s,
         defined sample2.heap t = true
         ∧ writeType sample.quote sample2.heap 1 "" None t ([] ++ [Some 4]) =
           Returned s None)
      [Some 3] ["io.Reader"]
  ∧ writeType sample.quote sample2.heap 2 "" None (Some 4) [] =
    Returned "interface{Len() int; Put(s string); io.Reader}" None.
Proof.
  assert (sample2.heap !! 4 =
            Some (types.Interface
                    [sample2.method "Len" [] [sample.var "" 0];
                     sample2.method "Put" [sample.var "s" 1] []]
                    [Some 3])) as Ha by (vm_compute; reflexivity).
  assert (Some 4 ∉ ([] : list types.Type_)) as Hfresh
    by apply not_elem_of_nil.
  assert (Forall2
            (λ m s,
               writeSignature sample2.heap
                 (writeType sample.quote sample2.heap 1) "" None
                 (types.func_type m) ([] ++ [Some 4]) = Returned s None)
            [sample2.method "Len" [] [sample.var "" 0];
             sample2.method "Put" [sample.var "s" 1] []]
            ["() int"; "(s string)"]) as Hmethods.
  { repeat constructor; vm_compute; reflexivity. }
  assert (Forall2
            (λ t s,
               defined sample2.heap t = true
               ∧ writeType sample.quote sample2.heap 1 "" None t
                   ([] ++ [Some 4]) = Returned s None)
            [Some 3] ["io.Reader"]) as Hembeddeds.
  { repeat constructor; vm_compute; reflexivity. }
  split; [exact Ha | split; [exact Hfresh | split; [exact Hmethods |]]].
  split; [exact Hembeddeds |].
  exact (proj1 (interface_text sample.quote sample2.heap 1 None "" 4 _ _ _
                  [] Ha Hfresh Hmethods) _ Hembeddeds).
Defined.

(** ** A field that fails *)

Section FieldError.

Variable quote : string → string.
Variable heap : Heap.
Variable fuel : nat.
Variable pkg : option types.Package.

Local Abbreviation rec := (writeType quote heap fuel).

Lemma writeFields_stops (visited : list types.Type_)
    (before : list types.Field) (texts : list string) (f : types.Field)
    (rest : list types.Field) (s e : string) (i : nat) (buf : string) :
  Forall2 (λ f s, rec "" pkg (types.field_type f) visited = Returned s None)
    before texts →
  rec "" pkg (types.field_type f) visited = Returned s (Some e) →
  writeFields quote rec pkg visited (before ++ f :: rest) i buf =
  Returned
    (buf +:+ (if bool_decide (0 < i) then "; " else "") +:+
     String.concat "; "
       (zip_with (field_text quote) before texts ++
        [(if types.field_anonymous f then ""
          else types.field_name f +:+ " ") +:+ s])) (Some e).
Proof.
  intros Hbefore Hf. revert i buf.
  induction Hbefore as [|f0 s0 before texts Hf0 Hrest IH]; intros i buf.
  - simpl. rewrite writeType_prepend Hf /=.
    destruct (types.field_anonymous f); simpl; case_bool_decide;
      by rewrite ?append_assoc ?append_nil_r ?append_nil_l.
  - rewrite -app_comm_cons. simpl writeFields. cbv iota.
    assert (∀ b, rec b pkg (types.field_type f0) visited =
                 Returned (b +:+ s0) None) as Hf0'.
    { intros b. by rewrite writeType_prepend Hf0. }
    assert (zip_with (field_text quote) (f0 :: before) (s0 :: texts) =
            field_text quote f0 s0 :: zip_with (field_text quote) before texts)
      as -> by done.
    rewrite -app_comm_cons concat_cons.
    assert (∀ l (x : string), separator (l ++ [x]) "; " = "; ") as ->
      by (by intros []).
    unfold field_text at 1.
    destruct (types.field_anonymous f0); simpl negb; cbv iota;
      rewrite Hf0' /= IH; repeat case_bool_decide; try lia; simpl;
      by rewrite ?append_assoc ?append_nil_r ?append_nil_l.
Qed.

(** X7: a struct stops at the first field whose type returns an error: it
    returns that error with the text of the fields before it, the name of the
    field and what the call on its type wrote.  Its tag, the fields after it
    and the closing brace are not written, and the fields after it are not
    looked at. *)
Theorem struct_error_stops (buf : string) (a : types.addr)
    (before : list types.Field) (texts : list string) (f : types.Field)
    (rest : list types.Field) (s e : string) (visited : list types.Type_) :
  heap !! a = Some (types.Struct (before ++ f :: rest)) →
  Some a ∉ visited →
  Forall2
    (λ f s, rec "" pkg (types.field_type f) (visited ++ [Some a]) =
            Returned s None) before texts →
  rec "" pkg (types.field_type f) (visited ++ [Some a]) =
    Returned s (Some e) →
  writeType quote heap (S fuel) buf pkg (Some a) visited =
  Returned
    (buf +:+ "struct{" +:+
     String.concat "; "
       (zip_with (field_text quote) before texts ++
        [(if types.field_anonymous f then ""
          else types.field_name f +:+ " ") +:+ s])) (Some e).
Proof.
  intros Ha Hfresh Hbefore Hf.
  simpl. rewrite (not_seen _ _ Hfresh) /load Ha.
  rewrite (writeFields_stops _ _ _ _ _ _ _ _ _ Hbefore Hf) /=.
  by rewrite ?append_assoc ?append_nil_l.
Qed.

End FieldError.

Lemma struct_error_stops_witness :
  sample.heap !! 20 =
    Some (types.Struct ([sample.field "X" 0 ""] ++ sample.field "Y" 3 "" :: []))
  ∧ (Some 20 ∉ ([] : list types.Type_))
  ∧ Forall2
      (λ f s,
         writeType sample.quote sample.heap 1 "" None (types.field_type f)
           ([] ++ [Some 20]) = Returned s None)
      [sample.field "X" 0 ""] ["int"]
  ∧ writeType sample.quote sample.heap 1 "" None
      (types.field_type (sample.field "Y" 3 "")) ([] ++ [Some 20]) =
    Returned "" (Some "TODO")
  ∧ writeType sample.quote sample.heap 2 "" None (Some 20) [] =
    Returned "struct{X int; Y " (Some "TODO").
Proof.
  assert (sample.heap !! 20 =
            Some (types.Struct
                    ([sample.field "X" 0 ""] ++ sample.field "Y" 3 "" :: [])))
    as Ha by (vm_compute; reflexivity).
  assert (Some 20 ∉ ([] : list types.Type_)) as Hfresh
    by apply not_elem_of_nil.
  assert (Forall2
            (λ f s,
               writeType sample.quote sample.heap 1 "" None
                 (types.field_type f) ([] ++ [Some 20]) = Returned s None)
            [sample.field "X" 0 ""] ["int"]) as Hbefore.
  { repeat constructor; vm_compute; reflexivity. }
  assert (writeType sample.quote sample.heap 1 "" None
            (types.field_type (sample.field "Y" 3 "")) ([] ++ [Some 20]) =
          Returned "" (Some "TODO")) as Hf by (vm_compute; reflexivity).
  split; [exact Ha | split; [exact Hfresh | split; [exact Hbefore |]]].
  split; [exact Hf |].
  exact (struct_error_stops sample.quote sample.heap 1 None "" 20 _ _ _ _ _
           _ [] Ha Hfresh Hbefore Hf).
Defined.

(** ** Where an error and a panic come from *)

Section Origins.

Variable quote : string → string.
Variable heap : Heap.
Variable pkg : option types.Package.
Variable root : types.Type_.

Lemma reaches_children (a : types.addr) (n : types.Node) :
  reaches heap root (Some a) → heap !! a = Some n →
  Forall (reaches heap root) (children n).
Proof.
  intros Ha Hn. apply Forall_forall. intros typ Htyp.
  by eapply reaches_child.
Qed.

(** X10: an error that [typeString] returns is the error TODO, and an
    invalid basic type is reached from the root by going from nodes to the
    types they hold; a named type is not gone through. *)
Theorem error_reaches_invalid (s e : string) :
  typeString quote heap pkg root = Returned s (Some e) →
  e = "TODO"
  ∧ ∃ a name, reaches heap root (Some a)
              ∧ heap !! a = Some (types.Basic types.Invalid name).
Proof.
  set (P := λ r : outcome, ∀ s e, r = Returned s (Some e) →
    e = "TODO"
    ∧ ∃ a name, reaches heap root (Some a)
                ∧ heap !! a = Some (types.Basic types.Invalid name)).
  assert (∀ fuel buf typ visited, reaches heap root typ →
            P (writeType quote heap fuel buf pkg typ visited)) as Hcalls.
  { induction fuel as [|fuel IH]; intros buf typ visited Hreach; first done.
    apply (writeType_related (λ r _, P r))
      with (fuel2 := fuel) (ok := reaches heap root); try done.
    - intros r1 _ k1 _ Hr Hk s' e'. destruct r1; simpl; try done. apply Hk.
    - intros r1 _ k1 _ Hr Hk s' e'.
      destruct r1 as [b1 [e1|]| | |]; simpl; try done.
      + intros [= <- <-]. by eapply Hr.
      + apply Hk.
    - apply reaches_children.
    - intros a name b Ha Hinvalid s' e' [= _ <-]. eauto.
    - intros _ _ buf' typ' Hreach'. by apply IH. }
  apply Hcalls. constructor.
Qed.

(** X11: [typeString] only panics with the internal error of the variadic
    case of [writeTuple] or with a nil dereference, and only when the root
    reaches a variadic signature, of a function type or of a method, or an
    interface that embeds a type that is not a defined type: on a graph
    without either it never panics.  The direction of a channel is one of
    the three constants of go/types here, so the panic of line 178 has no
    value to fire on. *)
Theorem panic_origin (msg : string) :
  typeString quote heap pkg root = Panicked msg →
  (msg = string_type_expected ∨ msg = nil_dereference)
  ∧ ∃ a n, reaches heap root (Some a) ∧ heap !! a = Some n
           ∧ (variadic_in n = true ∨ embeds_undefined heap n = true).
Proof.
  set (P := λ r : outcome, ∀ msg, r = Panicked msg →
    (msg = string_type_expected ∨ msg = nil_dereference)
    ∧ ∃ a n, reaches heap root (Some a) ∧ heap !! a = Some n
             ∧ (variadic_in n = true ∨ embeds_undefined heap n = true)).
  assert (∀ r k, P r → (∀ b e, P (k b e)) → P (bind r k)) as Hbind.
  { intros r k Hr Hk msg'.
    destruct r; simpl; try done; [apply Hk | apply Hr]. }
  assert (∀ fuel buf typ visited, reaches heap root typ →
            P (writeType quote heap fuel buf pkg typ visited)) as Hcalls.
  { induction fuel as [|fuel IH]; intros buf typ visited Hreach; first done.
    apply (writeType_related (λ r _, P r))
      with (fuel2 := fuel) (ok := reaches heap root); try done.
    - intros r1 _ k1 _ Hr Hk. by apply Hbind.
    - apply check_from_bind; last done.
      intros r1 _ k1 _ Hr Hk. by apply Hbind.
    - apply reaches_children.
    - intros a n Ha Hn Hpanics%orb_true_iff.
      split; intros msg' [= <-]; (split; [auto | by exists a, n]).
    - intros _ _ buf' typ' Hreach'. by apply IH. }
  apply Hcalls. constructor.
Qed.

End Origins.

Lemma error_reaches_invalid_witness :
  typeString sample.quote sample.heap None (Some 20) =
    Returned "struct{X int; Y " (Some "TODO")
  ∧ "TODO" = "TODO"
  ∧ ∃ a name, reaches sample.heap (Some 20) (Some a)
              ∧ sample.heap !! a = Some (types.Basic types.Invalid name).
Proof.
  assert (typeString sample.quote sample.heap None (Some 20) =
            Returned "struct{X int; Y " (Some "TODO")) as Hroot
    by (vm_compute; reflexivity).
  split; [exact Hroot |].
  exact (error_reaches_invalid sample.quote sample.heap None (Some 20) _ _
           Hroot).
Defined.

Lemma panic_origin_witness :
  typeString sample.quote sample2.heap None (Some 10) =
    Panicked nil_dereference
  ∧ (nil_dereference = string_type_expected
     ∨ nil_dereference = nil_dereference)
  ∧ ∃ a n, reaches sample2.heap (Some 10) (Some a)
           ∧ sample2.heap !! a = Some n
           ∧ (variadic_in n = true ∨ embeds_undefined sample2.heap n = true).
Proof.
  assert (typeString sample.quote sample2.heap None (Some 10) =
            Panicked nil_dereference) as Hroot
    by (vm_compute; reflexivity).
  split; [exact Hroot |].
  exact (panic_origin sample.quote sample2.heap None (Some 10) _ Hroot).
Defined.

(** ** The slice after a call *)

(** X12: a call leaves the elements of [visited] that its caller sees as
    they were, whether [append] wrote into the array of the caller or moved
    to a new one, and returns what the renderer on the list of those elements
    returns: a type is on [visited] exactly while it is being rendered, and
    nothing has to be taken off after a call. *)
Theorem visited_restored (quote : string → string) (heap : Heap)
    (grow : nat → nat) (fuel : nat) (σ : Store) (buf : string)
    (pkg : option types.Package) (typ : types.Type_) (sl : Slice) :
  slice_ok σ sl →
  visible (writeType_sl quote heap grow fuel σ buf pkg typ sl).1 sl =
    visible σ sl
  ∧ slice_ok (writeType_sl quote heap grow fuel σ buf pkg typ sl).1 sl
  ∧ (writeType_sl quote heap grow fuel σ buf pkg typ sl).2 =
    writeType quote heap fuel buf pkg typ (visible σ sl).
Proof.
  intros Hok.
  destruct (writeType_sl_agrees quote heap grow pkg fuel σ buf typ sl Hok)
    as [Hres Hkeep].
  destruct (preserves_visible _ _ _ Hkeep Hok) as [Hvis Hok'].
  done.
Qed.

Lemma visited_restored_witness :
  slice_ok {[ 0 := [Some 27; None] ]} {| sl_ptr := 0; sl_len := 1 |}
  ∧ visible
      (writeType_sl sample.quote sample.heap (λ c, 2 * c) 3
         {[ 0 := [Some 27; None] ]} "a " None (Some 24)
         {| sl_ptr := 0; sl_len := 1 |}).1
      {| sl_ptr := 0; sl_len := 1 |} = [Some 27]
  ∧ slice_ok
      (writeType_sl sample.quote sample.heap (λ c, 2 * c) 3
         {[ 0 := [Some 27; None] ]} "a " None (Some 24)
         {| sl_ptr := 0; sl_len := 1 |}).1
      {| sl_ptr := 0; sl_len := 1 |}
  ∧ (writeType_sl sample.quote sample.heap (λ c, 2 * c) 3
       {[ 0 := [Some 27; None] ]} "a " None (Some 24)
       {| sl_ptr := 0; sl_len := 1 |}).2 =
    Returned "a *struct{X int}" None.
Proof.
  assert (slice_ok {[ 0 := [Some 27; None] ]} {| sl_ptr := 0; sl_len := 1 |})
    as Hok by (vm_compute; lia).
  split; [exact Hok |].
  exact (visited_restored sample.quote sample.heap (λ c, 2 * c) 3
           {[ 0 := [Some 27; None] ]} "a " None (Some 24)
           {| sl_ptr := 0; sl_len := 1 |} Hok).
Defined.
